(** * SkipList: a shallow embedding of [skip_list.h] and its properties

    The container of [namespace skiplist] is embedded at the instantiation
    [SkipList<int, int, _MAX_LEVEL, _Comp>]: keys and values are C++ [int]s,
    kept as [Z].  Nodes live in a heap addressed by pointers; [nullptr] is
    [None].  An operation returns [None] where the C++ program has no defined
    result (an array read out of bounds, a dangling pointer, a loop that does
    not end) or is ended by [std::terminate]. *)

From stdpp Require Import gmap list sorting.

Open Scope Z_scope.

Module skiplist.

(** ** Constants *)

Definition MAX_LEVEL : nat := 32.

(** [std::numeric_limits<int>::min()], for keys and for values, and the
    largest [int]. *)
Definition KeyType_min : Z := -2147483648.
Definition ValueType_min : Z := -2147483648.
Definition int_max : Z := 2147483647.

(** The values of [KeyType] (an [int]). *)
Definition in_KeyType (k : Z) : Prop := KeyType_min ≤ k ≤ int_max.

(** ** Comparator *)

Definition comparator : Type := Z → Z → Z.

(** [DefaultComparator::operator()]: [a == b ? 0 : a < b ? -1 : 1]. *)
Definition DefaultComparator : comparator :=
  fun a b => if a =? b then 0 else if a <? b then -1 else 1.

(** ** Nodes and memory *)

Abbreviation addr := positive.

(** [struct Node]: [level] is the array of [Level { Node* next; }]. *)
Record Node : Type := mkNode {
  key : Z;
  value : Z;
  level : list (option addr)
}.

Abbreviation heap := (gmap addr Node).

(** [class SkipList]: its three members, and the memory its nodes live in. *)
Record SkipList : Type := mkSkipList {
  maxLevel_ : nat;
  head_ : addr;
  comparator_ : comparator;
  mem : heap
}.

(** [new Node(level, key, value)]: a fresh address, [level] links set to
    null by the [memset]. *)
Definition createNode (lvl : nat) (k v : Z) (m : heap) : addr * heap :=
  let a := fresh (dom m) in
  (a, <[a := mkNode k v (replicate lvl None)]> m).

(** [delete p] for a non-null [p]: the node must be allocated. *)
Definition free (m : heap) (p : addr) : option heap :=
  match m !! p with
  | Some _ => Some (delete p m)
  | None => None
  end.

(** [p->level[i].next], read. *)
Definition link (m : heap) (p : addr) (i : nat) : option (option addr) :=
  nd ← m !! p; level nd !! i.

(** [p->level[i].next = x]. *)
Definition set_link (m : heap) (p : addr) (i : nat) (x : option addr)
  : option heap :=
  nd ← m !! p;
  if decide (i < length (level nd))%nat
  then Some (<[p := mkNode (key nd) (value nd) (<[i := x]> (level nd))]> m)
  else None.

(** [p->value = v]. *)
Definition set_value (m : heap) (p : addr) (v : Z) : option heap :=
  nd ← m !! p; Some (<[p := mkNode (key nd) v (level nd)]> m).

(** ** The constructor *)

(** Conversion of an integer to the 32-bit [int]. *)
Definition to_int (z : Z) : Z := (z + 2 ^ 31) `mod` 2 ^ 32 - 2 ^ 31.

(** [SkipList()]: the template arguments [_MAX_LEVEL], a [size_t], and
    [_Comp] are its parameters.  [createNode] takes the count of levels as an
    [int], so the [size_t] is converted; with a negative count
    [new Level[level]] throws, inside the [noexcept] [createNode], and the
    program is terminated.  The constructor checks nothing itself.  Memory
    is taken to be unbounded: an allocation does not fail. *)
Definition SkipList_new (_MAX_LEVEL : nat) (_Comp : comparator)
  : option SkipList :=
  let lvl := to_int (Z.of_nat _MAX_LEVEL) in
  if decide (0 ≤ lvl) then
    let '(h, m) := createNode (Z.to_nat lvl) KeyType_min ValueType_min ∅ in
    Some (mkSkipList 0 h _Comp m)
  else None.

(** ** Level selection *)

(** [1 << i] on [int]: defined for [i < 32] only; [1 << 31] is the most
    negative [int]. *)
Definition shl1 (i : nat) : option Z :=
  if decide (i < 32)%nat then Some (to_int (Z.shiftl 1 (Z.of_nat i))) else None.

(** The loop of [randomLevel], [n] iterations left, at index [i].  [rd] is
    the [long long], the [int] mask is sign-extended for [&]. *)
Fixpoint randomLevel_loop (rd : Z) (lvl : nat) (n : nat) (i : nat)
  : option nat :=
  match n with
  | O => Some lvl
  | S n' =>
      mask ← shl1 i;
      if Z.land rd mask =? 0 then Some (i + 1)%nat
      else randomLevel_loop rd lvl n' (S i)
  end.

(** [randomLevel(level)], on the word [rd] drawn from the generator. *)
Definition randomLevel (rd : Z) (lvl : nat) : option nat :=
  randomLevel_loop rd lvl lvl 0.

(** ** Traversal *)

(** [while (p->level[i].next && cond(p->level[i].next)) p = p->level[i].next;] *)
Fixpoint advance (fuel : nat) (cond : Node → bool) (m : heap) (i : nat)
    (p : addr) : option addr :=
  match fuel with
  | O => None
  | S fuel' =>
      nx ← link m p i;
      match nx with
      | None => Some p
      | Some q =>
          nq ← m !! q;
          if cond nq then advance fuel' cond m i q else Some p
      end
  end.

(** A loop over the nodes cannot take more steps than there are nodes
    without visiting one twice. *)
Definition steps (m : heap) : nat := S (size m).

(** *** searchNode *)

Definition search_cond (cmp : comparator) (k : Z) (nd : Node) : bool :=
  cmp (key nd) k <=? 0.

(** The [for] loop of [searchNode], from level [n - 1] down to 0. *)
Fixpoint searchNode_loop (fuel : nat) (cmp : comparator) (k : Z) (m : heap)
    (n : nat) (p : addr) : option addr :=
  match n with
  | O => Some p
  | S i =>
      p' ← advance fuel (search_cond cmp k) m i p;
      searchNode_loop fuel cmp k m i p'
  end.

Definition searchNode (k : Z) (s : SkipList) : option (option addr) :=
  p ← searchNode_loop (steps (mem s)) (comparator_ s) k (mem s)
        (maxLevel_ s) (head_ s);
  nd ← mem s !! p;
  Some (if key nd =? k then Some p else None).

(** *** search *)

Definition search (k : Z) (s : SkipList) : option Z :=
  node ← searchNode k s;
  match node with
  | Some p => nd ← mem s !! p; Some (value nd)
  | None => Some ValueType_min
  end.

(** *** update *)

Definition update (k v : Z) (s : SkipList) : option (Z * SkipList) :=
  node ← searchNode k s;
  match node with
  | Some p =>
      m ← set_value (mem s) p v;
      Some (0, mkSkipList (maxLevel_ s) (head_ s) (comparator_ s) m)
  | None => Some (1, s)
  end.

(** *** insert *)

Definition insert_cond (cmp : comparator) (k v : Z) (nd : Node) : bool :=
  (cmp (key nd) k <? 0) || ((cmp (key nd) k =? 0) && (cmp (value nd) v <? 0)).

(** The [for] loop of [insert]: [lvl] is the height of the new node [node]. *)
Fixpoint insert_loop (fuel : nat) (cmp : comparator) (k v : Z) (lvl : nat)
    (node : addr) (m : heap) (n : nat) (p : addr) : option heap :=
  match n with
  | O => Some m
  | S i =>
      p' ← advance fuel (insert_cond cmp k v) m i p;
      m' ← (if decide (i < lvl)%nat then
              nx ← link m p' i;
              m1 ← set_link m node i nx;
              set_link m1 p' i (Some node)
            else Some m);
      insert_loop fuel cmp k v lvl node m' i p'
  end.

(** [insert(key, value)]; [rd] is the word the generator yields. *)
Definition insert (k v : Z) (rd : Z) (s : SkipList) : option (Z * SkipList) :=
  lvl ← randomLevel rd MAX_LEVEL;
  let maxLevel := if decide (maxLevel_ s < lvl)%nat then lvl else maxLevel_ s in
  let p := head_ s in
  let '(node, m) := createNode lvl k v (mem s) in
  m' ← insert_loop (steps m) (comparator_ s) k v lvl node m maxLevel p;
  Some (0, mkSkipList maxLevel (head_ s) (comparator_ s) m').

(** *** remove *)

Definition remove_cond (cmp : comparator) (k : Z) (nd : Node) : bool :=
  cmp (key nd) k <? 0.

(** The [for] loop of [remove], with the locals [delNode] and [value]. *)
Fixpoint remove_loop (fuel : nat) (cmp : comparator) (k : Z) (m : heap)
    (n : nat) (p : addr) (delNode : option addr) (val : Z)
  : option (heap * option addr * Z) :=
  match n with
  | O => Some (m, delNode, val)
  | S i =>
      p' ← advance fuel (remove_cond cmp k) m i p;
      nx ← link m p' i;
      match nx with
      | None => remove_loop fuel cmp k m i p' delNode val
      | Some q =>
          nq ← m !! q;
          if cmp (key nq) k =? 0 then
            nn ← level nq !! i;
            m' ← set_link m p' i nn;
            remove_loop fuel cmp k m' i p' (Some q) (value nq)
          else remove_loop fuel cmp k m i p' delNode val
      end
  end.

Definition remove (k : Z) (s : SkipList) : option (Z * SkipList) :=
  '(m, delNode, val) ← remove_loop (steps (mem s)) (comparator_ s) k (mem s)
                          (maxLevel_ s) (head_ s) None (-1);
  m' ← match delNode with
       | Some d => free m d
       | None => Some m
       end;
  Some (val, mkSkipList (maxLevel_ s) (head_ s) (comparator_ s) m').

(** *** clear *)

(** The inner [for] loop of [clear]: [n] iterations left, at level [i]. *)
Fixpoint clear_levels (hd : addr) (m : heap) (n : nat) (i : nat)
  : option heap :=
  match n with
  | O => Some m
  | S n' =>
      nx ← link m hd i;
      m' ← match nx with
           | Some q => nn ← link m q i; set_link m hd i nn
           | None => Some m
           end;
      clear_levels hd m' n' (S i)
  end.

(** The [while] loop of [clear]. *)
Fixpoint clear_loop (fuel : nat) (hd : addr) (maxLevel : nat) (m : heap)
  : option heap :=
  match fuel with
  | O => None
  | S fuel' =>
      nx ← link m hd 0;
      match nx with
      | None => Some m
      | Some delNode =>
          m1 ← clear_levels hd m maxLevel 0;
          m2 ← free m1 delNode;
          clear_loop fuel' hd maxLevel m2
      end
  end.

Definition clear (s : SkipList) : option SkipList :=
  m ← clear_loop (steps (mem s)) (head_ s) (maxLevel_ s) (mem s);
  Some (mkSkipList (maxLevel_ s) (head_ s) (comparator_ s) m).

(** *** The destructor *)

(** [~SkipList()]: [clear()], then [delete head_], which frees the head
    sentinel with its array of links.  The result is the memory left. *)
Definition SkipList_delete (s : SkipList) : option heap :=
  s' ← clear s; free (mem s') (head_ s').

(** ** The abstract view of a state *)

(** [seg m i x l y]: following the level-[i] links from the pointer [x]
    visits exactly the nodes [l], and the link of the last one is [y]. *)
Fixpoint seg (m : heap) (i : nat) (x : option addr) (l : list addr)
    (y : option addr) : Prop :=
  match l with
  | [] => x = y
  | a :: l' => x = Some a ∧ ∃ z, link m a i = Some z ∧ seg m i z l' y
  end.

(** The nodes after [p] on level [i], up to the null link. *)
Definition chain (m : heap) (i : nat) (p : addr) (l : list addr) : Prop :=
  seg m i (Some p) (p :: l) None.

(** The last node of [p :: l]. *)
Fixpoint endof (p : addr) (l : list addr) : addr :=
  match l with
  | [] => p
  | a :: l' => endof a l'
  end.

Definition keyof (m : heap) (a : addr) : Z := from_option key 0 (m !! a).
Definition valueof (m : heap) (a : addr) : Z := from_option value 0 (m !! a).

(** What a write to a link leaves alone: key, value and height of a node. *)
Definition shape (m : heap) (a : addr) : option (Z * Z * nat) :=
  (λ nd, (key nd, value nd, length (level nd))) <$> m !! a.

(** The list without its first element that satisfies [c]. *)
Fixpoint del_first (c : addr → bool) (l : list addr) : list addr :=
  match l with
  | [] => []
  | a :: l' => if c a then l' else a :: del_first c l'
  end.

(** The nodes from [x] on along level [i], computed. *)
Fixpoint nodes_from (fuel : nat) (m : heap) (i : nat) (x : option addr)
  : option (list addr) :=
  match x with
  | None => Some []
  | Some a =>
      match fuel with
      | O => None
      | S fuel' =>
          y ← link m a i; l ← nodes_from fuel' m i y; Some (a :: l)
      end
  end.

(** The nodes linked on level [i], the head sentinel left out. *)
Definition level_nodes (s : SkipList) (i : nat) : option (list addr) :=
  x ← link (mem s) (head_ s) i; nodes_from (steps (mem s)) (mem s) i x.

(** The (key, value) pair of a node. *)
Definition entry (s : SkipList) (a : addr) : option (Z * Z) :=
  nd ← mem s !! a; Some (key nd, value nd).

Definition level_entries (s : SkipList) (i : nat) : option (list (Z * Z)) :=
  l ← level_nodes s i; mapM (entry s) l.

(** The stored pairs, in the order of level 0. *)
Definition entries (s : SkipList) : option (list (Z * Z)) := level_entries s 0.

(** The number of links of the head sentinel. *)
Definition head_levels (s : SkipList) : nat :=
  from_option (λ nd, length (level nd)) O (mem s !! head_ s).

(** ** Well-formed states *)

(** [represents s Ls]: the state [s] holds, on every level [i], the chain of
    nodes [Ls i] after the head sentinel. *)
Record represents (s : SkipList) (Ls : nat → list addr) : Prop := {
  rep_cmp : comparator_ s = DefaultComparator;
  rep_head_key : keyof (mem s) (head_ s) = KeyType_min;
  rep_head : is_Some (mem s !! head_ s);
  rep_max : (maxLevel_ s ≤ head_levels s)%nat;
  rep_chain : ∀ i, (i < head_levels s)%nat → chain (mem s) i (head_ s) (Ls i);
  rep_empty : ∀ i, (maxLevel_ s ≤ i)%nat → Ls i = [];
  rep_sub : ∀ i, Ls (S i) `sublist_of` Ls i;
  rep_nodup : NoDup (head_ s :: Ls O);
  rep_sorted :
    StronglySorted (λ a b, keyof (mem s) a ≤ keyof (mem s) b) (Ls O);
  rep_range : ∀ a, a ∈ Ls O → in_KeyType (keyof (mem s) a);
  rep_dom : ∀ a, is_Some (mem s !! a) → a ∈ head_ s :: Ls O
}.

Definition well_formed (s : SkipList) : Prop := ∃ Ls, represents s Ls.

(** The states of a container [SkipList<int, int, n>], for any [n]:
    constructed with the default comparator, then operated on, as long as
    the operations have a result. *)
Inductive reachable : SkipList → Prop :=
  | reach_new n s :
      SkipList_new n DefaultComparator = Some s → reachable s
  | reach_insert s k v rd r s' :
      reachable s → in_KeyType k →
      insert k v rd s = Some (r, s') → reachable s'
  | reach_update s k v r s' :
      reachable s → update k v s = Some (r, s') → reachable s'
  | reach_remove s k r s' :
      reachable s → remove k s = Some (r, s') → reachable s'
  | reach_clear s s' :
      reachable s → clear s = Some s' → reachable s'.

(** The node at which the descent of [searchNode] for [k] ends, on a chain
    [L] sorted by key: the last node whose key is at most [k], or the head. *)
Definition search_pos (m : heap) (hd : addr) (k : Z) (L : list addr) : addr :=
  endof hd (filter (λ a, keyof m a ≤ k) L).

(** A key is stored when a node of level 0 carries it. *)
Definition stored (s : SkipList) (k : Z) : Prop :=
  ∃ es, entries s = Some es ∧ k ∈ es.*1.

(** The order of [insert]: key first, value second. *)
Definition pair_lt (m : heap) (k v : Z) (a : addr) : bool :=
  bool_decide (keyof m a < k)
  || (bool_decide (keyof m a = k) && bool_decide (valueof m a < v)).

(** The order of the pairs of two nodes: key first, value second. *)
Definition pair_le (m : heap) (a b : addr) : Prop :=
  keyof m a < keyof m b ∨ (keyof m a = keyof m b ∧ valueof m a ≤ valueof m b).

(** Where the loop of [insert] stops on a chain [L]: after [A], whose last
    node is below the new pair, and before [B], whose first node is not. *)
Definition ins_split (c : addr → bool) (hd : addr) (L A B : list addr) : Prop :=
  L = A ++ B
  ∧ (A = [] ∨ c (endof hd A) = true)
  ∧ match B with [] => True | b :: _ => c b = false end.

(** ** The level selector, after the specification *)

(** The index of the first zero bit of [rd] among the [n] bits from bit [i]
    on. *)
Fixpoint first_zero_bit (rd : Z) (n : nat) (i : nat) : option nat :=
  match n with
  | O => None
  | S n' =>
      if Z.testbit rd (Z.of_nat i) then first_zero_bit rd n' (S i) else Some i
  end.

(** One plus the index of the first zero bit of the 64-bit word, capped at
    the maximum level. *)
Definition spec_height (rd : Z) (max_level : nat) : nat :=
  match first_zero_bit rd 64 0 with
  | Some j => Nat.min (j + 1) max_level
  | None => max_level
  end.

(** The values of a [long long], from which the generator draws the word of
    [randomLevel]. *)
Definition words : list Z := seqZ (- 2 ^ 63) (2 ^ 64).

(** The chains after [insert]: the new node goes in at the stop of every
    level below its height. *)
Definition inserted (Ls : nat → list addr) (sp : nat → list addr * list addr)
    (lvl : nat) (node : addr) : nat → list addr :=
  λ j, if decide (j < lvl)%nat then (sp j).1 ++ node :: (sp j).2 else Ls j.

(** ** Lists of pairs *)

(** The value of the first and of the last pair with key [K]. *)
Definition first_value (K : Z) (es : list (Z * Z)) : option Z :=
  snd <$> head (filter (λ e, e.1 = K) es).

Definition last_value (K : Z) (es : list (Z * Z)) : option Z :=
  snd <$> last (filter (λ e, e.1 = K) es).

(** The list without its first pair with key [K]. *)
Fixpoint remove_first (K : Z) (es : list (Z * Z)) : list (Z * Z) :=
  match es with
  | [] => []
  | e :: es' => if decide (e.1 = K) then es' else e :: remove_first K es'
  end.

(** The pair [e] comes before the pair [(k, v)] in the order of [insert]. *)
Definition pair_before (k v : Z) (e : Z * Z) : Prop :=
  e.1 < k ∨ (e.1 = k ∧ e.2 < v).

(** The order of two pairs: key first, value second. *)
Definition pair_order (e e' : Z * Z) : Prop :=
  e.1 < e'.1 ∨ (e.1 = e'.1 ∧ e.2 ≤ e'.2).

(** The states of a container on which [update] is never called. *)
Inductive built : SkipList → Prop :=
  | built_new n s :
      SkipList_new n DefaultComparator = Some s → built s
  | built_insert s k v rd r s' :
      built s → in_KeyType k →
      insert k v rd s = Some (r, s') → built s'
  | built_remove s k r s' :
      built s → remove k s = Some (r, s') → built s'
  | built_clear s s' :
      built s → clear s = Some s' → built s'.

(** ** A container with one pair *)

(** The links of the head sentinel [1] when the levels from [a] below [b]
    point to the node [2]. *)
Definition head_links (n a b : nat) : list (option addr) :=
  (λ i, if decide (a ≤ i < b)%nat then Some 2%positive else None) <$> seq 0 n.

(** The memory of a container [SkipList<int, int, n>] with the head
    sentinel and one node of height [lvl] with the pair [(k, v)]. *)
Definition one_pair_mem (n lvl a b : nat) (k v : Z) : heap :=
  <[1%positive := mkNode KeyType_min ValueType_min (head_links n a b)]>
    {[2%positive := mkNode k v (replicate lvl None)]}.

(** ** Sample states *)

(** The state an operation leaves, for a run written out step by step. *)
Definition the (o : option SkipList) : SkipList :=
  default (mkSkipList 0 1 DefaultComparator ∅) o.

(** The first two words of a default-constructed [std::mt19937_64], as
    [long long]: 14514284786278117030 and 4620546740167642908. *)
Definition mt_word_1 : Z := -3932459287431434586.
Definition mt_word_2 : Z := 4620546740167642908.

(** [SkipList<int, int> l;] *)
Definition l_new : SkipList := the (SkipList_new MAX_LEVEL DefaultComparator).

(** [l.insert(5, 1);] *)
Definition l_5_1 : SkipList := the (snd <$> insert 5 1 mt_word_1 l_new).

(** [l.insert(5, 1); l.insert(5, 1);] *)
Definition l_5_1_twice : SkipList := the (snd <$> insert 5 1 mt_word_2 l_5_1).

(** [l.insert(5, 1); l.insert(5, 2);] *)
Definition l_5_1_5_2 : SkipList := the (snd <$> insert 5 2 mt_word_2 l_5_1).

(** [l.update(INT_MIN, 7);] on the new container. *)
Definition l_head_7 : SkipList := the (snd <$> update KeyType_min 7 l_new).

(** [l.update(INT_MIN, 7); l.insert(INT_MIN, 1);] *)
Definition l_head_7_ins : SkipList :=
  the (snd <$> insert KeyType_min 1 mt_word_1 l_head_7).

(** [l.update(INT_MIN, 7); l.insert(INT_MIN, 1); l.remove(INT_MIN);] *)
Definition l_head_7_ins_rem : SkipList :=
  the (snd <$> remove KeyType_min l_head_7_ins).

(** [l.update(INT_MIN, 7); l.insert(INT_MIN, 1); l.clear();] *)
Definition l_head_7_cleared : SkipList := the (clear l_head_7_ins).

(** [l.insert(5, 1); l.insert(7, 2);], the second node drawn with the
    random word 3, so with three levels. *)
Definition l_5_1_7_2 : SkipList := the (snd <$> insert 7 2 3 l_5_1).

(** [SkipList<int, int, 1> l;] *)
Definition l_one_level : SkipList := the (SkipList_new 1 DefaultComparator).

(** [SkipList<int, int, 0> l;] *)
Definition l_no_level : SkipList := the (SkipList_new 0 DefaultComparator).

(** The third to the seventh word of a default-constructed
    [std::mt19937_64], as [long long]: 13109570281517897720,
    17462938647148434322, 355488278567739596, 7469126240319926998 and
    4635995468481642529. *)
Definition mt_word_3 : Z := -5337173792191653896.
Definition mt_word_4 : Z := -983805426561117294.
Definition mt_word_5 : Z := 355488278567739596.
Definition mt_word_6 : Z := 7469126240319926998.
Definition mt_word_7 : Z := 4635995468481642529.

(** [for ((k, rd) : kws) l.insert(k, k);], the generator yielding [rd]. *)
Fixpoint insert_all (kws : list (Z * Z)) (s : SkipList) : option SkipList :=
  match kws with
  | [] => Some s
  | (k, rd) :: kws' => '(_, s') ← insert k k rd s; insert_all kws' s'
  end.

(** [SkipList<int, int, 1> l; l.insert(1, 1); ... l.insert(6, 6);], the
    first six inserts of a program. *)
Definition l_one_level_6 : SkipList :=
  the (insert_all [(1, mt_word_1); (2, mt_word_2); (3, mt_word_3);
                   (4, mt_word_4); (5, mt_word_5); (6, mt_word_6)]
         l_one_level).

(** A comparator that is no order: every value is below every value,
    itself included. *)
Definition bad_comparator : comparator := λ _ _, -1.

(** A comparator that orders the integers by their tens:
    [DefaultComparator()(a / 10, b / 10)]. *)
Definition tens_comparator : comparator :=
  λ a b, DefaultComparator (Z.quot a 10) (Z.quot b 10).

(** * Properties *)

(** ** The default comparator *)

Lemma DefaultComparator_lt a b : (DefaultComparator a b <? 0) = bool_decide (a < b).
Proof.
  unfold DefaultComparator.
  destruct (Z.eqb_spec a b), (Z.ltb_spec a b); case_bool_decide; simpl; lia.
Qed.

Lemma DefaultComparator_eq a b : (DefaultComparator a b =? 0) = bool_decide (a = b).
Proof.
  unfold DefaultComparator.
  destruct (Z.eqb_spec a b), (Z.ltb_spec a b); case_bool_decide; simpl; lia.
Qed.

Lemma DefaultComparator_le a b : (DefaultComparator a b <=? 0) = bool_decide (a ≤ b).
Proof.
  unfold DefaultComparator.
  destruct (Z.eqb_spec a b), (Z.ltb_spec a b); case_bool_decide; simpl; lia.
Qed.

(** ** Reading and writing memory *)

Lemma link_Some m p i x :
  link m p i = Some x ↔ ∃ nd, m !! p = Some nd ∧ level nd !! i = Some x.
Proof.
  unfold link. destruct (m !! p) as [nd|]; simpl.
  - split; [eauto|]. by intros (? & [= <-] & ?).
  - split; [done|]. by intros (? & ? & _).
Qed.

Lemma link_shape m p i x :
  link m p i = Some x → ∃ kv h, shape m p = Some (kv, h) ∧ (i < h)%nat.
Proof.
  intros (nd & Hnd & Hi)%link_Some. unfold shape. rewrite Hnd. simpl.
  eexists _, _. split; [done|]. by eapply lookup_lt_Some.
Qed.

Lemma set_link_Some m p i x kv h :
  shape m p = Some (kv, h) → (i < h)%nat → ∃ m', set_link m p i x = Some m'.
Proof.
  unfold shape, set_link. destruct (m !! p) as [nd|]; simpl; [|done].
  intros [= <- <-] Hi. rewrite decide_True by done. eauto.
Qed.

Lemma set_link_shape m p i x m' a :
  set_link m p i x = Some m' → shape m' a = shape m a.
Proof.
  unfold set_link, shape. destruct (m !! p) as [nd|] eqn:Hp; simpl; [|done].
  case_decide; [|done]. intros [= <-].
  destruct (decide (p = a)) as [->|Hne].
  - rewrite lookup_insert_eq, Hp. simpl. by rewrite length_insert.
  - by rewrite lookup_insert_ne.
Qed.

Lemma set_link_same m p i x m' :
  set_link m p i x = Some m' → link m' p i = Some x.
Proof.
  unfold set_link, link. destruct (m !! p) as [nd|] eqn:Hp; simpl; [|done].
  case_decide; [|done]. intros [= <-].
  rewrite lookup_insert_eq. simpl. by apply list_lookup_insert_eq.
Qed.

Lemma set_link_other m p i x m' a j :
  set_link m p i x = Some m' → a ≠ p ∨ j ≠ i → link m' a j = link m a j.
Proof.
  unfold set_link, link. destruct (m !! p) as [nd|] eqn:Hp; simpl; [|done].
  case_decide; [|done]. intros [= <-] Hne.
  destruct (decide (p = a)) as [->|Hpa].
  - rewrite lookup_insert_eq, Hp. simpl. destruct Hne as [|Hne]; [done|].
    by rewrite list_lookup_insert_ne.
  - by rewrite lookup_insert_ne.
Qed.

Lemma shape_keyof m m' a : shape m' a = shape m a → keyof m' a = keyof m a.
Proof.
  unfold shape, keyof.
  destruct (m' !! a), (m !! a); simpl; congruence.
Qed.

Lemma shape_valueof m m' a : shape m' a = shape m a → valueof m' a = valueof m a.
Proof.
  unfold shape, valueof.
  destruct (m' !! a), (m !! a); simpl; congruence.
Qed.

(** ** Segments *)

Lemma seg_app m i x l1 l2 y :
  seg m i x (l1 ++ l2) y ↔ ∃ z, seg m i x l1 z ∧ seg m i z l2 y.
Proof.
  revert x. induction l1 as [|a l1 IH]; intros x; simpl.
  - split; [eauto|]. by intros (z & -> & ?).
  - split.
    + intros (-> & z & Hl & (w & ? & ?)%IH). eauto 10.
    + intros (w & (-> & z & Hl & ?) & ?). split; [done|].
      exists z. split; [done|]. apply IH. eauto.
Qed.

Lemma seg_ext m m' i x l y :
  (∀ a, a ∈ l → link m' a i = link m a i) → seg m i x l y → seg m' i x l y.
Proof.
  revert x. induction l as [|a l IH]; intros x Hl; simpl; [done|].
  intros (-> & z & Hz & Hs). split; [done|]. exists z. split.
  - rewrite Hl; [done|]. left.
  - apply IH; [|done]. intros b Hb. apply Hl. by right.
Qed.

Lemma seg_func m i x l l' :
  seg m i x l None → seg m i x l' None → l = l'.
Proof.
  revert x l'. induction l as [|a l IH]; intros x [|a' l']; simpl.
  - done.
  - intros -> (? & _). done.
  - intros (-> & _) ?. done.
  - intros (-> & z & Hz & Hs) ([= <-] & z' & Hz' & Hs').
    rewrite Hz in Hz'. injection Hz' as <-. f_equal. by eapply IH.
Qed.

Lemma seg_live m i x l y a : seg m i x l y → a ∈ l → is_Some (m !! a).
Proof.
  revert x. induction l as [|b l IH]; intros x; simpl.
  - intros _ Ha. by apply elem_of_nil in Ha.
  - intros (-> & z & Hz & Hs) [->|Ha]%elem_of_cons; [|by eapply IH].
    apply link_Some in Hz as (nd & -> & _). eauto.
Qed.

Lemma endof_app p l1 l2 : endof p (l1 ++ l2) = endof (endof p l1) l2.
Proof. revert p. induction l1 as [|a l1 IH]; intros p; simpl; auto. Qed.

Lemma endof_elem p l : endof p l ∈ p :: l.
Proof.
  revert p. induction l as [|a l IH]; intros p; simpl; [left|]. right. apply IH.
Qed.

Lemma endof_snoc_inv p l : ∃ l0, p :: l = l0 ++ [endof p l].
Proof.
  revert p. induction l as [|a l IH]; intros p; simpl.
  - by exists [].
  - destruct (IH a) as [l0 ->]. by exists (p :: l0).
Qed.

(** The link of the last node of a segment is where the segment ends. *)
Lemma seg_endof m i p l y :
  seg m i (Some p) (p :: l) y → link m (endof p l) i = Some y.
Proof.
  revert p. induction l as [|a l IH]; intros p.
  - simpl. by intros (_ & z & ? & <-).
  - intros (_ & z & Hz & Hs). apply IH.
    simpl in Hs. destruct Hs as (-> & Hs). simpl. eauto.
Qed.

Lemma chain_split m i p l1 l2 :
  chain m i p (l1 ++ l2) → chain m i (endof p l1) l2.
Proof.
  unfold chain. rewrite app_comm_cons. intros (z & H1 & H2)%seg_app.
  apply seg_endof in H1. simpl. eauto.
Qed.

(** ** The inner loop *)

Lemma advance_spec fuel cond m i p l1 l2 :
  chain m i p (l1 ++ l2) →
  Forall (λ a, ∃ nd, m !! a = Some nd ∧ cond nd = true) l1 →
  match l2 with
  | [] => True
  | b :: _ => ∃ nd, m !! b = Some nd ∧ cond nd = false
  end →
  (length l1 < fuel)%nat →
  advance fuel cond m i p = Some (endof p l1).
Proof.
  revert p fuel. induction l1 as [|a l1 IH]; intros p fuel Hc Hall Hstop Hfuel.
  - destruct fuel as [|fuel]; [simpl in Hfuel; lia|].
    simpl in *. destruct Hc as (_ & z & -> & Hs). simpl.
    destruct l2 as [|b l2]; simpl in Hs.
    + by subst z.
    + destruct Hs as (-> & _). destruct Hstop as (nd & Hb & Hcb).
      rewrite Hb. simpl. by rewrite Hcb.
  - destruct fuel as [|fuel]; [simpl in Hfuel; lia|].
    apply Forall_cons in Hall as [(nd & Ha & Hca) Hall].
    simpl in Hc. destruct Hc as (_ & z & Hz & -> & Hs).
    simpl. rewrite Hz. simpl. rewrite Ha. simpl. rewrite Hca.
    apply IH; [|done..|simpl in Hfuel; lia].
    unfold chain. simpl. done.
Qed.

(** ** Computing a chain *)

Lemma nodes_from_seg fuel m i x l :
  seg m i x l None → (length l ≤ fuel)%nat → nodes_from fuel m i x = Some l.
Proof.
  revert x fuel. induction l as [|a l IH]; intros x fuel; simpl.
  - intros -> _. by destruct fuel.
  - intros (-> & z & Hz & Hs) Hf. destruct fuel as [|fuel]; [lia|].
    simpl. rewrite Hz. simpl. rewrite (IH z fuel) by (done || lia). done.
Qed.

Lemma nodes_from_Some fuel m i x l :
  nodes_from fuel m i x = Some l → seg m i x l None.
Proof.
  revert x l. induction fuel as [|fuel IH]; intros [a|] l; simpl; try done.
  - by intros [= <-].
  - destruct (link m a i) as [y|] eqn:Hy; simpl; [|done].
    destruct (nodes_from fuel m i y) as [l'|] eqn:Hl; simpl; [|done].
    intros [= <-]. simpl. split; [done|]. exists y. split; [done|]. by apply IH.
  - by intros [= <-].
Qed.

Lemma length_le_size (m : heap) (l : list addr) :
  NoDup l → (∀ a, a ∈ l → is_Some (m !! a)) → (length l ≤ size m)%nat.
Proof.
  intros Hnd Hl. rewrite <- (size_list_to_set (C := gset addr) l) by done.
  rewrite <- size_dom. apply subseteq_size.
  intros a Ha. apply elem_of_dom. apply Hl. by apply elem_of_list_to_set in Ha.
Qed.

(** ** Lists *)

Lemma StronglySorted_sublist {A} (R : relation A) (l1 l2 : list A) :
  l1 `sublist_of` l2 → StronglySorted R l2 → StronglySorted R l1.
Proof.
  induction 1 as [|x l1 l2 Hs IH|x l1 l2 Hs IH]; intros Hsort.
  - constructor.
  - apply StronglySorted_inv in Hsort as [Hsort Hall]. constructor; [auto|].
    eapply Forall_forall. intros y Hy. eapply Forall_forall in Hall; [done|].
    by eapply sublist_subseteq.
  - apply StronglySorted_inv in Hsort as [Hsort _]. auto.
Qed.

Lemma filter_none {A} (P : A → Prop) `{!∀ x, Decision (P x)} (l : list A) :
  Forall (λ x, ¬ P x) l → filter P l = [].
Proof.
  induction 1 as [|x l Hx Hl IH]; [done|]. by rewrite filter_cons_False.
Qed.

Lemma filter_all {A} (P : A → Prop) `{!∀ x, Decision (P x)} (l : list A) :
  Forall P l → filter P l = l.
Proof.
  induction 1 as [|x l Hx Hl IH]; [done|]. rewrite filter_cons_True by done.
  by f_equal.
Qed.

(** In a sorted list the elements below a bound come first. *)
Lemma sorted_partition {A} (R : relation A) (P : A → Prop)
    `{!∀ x, Decision (P x)} (l : list A) :
  (∀ a b, R a b → P b → P a) →
  StronglySorted R l →
  l = filter P l ++ filter (λ a, ¬ P a) l.
Proof.
  intros Hdown. induction 1 as [|a l Hs IH Hall]; [done|].
  rewrite !filter_cons. destruct (decide (P a)) as [Ha|Ha].
  - rewrite decide_False by tauto. simpl. by f_equal.
  - rewrite decide_True by done.
    assert (Forall (λ b, ¬ P b) l) as Hno.
    { eapply Forall_impl; [exact Hall|].
      simpl. intros b Hab Hb. apply Ha. by eapply Hdown. }
    rewrite (filter_none P l), (filter_all (λ b, ¬ P b) l) by done. done.
Qed.

Lemma del_first_sublist c l : del_first c l `sublist_of` l.
Proof.
  induction l as [|a l IH]; simpl; [done|].
  destruct (c a); [by apply sublist_cons|by apply sublist_skip].
Qed.

Lemma del_first_mono c l1 l2 :
  l1 `sublist_of` l2 → del_first c l1 `sublist_of` del_first c l2.
Proof.
  induction 1 as [|x l1 l2 Hs IH|x l1 l2 Hs IH]; simpl; [done|..].
  - destruct (c x); [done|by apply sublist_skip].
  - destruct (c x).
    + etrans; [apply del_first_sublist|done].
    + by apply sublist_cons.
Qed.

(** ** Consequences of well-formedness *)

Section represents_facts.
Context (s : SkipList) (Ls : nat → list addr) (Hrep : represents s Ls).

Lemma rep_sub0 i : Ls i `sublist_of` Ls O.
Proof.
  induction i as [|i IH]; [done|]. etrans; [apply (rep_sub _ _ Hrep)|done].
Qed.

Lemma rep_nodup_level i : NoDup (head_ s :: Ls i).
Proof.
  eapply sublist_NoDup; [apply (rep_nodup _ _ Hrep)|].
  apply sublist_skip, rep_sub0.
Qed.

Lemma rep_sorted_level i :
  StronglySorted (λ a b, keyof (mem s) a ≤ keyof (mem s) b) (Ls i).
Proof.
  eapply StronglySorted_sublist; [apply rep_sub0|apply (rep_sorted _ _ Hrep)].
Qed.

Lemma rep_head_live :
  ∃ hn, mem s !! head_ s = Some hn ∧ key hn = KeyType_min
        ∧ length (level hn) = head_levels s.
Proof.
  destruct (rep_head _ _ Hrep) as [hn Hhn].
  pose proof (rep_head_key _ _ Hrep) as Hk.
  unfold head_levels, keyof in *. rewrite Hhn in *. simpl in *. eauto.
Qed.

(** A level that holds a node exists. *)
Lemma rep_level0 i a : a ∈ Ls i → (0 < head_levels s)%nat.
Proof.
  intros Ha. pose proof (rep_max _ _ Hrep).
  destruct (decide (0 < maxLevel_ s)%nat) as [Hlt|Hge]; [lia|].
  pose proof (sublist_subseteq _ _ (rep_sub0 i) _ Ha) as H0.
  rewrite (rep_empty _ _ Hrep O) in H0 by lia. by apply elem_of_nil in H0.
Qed.

Lemma rep_live i a : a ∈ Ls i → is_Some (mem s !! a).
Proof.
  intros Ha.
  eapply (seg_live _ O); [apply (rep_chain _ _ Hrep), (rep_level0 i a Ha)|].
  right. eapply sublist_subseteq; [apply rep_sub0|done].
Qed.

Lemma rep_size : (length (Ls O) < size (mem s))%nat.
Proof.
  change (length (head_ s :: Ls O) ≤ size (mem s))%nat.
  apply length_le_size; [apply (rep_nodup _ _ Hrep)|].
  intros a [->|Ha]%elem_of_cons; [apply (rep_head _ _ Hrep)|].
  by apply (rep_live O).
Qed.

Lemma rep_fuel i : (length (Ls i) < steps (mem s))%nat.
Proof.
  pose proof rep_size. pose proof (sublist_length _ _ (rep_sub0 i)).
  unfold steps. lia.
Qed.

Lemma rep_max_levels : (maxLevel_ s ≤ head_levels s)%nat.
Proof. apply (rep_max _ _ Hrep). Qed.
End represents_facts.

(** ** Descending one level *)

(** On a level whose chain is split by [P] into a part that satisfies it and
    a part that does not, the loop started from any node of the first part
    stops at the end of that part. *)
Lemma descend_step fuel cond m i hd (P : addr → Prop) `{!∀ a, Decision (P a)}
    (L' L : list addr) :
  chain m i hd L →
  L = filter P L ++ filter (λ a, ¬ P a) L →
  (∀ a, a ∈ L' → a ∈ L) →
  (∀ a, a ∈ L → ∃ nd, m !! a = Some nd ∧ (cond nd = true ↔ P a)) →
  (length L < fuel)%nat →
  advance fuel cond m i (endof hd (filter P L')) = Some (endof hd (filter P L)).
Proof.
  intros Hc Hsplit Hsub Hcond Hfuel.
  assert (Forall (λ a, ∃ nd, m !! a = Some nd ∧ cond nd = true) (filter P L))
    as Hyes.
  { apply Forall_forall. intros a [HP Ha]%list_elem_of_filter.
    destruct (Hcond a Ha) as (nd & Hnd & Hiff). exists nd. tauto. }
  assert (match filter (λ a, ¬ P a) L with
          | [] => True
          | b :: _ => ∃ nd, m !! b = Some nd ∧ cond nd = false
          end) as Hno.
  { destruct (filter (λ a, ¬ P a) L) as [|b G] eqn:HG; [done|].
    assert (b ∈ filter (λ a, ¬ P a) L) as [HP Hb]%list_elem_of_filter
      by (rewrite HG; left).
    destruct (Hcond b Hb) as (nd & Hnd & Hiff). exists nd. split; [done|].
    destruct (cond nd); [tauto|done]. }
  pose proof (length_filter P L) as Hlen.
  rewrite Hsplit in Hc.
  destruct (filter P L') as [|a F'] eqn:HF'.
  - simpl. eapply advance_spec; [done..|lia].
  - assert (endof hd (a :: F') ∈ filter P L) as Hin.
    { pose proof (endof_elem a F') as He. simpl.
      assert (endof a F' ∈ filter P L') as [HP Hp]%list_elem_of_filter
        by (by rewrite HF').
      apply list_elem_of_filter. auto. }
    apply list_elem_of_split in Hin as (X & Y & HXY).
    rewrite HXY. rewrite HXY in Hc, Hyes, Hlen.
    rewrite endof_app. simpl (endof _ (_ :: Y)).
    replace (X ++ endof hd (a :: F') :: Y) with ((X ++ [endof hd (a :: F')]) ++ Y)
      in Hc by (by rewrite <- app_assoc).
    rewrite <- app_assoc in Hc. apply chain_split in Hc.
    rewrite endof_app in Hc. simpl (endof _ [_]) in Hc.
    apply Forall_app in Hyes as [_ Hyes]. apply Forall_cons in Hyes as [_ Hyes].
    rewrite length_app in Hlen. simpl in Hlen.
    eapply advance_spec; [done..|lia].
Qed.

(** ** searchNode *)

Lemma keyof_lookup m a nd : m !! a = Some nd → keyof m a = key nd.
Proof. unfold keyof. by intros ->. Qed.

Lemma valueof_lookup m a nd : m !! a = Some nd → valueof m a = value nd.
Proof. unfold valueof. by intros ->. Qed.

Section search.
Context (s : SkipList) (Ls : nat → list addr) (Hrep : represents s Ls).
Context (k : Z).

Lemma searchNode_loop_spec n :
  (n ≤ head_levels s)%nat →
  searchNode_loop (steps (mem s)) DefaultComparator k (mem s) n
    (search_pos (mem s) (head_ s) k (Ls n))
  = Some (search_pos (mem s) (head_ s) k (Ls O)).
Proof.
  induction n as [|i IH]; intros Hn; [done|]. cbn [searchNode_loop].
  unfold search_pos at 1.
  erewrite (descend_step _ _ _ _ _ (λ a, keyof (mem s) a ≤ k)
              (Ls (S i)) (Ls i)); simpl.
  - apply IH. lia.
  - apply (rep_chain _ _ Hrep). lia.
  - eapply sorted_partition; [|apply (rep_sorted_level _ _ Hrep)].
    simpl. intros a b ??. lia.
  - intros a. apply sublist_subseteq, (rep_sub _ _ Hrep).
  - intros a Ha. destruct (rep_live _ _ Hrep _ _ Ha) as [nd Hnd].
    exists nd. split; [done|]. unfold search_cond.
    rewrite DefaultComparator_le, bool_decide_eq_true.
    by rewrite (keyof_lookup _ _ _ Hnd).
  - apply (rep_fuel _ _ Hrep).
Qed.

Lemma search_pos_elem : search_pos (mem s) (head_ s) k (Ls O) ∈ head_ s :: Ls O.
Proof.
  unfold search_pos.
  pose proof (endof_elem (head_ s) (filter (λ a, keyof (mem s) a ≤ k) (Ls O)))
    as [->|[_ H]%list_elem_of_filter]%elem_of_cons; [left|by right].
Qed.

Lemma search_pos_live :
  ∃ nd, mem s !! search_pos (mem s) (head_ s) k (Ls O) = Some nd.
Proof.
  pose proof search_pos_elem as [->|H]%elem_of_cons.
  - destruct (rep_head_live _ _ Hrep) as (hn & ? & _). eauto.
  - apply (rep_live _ _ Hrep O _ H).
Qed.

Lemma searchNode_spec :
  searchNode k s =
    Some (let p := search_pos (mem s) (head_ s) k (Ls O) in
          if decide (keyof (mem s) p = k) then Some p else None).
Proof.
  unfold searchNode. rewrite (rep_cmp _ _ Hrep).
  assert (head_ s = search_pos (mem s) (head_ s) k (Ls (maxLevel_ s))) as Hhd.
  { by rewrite (rep_empty _ _ Hrep (maxLevel_ s)). }
  rewrite Hhd at 1.
  rewrite searchNode_loop_spec by apply (rep_max_levels _ _ Hrep).
  simpl. destruct search_pos_live as [nd Hnd]. rewrite Hnd. simpl.
  rewrite (keyof_lookup _ _ _ Hnd).
  destruct (Z.eqb_spec (key nd) k); [by rewrite decide_True|by rewrite decide_False].
Qed.

Lemma search_spec :
  search k s =
    Some (let p := search_pos (mem s) (head_ s) k (Ls O) in
          if decide (keyof (mem s) p = k) then valueof (mem s) p
          else ValueType_min).
Proof.
  unfold search. rewrite searchNode_spec. simpl.
  destruct search_pos_live as [nd Hnd]. case_decide; [|done].
  rewrite Hnd. simpl. by rewrite (valueof_lookup _ _ _ Hnd).
Qed.

(** When a node carries [k], the descent ends at the last such node. *)
Lemma search_pos_stored a :
  a ∈ Ls O → keyof (mem s) a = k →
  search_pos (mem s) (head_ s) k (Ls O) ∈ Ls O
  ∧ keyof (mem s) (search_pos (mem s) (head_ s) k (Ls O)) = k.
Proof.
  intros Ha Hk. unfold search_pos.
  set (F := filter (λ a, keyof (mem s) a ≤ k) (Ls O)).
  assert (a ∈ F) as HaF by (apply list_elem_of_filter; split; [lia|done]).
  assert (StronglySorted (λ a b, keyof (mem s) a ≤ keyof (mem s) b) F) as HS.
  { eapply StronglySorted_sublist; [apply sublist_filter|].
    apply (rep_sorted _ _ Hrep). }
  destruct F as [|b F'] eqn:HF; [by apply elem_of_nil in HaF|].
  destruct (endof_snoc_inv b F') as [F0 HF0]. simpl.
  assert (endof b F' ∈ F) as [Hle Hin]%list_elem_of_filter.
  { rewrite HF, HF0. apply elem_of_app. right. left. }
  split; [done|]. rewrite HF0 in HaF, HS.
  apply elem_of_app in HaF as [HaF|HaF].
  - pose proof (StronglySorted_app_1_elem_of _ _ _ a (endof b F') HS HaF) as H.
    simpl in H. specialize (H ltac:(left)). lia.
  - apply list_elem_of_singleton in HaF. by subst a.
Qed.

(** When no node carries [k], the descent ends at a node with another key,
    unless [k] is the key of the head. *)
Lemma search_pos_absent :
  (∀ a, a ∈ Ls O → keyof (mem s) a ≠ k) → k ≠ KeyType_min →
  keyof (mem s) (search_pos (mem s) (head_ s) k (Ls O)) ≠ k.
Proof.
  intros Hno Hk. pose proof search_pos_elem as [->|H]%elem_of_cons.
  - by rewrite (rep_head_key _ _ Hrep).
  - by apply Hno.
Qed.

(** The descent for the key of the head ends at the head when no node
    carries that key. *)
Lemma search_pos_min :
  k = KeyType_min → (∀ a, a ∈ Ls O → keyof (mem s) a ≠ k) →
  search_pos (mem s) (head_ s) k (Ls O) = head_ s.
Proof.
  intros -> Hno. unfold search_pos. rewrite filter_none; [done|].
  apply Forall_forall. intros a Ha.
  pose proof (rep_range _ _ Hrep a Ha) as [? _]. specialize (Hno a Ha). lia.
Qed.
End search.

(** ** The observers on a well-formed state *)

Lemma level_nodes_rep s Ls i :
  represents s Ls → (i < head_levels s)%nat → level_nodes s i = Some (Ls i).
Proof.
  intros Hrep Hi. unfold level_nodes.
  destruct (rep_chain _ _ Hrep i Hi) as (_ & z & -> & Hs).
  change (nodes_from (steps (mem s)) (mem s) i z = Some (Ls i)).
  apply nodes_from_seg; [done|]. pose proof (rep_fuel _ _ Hrep i). lia.
Qed.

Lemma mapM_entry s (l : list addr) :
  (∀ a, a ∈ l → is_Some (mem s !! a)) →
  mapM (entry s) l = Some ((λ a, (keyof (mem s) a, valueof (mem s) a)) <$> l).
Proof.
  induction l as [|a l IH]; intros Hl; [done|].
  destruct (Hl a) as [nd Hnd]; [left|].
  simpl. rewrite IH by (intros b Hb; apply Hl; by right).
  unfold entry, keyof, valueof. rewrite Hnd. done.
Qed.

Lemma level_entries_rep s Ls i :
  represents s Ls → (i < head_levels s)%nat →
  level_entries s i
  = Some ((λ a, (keyof (mem s) a, valueof (mem s) a)) <$> Ls i).
Proof.
  intros Hrep Hi. unfold level_entries.
  rewrite (level_nodes_rep _ _ _ Hrep Hi). simpl.
  apply mapM_entry. intros a. apply (rep_live _ _ Hrep).
Qed.

Lemma level_entries_out s Ls i :
  represents s Ls → (head_levels s ≤ i)%nat → level_entries s i = None.
Proof.
  intros Hrep Hi. destruct (rep_head_live _ _ Hrep) as (hn & Hhn & _ & Hlen).
  unfold level_entries, level_nodes, link. rewrite Hhn. simpl.
  rewrite lookup_ge_None_2; [done|lia].
Qed.

Lemma entries_rep s Ls :
  represents s Ls → (0 < head_levels s)%nat →
  entries s = Some ((λ a, (keyof (mem s) a, valueof (mem s) a)) <$> Ls O).
Proof. intros Hrep H0. by apply level_entries_rep. Qed.

Lemma stored_rep s Ls k :
  represents s Ls → stored s k ↔ ∃ a, a ∈ Ls O ∧ keyof (mem s) a = k.
Proof.
  intros Hrep. unfold stored.
  destruct (decide (0 < head_levels s)%nat) as [H0|H0].
  - rewrite (entries_rep _ _ Hrep H0). split.
    + intros (es & [= <-] & Hk). rewrite <- list_fmap_compose in Hk.
      apply list_elem_of_fmap in Hk as (a & -> & Ha). eauto.
    + intros (a & Ha & <-). eexists. split; [done|].
      rewrite <- list_fmap_compose. apply list_elem_of_fmap. eauto.
  - unfold entries. rewrite (level_entries_out _ _ _ Hrep) by lia. split.
    + by intros (es & ? & _).
    + intros (a & Ha & _). destruct H0. by eapply rep_level0.
Qed.

(** ** Changing memory under a well-formed state *)

Lemma StronglySorted_ext {A} (R R' : relation A) (l : list A) :
  (∀ a b, a ∈ l → b ∈ l → R a b → R' a b) →
  StronglySorted R l → StronglySorted R' l.
Proof.
  intros HR Hs. induction Hs as [|a l Hs IH Hall]; constructor.
  - apply IH. intros b c Hb Hc. apply HR; by right.
  - apply Forall_forall. intros b Hb. apply HR; [left|by right|].
    by eapply Forall_forall in Hall.
Qed.

(** A change of memory that keeps the links and the keys of the nodes of a
    well-formed state keeps the state well-formed. *)
Lemma represents_frame s s' Ls :
  represents s Ls →
  maxLevel_ s' = maxLevel_ s → head_ s' = head_ s →
  comparator_ s' = comparator_ s →
  (∀ a i, a ∈ head_ s :: Ls O → link (mem s') a i = link (mem s) a i) →
  (∀ a, a ∈ head_ s :: Ls O → keyof (mem s') a = keyof (mem s) a) →
  head_levels s' = head_levels s →
  (∀ a, is_Some (mem s' !! a) ↔ is_Some (mem s !! a)) →
  represents s' Ls.
Proof.
  intros Hrep Hml Hhd Hcmp Hlink Hkey Hlev Hdom.
  assert (is_Some (mem s' !! head_ s)) as Hlive.
  { apply Hdom, (rep_head _ _ Hrep). }
  split; rewrite ?Hml, ?Hhd, ?Hcmp, ?Hlev; try apply Hrep.
  - rewrite Hkey by left. apply Hrep.
  - done.
  - intros i Hi. unfold chain. eapply seg_ext; [|by apply (rep_chain _ _ Hrep)].
    intros a Ha. apply Hlink.
    eapply (sublist_subseteq (_ :: _)); [|done].
    apply sublist_skip, (rep_sub0 _ _ Hrep).
  - eapply StronglySorted_ext; [|apply (rep_sorted _ _ Hrep)].
    simpl. intros a b Ha Hb. rewrite !Hkey by (by right). done.
  - intros a Ha. rewrite Hkey by (by right). by apply Hrep.
  - intros a Ha. apply (rep_dom _ _ Hrep). by apply Hdom.
Qed.

(** ** update *)

Lemma update_spec s Ls k v :
  represents s Ls →
  let p := search_pos (mem s) (head_ s) k (Ls O) in
  if decide (keyof (mem s) p = k) then
    ∃ nd, mem s !! p = Some nd ∧
      update k v s
      = Some (0, mkSkipList (maxLevel_ s) (head_ s) (comparator_ s)
                   (<[p := mkNode (key nd) v (level nd)]> (mem s)))
  else update k v s = Some (1, s).
Proof.
  intros Hrep p. unfold update. rewrite (searchNode_spec _ _ Hrep). simpl.
  fold p. case_decide; [|done].
  destruct (search_pos_live _ _ Hrep k) as [nd Hnd]. fold p in Hnd.
  exists nd. split; [done|]. unfold set_value. rewrite Hnd. done.
Qed.

Lemma set_value_link m p nd v a i :
  m !! p = Some nd →
  link (<[p := mkNode (key nd) v (level nd)]> m) a i = link m a i.
Proof.
  intros Hp. unfold link. destruct (decide (p = a)) as [->|Hne].
  - by rewrite lookup_insert_eq, Hp.
  - by rewrite lookup_insert_ne.
Qed.

Lemma set_value_keyof m p nd v a :
  m !! p = Some nd →
  keyof (<[p := mkNode (key nd) v (level nd)]> m) a = keyof m a.
Proof.
  intros Hp. unfold keyof. destruct (decide (p = a)) as [->|Hne].
  - by rewrite lookup_insert_eq, Hp.
  - by rewrite lookup_insert_ne.
Qed.

Lemma set_value_valueof m p nd v a :
  m !! p = Some nd →
  valueof (<[p := mkNode (key nd) v (level nd)]> m) a
  = if decide (a = p) then v else valueof m a.
Proof.
  intros Hp. unfold valueof. destruct (decide (a = p)) as [->|Hne].
  - by rewrite lookup_insert_eq.
  - by rewrite lookup_insert_ne.
Qed.

Lemma update_represents s Ls k v r s' :
  represents s Ls → update k v s = Some (r, s') → represents s' Ls.
Proof.
  intros Hrep Hup. pose proof (update_spec s Ls k v Hrep) as Hspec.
  simpl in Hspec. case_decide.
  - destruct Hspec as (nd & Hnd & Heq). rewrite Heq in Hup.
    injection Hup as <- <-.
    eapply represents_frame; [done..| | | |]; simpl.
    + intros a i _. by apply set_value_link.
    + intros a _. by apply set_value_keyof.
    + unfold head_levels. simpl.
      destruct (decide (search_pos (mem s) (head_ s) k (Ls O) = head_ s))
        as [Heq'|Hne].
      * rewrite Heq', lookup_insert_eq. rewrite Heq' in Hnd. by rewrite Hnd.
      * by rewrite lookup_insert_ne.
    + intros a.
      destruct (decide (search_pos (mem s) (head_ s) k (Ls O) = a))
        as [<-|Hne].
      * rewrite lookup_insert_eq, Hnd. split; eauto.
      * by rewrite lookup_insert_ne.
  - rewrite Hspec in Hup. by injection Hup as <- <-.
Qed.

(** ** Relinking a chain *)

Lemma endof_not_head p a l : NoDup (p :: a :: l) → p ≠ endof a l.
Proof.
  intros [Hp _]%NoDup_cons Heq. apply Hp. rewrite Heq. apply endof_elem.
Qed.

(** Rewriting the link of the last node of a segment redirects its end. *)
Lemma seg_relink m m' i p A z z' :
  seg m i (Some p) (p :: A) z →
  NoDup (p :: A) →
  (∀ a, a ∈ p :: A → a ≠ endof p A → link m' a i = link m a i) →
  link m' (endof p A) i = Some z' →
  seg m' i (Some p) (p :: A) z'.
Proof.
  revert p. induction A as [|a A IH]; intros p Hs Hnd Hsame Hend.
  - simpl in *. eauto.
  - destruct Hs as (_ & w & Hw & Hs). pose proof Hs as (-> & _).
    split; [done|]. exists (Some a). split.
    + rewrite Hsame; [done|left|]. simpl. by apply endof_not_head.
    + apply NoDup_cons in Hnd as [_ Hnd]. apply IH; [done..| |done].
      intros b Hb Hne. apply Hsame; [by right|done].
Qed.

(** Unlinking the node after the first part of a chain. *)
Lemma chain_unlink m m1 i hd F q G :
  chain m i hd (F ++ q :: G) →
  NoDup (hd :: F ++ q :: G) →
  ∃ nn, link m q i = Some nn ∧
    (set_link m (endof hd F) i nn = Some m1 → chain m1 i hd (F ++ G)).
Proof.
  unfold chain. rewrite !app_comm_cons. intros (w & HF & HG)%seg_app Hnd.
  destruct HG as (-> & nn & Hq & HG). exists nn. split; [done|]. intros Hset.
  apply NoDup_app in Hnd as (HndF & Hdisj & HndG).
  apply seg_app. exists nn. split.
  - eapply seg_relink; [exact HF|done| |by eapply set_link_same].
    intros a _ Hne. eapply set_link_other; [done|by left].
  - eapply seg_ext; [|exact HG]. intros a Ha.
    eapply set_link_other; [done|]. left. intros ->.
    eapply Hdisj; [apply endof_elem|by right].
Qed.

(** Linking a new node after the first part of a chain. *)
Lemma chain_link m m1 m2 i hd A B node z :
  chain m i hd (A ++ B) →
  NoDup (hd :: A ++ B) → node ∉ hd :: A ++ B →
  link m (endof hd A) i = Some z →
  set_link m node i z = Some m1 →
  set_link m1 (endof hd A) i (Some node) = Some m2 →
  chain m2 i hd (A ++ node :: B).
Proof.
  unfold chain. rewrite !app_comm_cons.
  intros (w & HA & HB)%seg_app Hnd Hnode Hz H1 H2.
  pose proof (seg_endof _ _ _ _ _ HA) as Hw. rewrite Hz in Hw.
  injection Hw as <-.
  apply NoDup_app in Hnd as (HndA & Hdisj & HndB).
  assert (node ≠ endof hd A) as Hne.
  { intros ->. apply Hnode. apply elem_of_app. left. apply endof_elem. }
  apply seg_app. exists (Some node). split.
  - eapply seg_relink; [exact HA|done| |by eapply set_link_same].
    intros a Ha Hae. rewrite (set_link_other _ _ _ _ _ a i H2) by (by left).
    eapply set_link_other; [done|]. left. intros ->.
    apply Hnode. apply elem_of_app. by left.
  - split; [done|]. exists z. split.
    + rewrite (set_link_other _ _ _ _ _ node i H2) by (by left).
      by eapply set_link_same.
    + eapply seg_ext; [|exact HB]. intros a Ha.
      rewrite (set_link_other _ _ _ _ _ a i H2).
      * eapply set_link_other; [done|]. left. intros ->.
        apply Hnode. apply elem_of_app. by right.
      * left. intros ->. eapply Hdisj; [apply endof_elem|done].
Qed.

(** ** Removing the first match of a list *)

Lemma del_first_none c l : Forall (λ a, c a = false) l → del_first c l = l.
Proof.
  induction 1 as [|a l Ha Hl IH]; [done|]. simpl. rewrite Ha. by f_equal.
Qed.

Lemma del_first_app c F q G :
  Forall (λ a, c a = false) F → c q = true →
  del_first c (F ++ q :: G) = F ++ G.
Proof.
  induction 1 as [|a l Ha Hl IH]; intros Hq; simpl.
  - by rewrite Hq.
  - rewrite Ha. f_equal. by apply IH.
Qed.

Lemma find_app_none c F (G : list addr) :
  Forall (λ a, c a = false) F → List.find c (F ++ G) = List.find c G.
Proof. induction 1 as [|a l Ha Hl IH]; [done|]. simpl. by rewrite Ha. Qed.

Lemma find_none c (l : list addr) :
  Forall (λ a, c a = false) l → List.find c l = None.
Proof. induction 1 as [|a l Ha Hl IH]; [done|]. simpl. by rewrite Ha. Qed.

Lemma find_Some_elem c (l : list addr) x :
  List.find c l = Some x → x ∈ l ∧ c x = true.
Proof.
  induction l as [|a l IH]; [done|]. simpl. destruct (c a) eqn:Ha.
  - intros [= <-]. split; [left|done].
  - intros [? ?]%IH. split; [by right|done].
Qed.

Lemma find_sublist_none c (l1 l2 : list addr) :
  l1 `sublist_of` l2 → List.find c l2 = None → List.find c l1 = None.
Proof.
  induction 1 as [|x l1 l2 Hs IH|x l1 l2 Hs IH]; simpl; [done|..];
    destruct (c x); (done || auto).
Qed.

(** The first match of a list without repetition is not in what
    [del_first] leaves of a sublist. *)
Lemma del_first_not_elem c (l1 l2 : list addr) x :
  l1 `sublist_of` l2 → NoDup l2 → List.find c l2 = Some x →
  x ∉ del_first c l1.
Proof.
  induction 1 as [|y l1 l2 Hs IH|y l1 l2 Hs IH]; simpl.
  - intros _ _. apply not_elem_of_nil.
  - intros [Hy Hnd]%NoDup_cons. destruct (c y) eqn:Hcy.
    + intros [= <-] Hin. apply Hy. by eapply sublist_subseteq.
    + intros Hf. apply not_elem_of_cons. split; [|by apply IH].
      intros ->. apply find_Some_elem in Hf as [_ ?]. congruence.
  - intros [Hy Hnd]%NoDup_cons. destruct (c y) eqn:Hcy.
    + intros [= <-] Hin. apply Hy.
      eapply sublist_subseteq; [|done]. etrans; [apply del_first_sublist|done].
    + by apply IH.
Qed.

Lemma del_first_elem c (l : list addr) x a :
  List.find c l = Some x → a ∈ l → a ≠ x → a ∈ del_first c l.
Proof.
  induction l as [|b l IH]; simpl; [done|]. destruct (c b) eqn:Hb.
  - intros [= <-] [->|Ha]%elem_of_cons Hne; done.
  - intros Hf [->|Ha]%elem_of_cons Hne; [left|right; by apply IH].
Qed.

Lemma shape_live m m' a :
  shape m' a = shape m a → is_Some (m' !! a) → is_Some (m !! a).
Proof.
  unfold shape. intros Hsh [nd Hnd]. rewrite Hnd in Hsh.
  destruct (m !! a); [eauto|done].
Qed.

(** ** remove *)

Section remove.
Context (s : SkipList) (Ls : nat → list addr) (Hrep : represents s Ls).
Context (k : Z).

Let P (a : addr) : Prop := keyof (mem s) a < k.
Let c (a : addr) : bool := bool_decide (keyof (mem s) a = k).

Lemma remove_level i :
  Ls i = filter P (Ls i) ++ filter (λ a, ¬ P a) (Ls i)
  ∧ Forall (λ a, c a = false) (filter P (Ls i))
  ∧ match filter (λ a, ¬ P a) (Ls i) with
    | [] => True
    | q :: G' =>
        keyof (mem s) q ≠ k →
        Forall (λ a, c a = false) (filter (λ a, ¬ P a) (Ls i))
    end.
Proof.
  pose proof (rep_sorted_level _ _ Hrep i) as Hsort. split; [|split].
  - eapply sorted_partition; [|exact Hsort]. unfold P. simpl. intros; lia.
  - apply Forall_forall. intros a [Ha _]%list_elem_of_filter.
    unfold c, P in *. apply bool_decide_eq_false. lia.
  - destruct (filter (λ a, ¬ P a) (Ls i)) as [|q G'] eqn:HG; [done|].
    intros Hq.
    assert (StronglySorted (λ a b, keyof (mem s) a ≤ keyof (mem s) b)
              (q :: G')) as HS.
    { rewrite <- HG. eapply StronglySorted_sublist; [apply sublist_filter|done]. }
    assert (q ∈ filter (λ a, ¬ P a) (Ls i)) as [HPq _]%list_elem_of_filter
      by (rewrite HG; left).
    apply StronglySorted_inv in HS as [_ Hall].
    unfold c, P in *. constructor.
    + apply bool_decide_eq_false. lia.
    + eapply Forall_impl; [exact Hall|]. simpl. intros b Hb.
      apply bool_decide_eq_false. lia.
Qed.

Lemma remove_loop_spec n : ∀ m del val,
  (n ≤ head_levels s)%nat →
  (∀ a, shape m a = shape (mem s) a) →
  (∀ a j, (j < n)%nat → link m a j = link (mem s) a j) →
  ∃ m' del' val',
    remove_loop (steps (mem s)) DefaultComparator k m n
      (endof (head_ s) (filter P (Ls n))) del val = Some (m', del', val')
    ∧ (∀ a, shape m' a = shape (mem s) a)
    ∧ (∀ a j, (n ≤ j)%nat → link m' a j = link m a j)
    ∧ (∀ j, (j < n)%nat → chain m' j (head_ s) (del_first c (Ls j)))
    ∧ (∀ x, (0 < n)%nat → List.find c (Ls O) = Some x →
         del' = Some x ∧ val' = valueof (mem s) x)
    ∧ (List.find c (Ls O) = None → m' = m ∧ del' = del ∧ val' = val)
    ∧ (n = O → m' = m ∧ del' = del ∧ val' = val).
Proof.
  induction n as [|i IH]; intros m del val Hn Hshape Hlow.
  { exists m, del, val. repeat split; (done || lia). }
  destruct (remove_level i) as (Hsplit & HF & HG).
  set (F := filter P (Ls i)) in *.
  set (G := filter (λ a, ¬ P a) (Ls i)) in *.
  assert (chain m i (head_ s) (Ls i)) as Hchain.
  { eapply seg_ext; [|apply (rep_chain _ _ Hrep); lia].
    intros a _. apply Hlow. lia. }
  assert (∀ a, a ∈ Ls i → ∃ nd, m !! a = Some nd
            ∧ keyof (mem s) a = key nd ∧ valueof (mem s) a = value nd)
    as Hlive.
  { intros a Ha. destruct (rep_live _ _ Hrep _ _ Ha) as [nd0 Hnd0].
    pose proof (Hshape a) as Hsh. unfold shape in Hsh. rewrite Hnd0 in Hsh.
    destruct (m !! a) as [nd|]; [|done]. exists nd. split; [done|].
    rewrite (keyof_lookup _ _ _ Hnd0), (valueof_lookup _ _ _ Hnd0).
    simpl in Hsh. split; congruence. }
  assert (advance (steps (mem s)) (remove_cond DefaultComparator k) m i
            (endof (head_ s) (filter P (Ls (S i))))
          = Some (endof (head_ s) F)) as Hadv.
  { apply (descend_step _ _ _ _ _ P (Ls (S i)) (Ls i)); [done..| | |].
    - intros a. apply sublist_subseteq, (rep_sub _ _ Hrep).
    - intros a Ha. destruct (Hlive a Ha) as (nd & Hnd & Hk & _).
      exists nd. split; [done|]. unfold remove_cond, P.
      rewrite DefaultComparator_lt, bool_decide_eq_true. by rewrite Hk.
    - apply (rep_fuel _ _ Hrep). }
  cbn [remove_loop]. rewrite Hadv. cbn [mbind option_bind].
  pose proof Hchain as Hc2. rewrite Hsplit in Hc2.
  apply chain_split in Hc2. destruct Hc2 as (_ & z & Hz & Hseg).
  rewrite Hz. cbn [mbind option_bind].
  (* the case where level [i] is left as it is *)
  assert (Forall (λ a, c a = false) (Ls i) →
    ∃ m' del' val',
      remove_loop (steps (mem s)) DefaultComparator k m i
        (endof (head_ s) F) del val = Some (m', del', val')
      ∧ (∀ a, shape m' a = shape (mem s) a)
      ∧ (∀ a j, (S i ≤ j)%nat → link m' a j = link m a j)
      ∧ (∀ j, (j < S i)%nat → chain m' j (head_ s) (del_first c (Ls j)))
      ∧ (∀ x, (0 < S i)%nat → List.find c (Ls O) = Some x →
           del' = Some x ∧ val' = valueof (mem s) x)
      ∧ (List.find c (Ls O) = None → m' = m ∧ del' = del ∧ val' = val)
      ∧ (S i = O → m' = m ∧ del' = del ∧ val' = val)) as Hskip.
  { intros Hnone.
    destruct (IH m del val) as (m' & del' & val' & Hrun & Hsh & Hfr & Hch
                                & HA & HB & HC); [lia|done| |].
    { intros a j Hj. apply Hlow. lia. }
    exists m', del', val'. split; [done|]. split; [done|].
    split; [intros a j Hj; apply Hfr; lia|].
    split; [|split; [|split; [done|lia]]].
    - intros j Hj. destruct (decide (j = i)) as [->|Hne]; [|apply Hch; lia].
      rewrite del_first_none by done.
      eapply seg_ext; [|exact Hchain]. intros a _. apply Hfr. lia.
    - intros x _ Hx. destruct i as [|i'].
      + rewrite find_none in Hx by done. done.
      + apply HA; [lia|done]. }
  destruct G as [|q G'] eqn:HGeq.
  - simpl in Hseg. subst z. apply Hskip.
    rewrite Hsplit. apply Forall_app. split; [done|constructor].
  - destruct Hseg as (-> & _).
    assert (q ∈ Ls i) as Hq.
    { rewrite Hsplit. apply elem_of_app. right. left. }
    destruct (Hlive q Hq) as (nq & Hnq & Hkq & Hvq).
    rewrite Hnq. cbn [mbind option_bind].
    rewrite DefaultComparator_eq. case_bool_decide as Hkey.
    + (* the node after [p] carries the key: it is unlinked *)
      assert (NoDup (head_ s :: F ++ q :: G')) as Hnd.
      { rewrite <- Hsplit. apply (rep_nodup_level _ _ Hrep). }
      rewrite Hsplit in Hchain.
      destruct (link_shape _ _ _ _ Hz) as (kv & h & Hshp & Hih).
      assert (c q = true) as Hcq.
      { unfold c. apply bool_decide_eq_true. congruence. }
      destruct (chain_unlink m m i (head_ s) F q G' Hchain Hnd)
        as (nn & Hnn & _).
      pose proof Hnn as Hnn'. unfold link in Hnn'. rewrite Hnq in Hnn'.
      simpl in Hnn'. rewrite Hnn'. cbn [mbind option_bind].
      destruct (set_link_Some m (endof (head_ s) F) i nn kv h Hshp Hih)
        as [m1 Hm1].
      rewrite Hm1. cbn [mbind option_bind].
      destruct (chain_unlink m m1 i (head_ s) F q G' Hchain Hnd)
        as (nn2 & Hnn2 & Hch1).
      rewrite Hnn in Hnn2. injection Hnn2 as <-. specialize (Hch1 Hm1).
      destruct (IH m1 (Some q) (value nq)) as
        (m' & del' & val' & Hrun & Hsh & Hfr & Hch & HA & HB & HC); [lia| | |].
      { intros a. rewrite (set_link_shape _ _ _ _ _ a Hm1). apply Hshape. }
      { intros a j Hj. rewrite (set_link_other _ _ _ _ _ a j Hm1) by (right; lia).
        apply Hlow. lia. }
      assert (List.find c (Ls i) = Some q) as Hfind.
      { rewrite Hsplit, find_app_none by done. simpl. by rewrite Hcq. }
      exists m', del', val'. split; [done|]. split; [done|].
      split; [|split; [|split; [|split; [|lia]]]].
      * intros a j Hj. rewrite Hfr by lia.
        apply (set_link_other _ _ _ _ _ a j Hm1). right. lia.
      * intros j Hj. destruct (decide (j = i)) as [->|Hne]; [|apply Hch; lia].
        rewrite Hsplit, del_first_app by done.
        eapply seg_ext; [|exact Hch1]. intros a _. apply Hfr. lia.
      * intros x _ Hx. destruct i as [|i'].
        -- rewrite Hfind in Hx. injection Hx as <-.
           destruct HC as (_ & -> & ->); [done|]. done.
        -- apply HA; [lia|done].
      * intros Hx.
        rewrite (find_sublist_none _ _ _ (rep_sub0 _ _ Hrep i) Hx) in Hfind.
        done.
    + apply Hskip. rewrite Hsplit. apply Forall_app. split; [done|].
      apply HG. congruence.
Qed.
End remove.

Lemma head_levels_shape s s' :
  head_ s' = head_ s → shape (mem s') (head_ s) = shape (mem s) (head_ s) →
  head_levels s' = head_levels s.
Proof.
  unfold head_levels, shape. intros ->.
  destruct (mem s' !! head_ s), (mem s !! head_ s); simpl; congruence.
Qed.

(** A state whose chains are sublists of the chains of a well-formed state,
    with the nodes they keep unchanged, is well-formed. *)
Lemma represents_shrink s s' Ls Ls' :
  represents s Ls →
  maxLevel_ s' = maxLevel_ s → head_ s' = head_ s →
  comparator_ s' = comparator_ s →
  (∀ j, Ls' j `sublist_of` Ls j) →
  (∀ j, Ls' (S j) `sublist_of` Ls' j) →
  (∀ a, a ∈ head_ s :: Ls' O → shape (mem s') a = shape (mem s) a) →
  (∀ j, (j < head_levels s)%nat → chain (mem s') j (head_ s) (Ls' j)) →
  (∀ a, is_Some (mem s' !! a) → a ∈ head_ s :: Ls' O) →
  represents s' Ls'.
Proof.
  intros Hrep Hml Hhd Hcmp Hsub Hsub' Hshape Hchain Hdom.
  assert (head_levels s' = head_levels s) as Hlev.
  { apply head_levels_shape; [done|]. apply Hshape. left. }
  split; rewrite ?Hml, ?Hhd, ?Hcmp, ?Hlev; try apply Hrep.
  - rewrite (shape_keyof (mem s) (mem s')) by (apply Hshape; left). apply Hrep.
  - pose proof (Hshape (head_ s) ltac:(left)) as Hsh.
    destruct (rep_head _ _ Hrep) as [hn Hhn]. unfold shape in Hsh.
    rewrite Hhn in Hsh. destruct (mem s' !! head_ s); [eauto|done].
  - done.
  - intros i Hi. pose proof (Hsub i) as H.
    rewrite (rep_empty _ _ Hrep i Hi) in H. by apply sublist_nil_r in H.
  - done.
  - eapply sublist_NoDup; [apply (rep_nodup _ _ Hrep)|]. by apply sublist_skip.
  - eapply StronglySorted_ext;
      [|eapply StronglySorted_sublist; [apply Hsub|apply (rep_sorted _ _ Hrep)]].
    simpl. intros a b Ha Hb.
    rewrite !(shape_keyof (mem s) (mem s')) by (apply Hshape; by right). done.
  - intros a Ha. rewrite (shape_keyof (mem s) (mem s')) by (apply Hshape; by right).
    apply (rep_range _ _ Hrep). eapply sublist_subseteq; [apply Hsub|done].
  - done.
Qed.

Lemma delete_link (m : heap) x a i : a ≠ x → link (delete x m) a i = link m a i.
Proof. intros Hne. unfold link. by rewrite lookup_delete_ne. Qed.

Lemma delete_shape (m : heap) x a : a ≠ x → shape (delete x m) a = shape m a.
Proof. intros Hne. unfold shape. by rewrite lookup_delete_ne. Qed.

Lemma SkipList_eta s :
  mkSkipList (maxLevel_ s) (head_ s) (comparator_ s) (mem s) = s.
Proof. by destruct s. Qed.

(** [remove(k)] on a well-formed state: the first node of level 0 that
    carries [k] is unlinked on every level and freed; without such a node
    nothing is written. *)
Lemma remove_spec s Ls k :
  represents s Ls →
  let c := λ a, bool_decide (keyof (mem s) a = k) in
  match List.find c (Ls O) with
  | Some x =>
      ∃ s', remove k s = Some (valueof (mem s) x, s')
        ∧ represents s' (λ j, del_first c (Ls j))
        ∧ maxLevel_ s' = maxLevel_ s ∧ head_ s' = head_ s
        ∧ mem s' !! x = None
        ∧ (∀ a, a ≠ x → shape (mem s') a = shape (mem s) a)
  | None => remove k s = Some (-1, s)
  end.
Proof.
  intros Hrep c. unfold remove. rewrite (rep_cmp _ _ Hrep).
  destruct (remove_loop_spec s Ls Hrep k (maxLevel_ s) (mem s) None (-1))
    as (m' & del' & val' & Hrun & Hsh & Hfr & Hch & HA & HB & _);
    [apply (rep_max_levels _ _ Hrep)|done..|].
  rewrite (rep_empty _ _ Hrep (maxLevel_ s)) in Hrun by done.
  simpl in Hrun. rewrite Hrun. cbn [mbind option_bind].
  fold c in HA, HB, Hch.
  destruct (List.find c (Ls O)) as [x|] eqn:Hfind.
  - assert (0 < maxLevel_ s)%nat as Hpos.
    { destruct (decide (0 < maxLevel_ s)%nat); [done|].
      rewrite (rep_empty _ _ Hrep O) in Hfind by lia. done. }
    destruct (HA x Hpos eq_refl) as (-> & ->).
    apply find_Some_elem in Hfind as Hx. destruct Hx as [Hx Hcx].
    destruct (rep_live _ _ Hrep _ _ Hx) as [nx Hnx].
    assert (is_Some (m' !! x)) as [nx' Hnx'].
    { pose proof (Hsh x) as H. unfold shape in H. rewrite Hnx in H.
      destruct (m' !! x); [eauto|done]. }
    unfold free. rewrite Hnx'. cbn [mbind option_bind].
    eexists. split; [done|].
    assert (x ≠ head_ s) as Hxhd.
    { intros ->. by apply (NoDup_cons_1_1 _ _ (rep_nodup _ _ Hrep)). }
    split; [|simpl; split; [done|split; [done|split]]].
    + eapply represents_shrink;
        [exact Hrep|done|done|by rewrite (rep_cmp _ _ Hrep)| | | | |]; simpl.
      * intros j. apply del_first_sublist.
      * intros j. apply del_first_mono, (rep_sub _ _ Hrep).
      * intros a Ha. rewrite delete_shape; [apply Hsh|].
        intros ->. apply elem_of_cons in Ha as [?|Ha]; [done|].
        by eapply (del_first_not_elem c (Ls O) (Ls O));
          [|apply (NoDup_cons_1_2 _ _ (rep_nodup _ _ Hrep))|..].
      * intros j Hj.
        assert (chain m' j (head_ s) (del_first c (Ls j))) as Hcj.
        { destruct (decide (j < maxLevel_ s)%nat) as [Hlt|Hge]; [by apply Hch|].
          rewrite (rep_empty _ _ Hrep j) by lia. simpl.
          eapply seg_ext; [|pose proof (rep_chain _ _ Hrep j Hj) as H;
            rewrite (rep_empty _ _ Hrep j) in H by lia; exact H].
          intros a _. apply Hfr. lia. }
        eapply seg_ext; [|exact Hcj]. intros a Ha. apply delete_link.
        intros ->. apply elem_of_cons in Ha as [?|Ha]; [done|].
        by eapply (del_first_not_elem c (Ls j) (Ls O));
          [apply (rep_sub0 _ _ Hrep)
          |apply (NoDup_cons_1_2 _ _ (rep_nodup _ _ Hrep))|..].
      * intros a Ha. destruct (decide (a = x)) as [->|Hax].
        { rewrite lookup_delete_eq in Ha. by destruct Ha. }
        rewrite lookup_delete_ne in Ha by done.
        apply (shape_live (mem s)) in Ha; [|apply Hsh].
        apply (rep_dom _ _ Hrep) in Ha as [->|Ha]%elem_of_cons; [left|].
        right. by apply (del_first_elem c _ x).
    + apply lookup_delete_eq.
    + intros a Ha. rewrite delete_shape by done. apply Hsh.
  - destruct (HB eq_refl) as (-> & -> & ->). simpl.
    rewrite <- (rep_cmp _ _ Hrep). by rewrite SkipList_eta.
Qed.

(** ** clear *)

Lemma represents_eq s Ls Ls' :
  (∀ j, Ls j = Ls' j) → represents s Ls → represents s Ls'.
Proof.
  intros Heq Hrep. split; try apply Hrep.
  - intros i Hi. rewrite <- Heq. by apply Hrep.
  - intros i Hi. rewrite <- Heq. by apply Hrep.
  - intros i. rewrite <- !Heq. apply Hrep.
  - rewrite <- Heq. apply Hrep.
  - rewrite <- Heq. apply Hrep.
  - intros a. rewrite <- Heq. apply Hrep.
  - intros a. rewrite <- Heq. apply Hrep.
Qed.

Section clear.
Context (s : SkipList) (Ls : nat → list addr) (Hrep : represents s Ls).

Let c (a : addr) : bool := true.

(** The inner loop advances the head past the first node of every level. *)
Lemma clear_levels_spec n : ∀ i m,
  (i + n ≤ head_levels s)%nat →
  (∀ a, shape m a = shape (mem s) a) →
  (∀ a j, (i ≤ j)%nat → link m a j = link (mem s) a j) →
  ∃ m', clear_levels (head_ s) m n i = Some m'
    ∧ (∀ a, shape m' a = shape (mem s) a)
    ∧ (∀ a j, (j < i ∨ i + n ≤ j)%nat → link m' a j = link m a j)
    ∧ (∀ j, (i ≤ j < i + n)%nat → chain m' j (head_ s) (del_first c (Ls j))).
Proof.
  induction n as [|n IH]; intros i m Hn Hshape Hup.
  { exists m. repeat split; (done || lia). }
  assert (chain m i (head_ s) (Ls i)) as Hchain.
  { eapply seg_ext; [|apply (rep_chain _ _ Hrep); lia].
    intros a _. apply Hup. lia. }
  assert (∃ nx m1, link m (head_ s) i = Some nx
            ∧ match nx with
              | Some q => link m q i ≫= λ nn, set_link m (head_ s) i nn
              | None => Some m
              end = Some m1
            ∧ (∀ a, shape m1 a = shape (mem s) a)
            ∧ (∀ a j, j ≠ i → link m1 a j = link m a j)
            ∧ chain m1 i (head_ s) (del_first c (Ls i)))
    as (nx & m1 & Hnx & Hm1 & Hsh1 & Hfr1 & Hch1).
  { destruct (Ls i) as [|q rest] eqn:HL.
    - exists None, m. destruct Hchain as (_ & z & Hz & ->).
      repeat split; try done. exists None. done.
    - pose proof Hchain as (_ & z & Hz & -> & _).
      destruct (link_shape _ _ _ _ Hz) as (kv & h & Hshp & Hih).
      assert (NoDup (head_ s :: [] ++ q :: rest)) as Hnd.
      { simpl. rewrite <- HL. apply (rep_nodup_level _ _ Hrep). }
      destruct (chain_unlink m m i (head_ s) [] q rest Hchain Hnd)
        as (nn & Hnn & _).
      destruct (set_link_Some m (head_ s) i nn kv h Hshp Hih) as [m1 Hm1].
      destruct (chain_unlink m m1 i (head_ s) [] q rest Hchain Hnd)
        as (nn2 & Hnn2 & Hch1).
      rewrite Hnn in Hnn2. injection Hnn2 as <-.
      exists (Some q), m1. rewrite Hnn. simpl.
      split; [done|]. split; [done|]. split; [|split].
      + intros a. rewrite (set_link_shape _ _ _ _ _ a Hm1). apply Hshape.
      + intros a j Hj. apply (set_link_other _ _ _ _ _ a j Hm1). by right.
      + by apply Hch1. }
  destruct (IH (S i) m1) as (m' & Hrun & Hsh & Hfr & Hch); [lia|done| |].
  { intros a j Hj. rewrite Hfr1 by lia. apply Hup. lia. }
  exists m'. cbn [clear_levels]. rewrite Hnx. cbn [mbind option_bind].
  rewrite Hm1. cbn [mbind option_bind].
  split; [done|]. split; [done|]. split.
  - intros a j Hj. rewrite Hfr by lia. apply Hfr1. lia.
  - intros j Hj. destruct (decide (j = i)) as [->|Hne]; [|apply Hch; lia].
    eapply seg_ext; [|exact Hch1]. intros a _. apply Hfr. lia.
Qed.

(** One round of the outer loop. *)
Lemma clear_round x rest :
  Ls O = x :: rest →
  ∃ m1 m2, clear_levels (head_ s) (mem s) (maxLevel_ s) 0 = Some m1
    ∧ free m1 x = Some m2
    ∧ represents (mkSkipList (maxLevel_ s) (head_ s) (comparator_ s) m2)
        (λ j, del_first c (Ls j))
    ∧ shape m2 (head_ s) = shape (mem s) (head_ s).
Proof.
  intros HL.
  destruct (clear_levels_spec (maxLevel_ s) 0 (mem s))
    as (m1 & Hrun & Hsh & Hfr & Hch);
    [apply (rep_max_levels _ _ Hrep)|done..|].
  assert (x ∈ Ls O) as Hx by (rewrite HL; left).
  assert (List.find c (Ls O) = Some x) as Hfind by (by rewrite HL).
  destruct (rep_live _ _ Hrep _ _ Hx) as [nx Hnx].
  assert (is_Some (m1 !! x)) as [nx' Hnx'].
  { pose proof (Hsh x) as H. unfold shape in H. rewrite Hnx in H.
    destruct (m1 !! x); [eauto|done]. }
  assert (x ≠ head_ s) as Hxhd.
  { intros ->. by apply (NoDup_cons_1_1 _ _ (rep_nodup _ _ Hrep)). }
  exists m1, (delete x m1). split; [done|]. split.
  { unfold free. by rewrite Hnx'. }
  split; [|simpl; by rewrite delete_shape].
  eapply represents_shrink; [exact Hrep|done..| | | | |]; simpl.
  - intros j. apply del_first_sublist.
  - intros j. apply del_first_mono, (rep_sub _ _ Hrep).
  - intros a Ha. rewrite delete_shape; [apply Hsh|].
    intros ->. apply elem_of_cons in Ha as [?|Ha]; [done|].
    by eapply (del_first_not_elem c (Ls O) (Ls O));
      [|apply (NoDup_cons_1_2 _ _ (rep_nodup _ _ Hrep))|..].
  - intros j Hj.
    assert (chain m1 j (head_ s) (del_first c (Ls j))) as Hcj.
    { destruct (decide (j < maxLevel_ s)%nat) as [Hlt|Hge];
        [apply Hch; lia|].
      rewrite (rep_empty _ _ Hrep j) by lia. simpl.
      eapply seg_ext; [|pose proof (rep_chain _ _ Hrep j Hj) as H;
        rewrite (rep_empty _ _ Hrep j) in H by lia; exact H].
      intros a _. apply Hfr. lia. }
    eapply seg_ext; [|exact Hcj]. intros a Ha. apply delete_link.
    intros ->. apply elem_of_cons in Ha as [?|Ha]; [done|].
    by eapply (del_first_not_elem c (Ls j) (Ls O));
      [apply (rep_sub0 _ _ Hrep)
      |apply (NoDup_cons_1_2 _ _ (rep_nodup _ _ Hrep))|..].
  - intros a Ha. destruct (decide (a = x)) as [->|Hax].
    { rewrite lookup_delete_eq in Ha. by destruct Ha. }
    rewrite lookup_delete_ne in Ha by done.
    apply (shape_live (mem s)) in Ha; [|apply Hsh].
    apply (rep_dom _ _ Hrep) in Ha as [->|Ha]%elem_of_cons; [left|].
    right. by apply (del_first_elem c _ x).
Qed.
End clear.

Lemma clear_loop_spec fuel : ∀ s Ls,
  represents s Ls → (0 < head_levels s)%nat → (length (Ls O) < fuel)%nat →
  ∃ m', clear_loop fuel (head_ s) (maxLevel_ s) (mem s) = Some m'
    ∧ represents (mkSkipList (maxLevel_ s) (head_ s) (comparator_ s) m')
        (λ _, [])
    ∧ shape m' (head_ s) = shape (mem s) (head_ s).
Proof.
  induction fuel as [|fuel IH]; intros s Ls Hrep H0 Hfuel; [lia|].
  cbn [clear_loop].
  pose proof (rep_chain _ _ Hrep O H0) as Hc0.
  destruct (Ls O) as [|x rest] eqn:HL.
  - destruct Hc0 as (_ & z & -> & ->). simpl. exists (mem s).
    split; [done|]. split; [|done]. rewrite SkipList_eta.
    eapply represents_eq; [|exact Hrep]. intros j. simpl.
    pose proof (rep_sub0 _ _ Hrep j) as H. rewrite HL in H.
    by apply sublist_nil_r in H.
  - destruct Hc0 as (_ & z & -> & -> & _). cbn [mbind option_bind].
    destruct (clear_round s Ls Hrep x rest HL)
      as (m1 & m2 & Hm1 & Hm2 & Hrep' & Hsh).
    rewrite Hm1. cbn [mbind option_bind]. rewrite Hm2.
    cbn [mbind option_bind].
    destruct (IH _ _ Hrep') as (m' & Hrun & Hrep'' & Hsh').
    { erewrite head_levels_shape; [exact H0|done|done]. }
    { rewrite HL. simpl in *. lia. }
    simpl in *. exists m'. split; [done|]. split; [done|]. congruence.
Qed.

(** [clear()] on a well-formed state. *)
Lemma clear_spec s Ls :
  represents s Ls → (0 < head_levels s)%nat →
  ∃ s', clear s = Some s' ∧ represents s' (λ _, [])
    ∧ maxLevel_ s' = maxLevel_ s ∧ head_ s' = head_ s
    ∧ shape (mem s') (head_ s) = shape (mem s) (head_ s).
Proof.
  intros Hrep H0. unfold clear.
  destruct (clear_loop_spec (steps (mem s)) s Ls Hrep H0)
    as (m' & -> & Hrep' & Hsh).
  { apply (rep_fuel _ _ Hrep). }
  simpl. eauto 10.
Qed.

(** On a state without nodes [clear()] changes nothing. *)
Lemma clear_empty s :
  represents s (λ _, []) → (0 < head_levels s)%nat → clear s = Some s.
Proof.
  intros Hrep H0. unfold clear, steps. cbn [clear_loop].
  destruct (rep_chain _ _ Hrep O H0) as (_ & z & -> & ->).
  simpl. by rewrite SkipList_eta.
Qed.

(** A head sentinel without links: [clear()] reads beyond its array. *)
Lemma clear_no_level s Ls :
  represents s Ls → head_levels s = O → clear s = None.
Proof.
  intros Hrep H0. destruct (rep_head_live _ _ Hrep) as (hn & Hhn & _ & Hlen).
  unfold clear, steps. cbn [clear_loop]. unfold link. rewrite Hhn. simpl.
  rewrite lookup_ge_None_2; [done|lia].
Qed.

(** ** Lists, for insert *)

(** A split of a sublist extends to a split of the list, at the same node. *)
Lemma sublist_split_at (hd : addr) (A B L : list addr) :
  A ++ B `sublist_of` L →
  ∃ X Y, L = X ++ Y ∧ endof hd X = endof hd A ∧ (A = [] → X = [])
         ∧ A `sublist_of` X ∧ B `sublist_of` Y.
Proof.
  intros Hsub. destruct A as [|a A'].
  - exists [], L. by repeat split.
  - destruct (endof_snoc_inv a A') as [A0 HA0]. simpl endof at 2.
    rewrite HA0 in Hsub |- *. rewrite <- app_assoc in Hsub.
    apply sublist_app_l in Hsub as (k1 & k2 & -> & H1 & H2).
    simpl in H2. apply sublist_cons_l in H2 as (k1' & k2' & -> & H2).
    exists ((k1 ++ k1') ++ [endof a A']), k2'.
    split; [by rewrite <- !app_assoc|]. split; [|split; [|split; [|done]]].
    + by rewrite endof_app.
    + intros Habs. by destruct A0.
    + apply sublist_app; [|done]. by apply sublist_inserts_r.
Qed.

Lemma span_exists (c : addr → bool) (Y : list addr) :
  ∃ Y1 Y2, Y = Y1 ++ Y2 ∧ Forall (λ a, c a = true) Y1
           ∧ match Y2 with [] => True | b :: _ => c b = false end.
Proof.
  induction Y as [|a Y (Y1 & Y2 & -> & H1 & H2)].
  - by exists [], [].
  - destruct (c a) eqn:Ha.
    + exists (a :: Y1), Y2. repeat split; [by constructor|done].
    + exists [], (a :: Y1 ++ Y2). by repeat split.
Qed.

Lemma sublist_skip_prefix (c : addr → bool) (B Y1 Y2 : list addr) :
  B `sublist_of` Y1 ++ Y2 →
  Forall (λ a, c a = true) Y1 →
  match B with [] => True | b :: _ => c b = false end →
  B `sublist_of` Y2.
Proof.
  intros Hsub Hall Hstop. induction Hall as [|y Y1 Hy Hall IH]; [done|].
  apply IH. destruct B as [|b B']; [apply sublist_nil_l|].
  simpl in Hsub. apply sublist_cons_r in Hsub as [Hsub|(B'' & [= -> ->] & _)];
    [done|congruence].
Qed.

Lemma StronglySorted_insert {A} (R : relation A) (l1 l2 : list A) (x : A) :
  StronglySorted R (l1 ++ l2) →
  Forall (λ a, R a x) l1 → Forall (R x) l2 →
  StronglySorted R (l1 ++ x :: l2).
Proof.
  intros Hs H1 H2. induction l1 as [|a l1 IH]; simpl in *.
  - by constructor.
  - apply StronglySorted_inv in Hs as [Hs Hall].
    apply Forall_cons in H1 as [Ha H1]. constructor; [by apply IH|].
    apply Forall_app in Hall as [Hall1 Hall2].
    apply Forall_app. split; [done|]. by constructor.
Qed.

Lemma pair_lt_key m k v a : pair_lt m k v a = true → keyof m a ≤ k.
Proof.
  unfold pair_lt. intros [H|[H _]%andb_prop]%orb_prop;
    apply bool_decide_eq_true in H; lia.
Qed.

Lemma pair_lt_false_key m k v a : pair_lt m k v a = false → k ≤ keyof m a.
Proof.
  unfold pair_lt. intros [H _]%orb_false_elim.
  apply bool_decide_eq_false in H. lia.
Qed.

(** On a chain sorted by key, the nodes before the stop carry keys up to
    [k] and the nodes after it keys from [k] on. *)
Lemma ins_split_bounds m k v hd L A B :
  StronglySorted (λ a b, keyof m a ≤ keyof m b) L →
  ins_split (pair_lt m k v) hd L A B →
  Forall (λ a, keyof m a ≤ k) A ∧ Forall (λ a, k ≤ keyof m a) B.
Proof.
  intros Hs (-> & HA & HB). split.
  - apply StronglySorted_app_1_l in Hs.
    destruct A as [|a A']; [constructor|]. destruct HA as [|HA]; [done|].
    simpl in HA. destruct (endof_snoc_inv a A') as [A0 HA0].
    rewrite HA0 in Hs |- *. apply pair_lt_key in HA.
    apply Forall_app. split; [|by repeat constructor].
    apply Forall_forall. intros b Hb.
    pose proof (StronglySorted_app_1_elem_of _ _ _ b (endof a A') Hs Hb) as H.
    simpl in H. specialize (H ltac:(left)). lia.
  - apply StronglySorted_app_1_r in Hs.
    destruct B as [|b B']; [constructor|]. apply pair_lt_false_key in HB.
    apply StronglySorted_inv in Hs as [_ Hall]. constructor; [done|].
    eapply Forall_impl; [exact Hall|]. simpl. intros; lia.
Qed.

Lemma last_ok_app (c : addr → bool) hd (X Y1 : list addr) :
  (X = [] ∨ c (endof hd X) = true) →
  Forall (λ a, c a = true) Y1 →
  X ++ Y1 = [] ∨ c (endof hd (X ++ Y1)) = true.
Proof.
  intros HX HY. destruct Y1 as [|y Y1']; [by rewrite app_nil_r|].
  right. rewrite endof_app. simpl.
  eapply Forall_forall in HY; [exact HY|]. apply endof_elem.
Qed.

(** ** insert *)

Section insert.
Context (s : SkipList) (Ls : nat → list addr) (Hrep : represents s Ls).
Context (k v : Z) (lvl : nat) (node : addr).
Context (Hnode : mem s !! node = None).

Lemma node_not_elem j : node ∉ head_ s :: Ls j.
Proof.
  intros [->|Hin]%elem_of_cons.
  - destruct (rep_head_live _ _ Hrep) as (hn & Hhn & _). congruence.
  - destruct (rep_live _ _ Hrep _ _ Hin) as [nd Hnd]. congruence.
Qed.

Let m0 : heap := <[node := mkNode k v (replicate lvl None)]> (mem s).
Let c : addr → bool := pair_lt (mem s) k v.

Lemma alloc_shape a : a ≠ node → shape m0 a = shape (mem s) a.
Proof. intros Hne. unfold shape, m0. by rewrite lookup_insert_ne. Qed.

Lemma alloc_shape_node : shape m0 node = Some (k, v, lvl).
Proof.
  unfold shape, m0. rewrite lookup_insert_eq. simpl.
  by rewrite length_replicate.
Qed.

Lemma alloc_link a j : a ≠ node → link m0 a j = link (mem s) a j.
Proof. intros Hne. unfold link, m0. by rewrite lookup_insert_ne. Qed.

Lemma alloc_chain j :
  (j < head_levels s)%nat → chain m0 j (head_ s) (Ls j).
Proof.
  intros Hj. eapply seg_ext; [|by apply (rep_chain _ _ Hrep)].
  intros a Ha. apply alloc_link. intros ->. by eapply node_not_elem.
Qed.

Lemma insert_cond_pair_lt m a j :
  (∀ a, shape m a = shape m0 a) → a ∈ Ls j →
  ∃ nd, m !! a = Some nd ∧ insert_cond DefaultComparator k v nd = c a.
Proof.
  intros Hshape Ha.
  assert (a ≠ node) as Hne.
  { intros ->. eapply node_not_elem. by right. }
  destruct (rep_live _ _ Hrep _ _ Ha) as [nd0 Hnd0].
  pose proof (Hshape a) as Hsh. rewrite alloc_shape in Hsh by done.
  unfold shape in Hsh. rewrite Hnd0 in Hsh.
  destruct (m !! a) as [nd|]; [|done]. exists nd. split; [done|].
  simpl in Hsh. injection Hsh as Hk Hv _.
  unfold insert_cond, c, pair_lt.
  rewrite !DefaultComparator_lt, DefaultComparator_eq.
  rewrite (keyof_lookup _ _ _ Hnd0), (valueof_lookup _ _ _ Hnd0).
  by rewrite Hk, Hv.
Qed.

Lemma insert_loop_spec fuel n : ∀ m A B,
  (∀ j, (length (Ls j) < fuel)%nat) →
  (n ≤ head_levels s)%nat →
  (∀ a, shape m a = shape m0 a) →
  (∀ a j, (j < n)%nat → link m a j = link m0 a j) →
  ins_split c (head_ s) (Ls n) A B →
  ∃ m' (sp : nat → list addr * list addr),
    insert_loop fuel DefaultComparator k v lvl node m n (endof (head_ s) A)
    = Some m'
    ∧ (∀ a, shape m' a = shape m0 a)
    ∧ (∀ a j, (n ≤ j)%nat → link m' a j = link m a j)
    ∧ (∀ j, (j < n)%nat →
         ins_split c (head_ s) (Ls j) (sp j).1 (sp j).2
         ∧ chain m' j (head_ s)
             (if decide (j < lvl)%nat
              then (sp j).1 ++ node :: (sp j).2 else Ls j))
    ∧ (∀ j, (S j < n)%nat →
         (sp (S j)).1 `sublist_of` (sp j).1
         ∧ (sp (S j)).2 `sublist_of` (sp j).2)
    ∧ (∀ i, n = S i → A `sublist_of` (sp i).1 ∧ B `sublist_of` (sp i).2).
Proof.
  induction n as [|i IH]; intros m A B Hfuel Hn Hshape Hlow Hsplit.
  { exists m, (λ _, ([], [])). repeat split; (done || lia). }
  destruct Hsplit as (HL & HA & HB).
  pose proof (rep_sub _ _ Hrep i) as Hsub. rewrite HL in Hsub.
  destruct (sublist_split_at (head_ s) A B (Ls i) Hsub)
    as (X & Y & HLi & HendX & HXnil & HAX & HBY).
  destruct (span_exists c Y) as (Y1 & Y2 & -> & HY1 & HY2).
  assert (chain m i (head_ s) (Ls i)) as Hchain.
  { eapply seg_ext; [|apply alloc_chain; lia]. intros a _. apply Hlow. lia. }
  set (A' := X ++ Y1).
  assert (Ls i = A' ++ Y2) as HLi' by (by rewrite HLi, app_assoc).
  assert (endof (head_ s) A' = endof (endof (head_ s) A) Y1) as Hend.
  { unfold A'. by rewrite endof_app, HendX. }
  assert (advance fuel (insert_cond DefaultComparator k v) m i
            (endof (head_ s) A) = Some (endof (head_ s) A')) as Hadv.
  { rewrite Hend. eapply advance_spec.
    - rewrite <- HendX. apply chain_split. by rewrite <- HLi.
    - apply Forall_forall. intros a Ha.
      destruct (insert_cond_pair_lt m a i Hshape) as (nd & Hnd & Hc).
      { rewrite HLi. apply elem_of_app. right. apply elem_of_app. by left. }
      exists nd. split; [done|]. rewrite Hc.
      by eapply Forall_forall in HY1.
    - destruct Y2 as [|b Y2']; [done|].
      destruct (insert_cond_pair_lt m b i Hshape) as (nd & Hnd & Hc).
      { rewrite HLi. apply elem_of_app. right. apply elem_of_app. right. left. }
      exists nd. split; [done|]. by rewrite Hc.
    - pose proof (Hfuel i) as Hf. rewrite HLi, !length_app in Hf. lia. }
  assert (ins_split c (head_ s) (Ls i) A' Y2) as Hsplit'.
  { split; [done|]. split; [|done]. apply last_ok_app; [|done].
    destruct A as [|a A0]; [left; by apply HXnil|].
    right. rewrite HendX. by destruct HA. }
  assert (∃ m2,
    (if decide (i < lvl)%nat then
       link m (endof (head_ s) A') i ≫= λ nx,
         set_link m node i nx ≫= λ m1,
           set_link m1 (endof (head_ s) A') i (Some node)
     else Some m) = Some m2
    ∧ (∀ a, shape m2 a = shape m0 a)
    ∧ (∀ a j, j ≠ i → link m2 a j = link m a j)
    ∧ chain m2 i (head_ s)
        (if decide (i < lvl)%nat then A' ++ node :: Y2 else Ls i))
    as (m2 & Hm2 & Hsh2 & Hfr2 & Hch2).
  { case_decide as Hi; [|by exists m].
    pose proof Hchain as Hc2. rewrite HLi' in Hc2.
    apply chain_split in Hc2. destruct Hc2 as (_ & z & Hz & _).
    destruct (link_shape _ _ _ _ Hz) as (kv & h & Hshp & Hih).
    destruct (set_link_Some m node i z (k, v) lvl) as [m1 Hm1]; [|done|].
    { rewrite Hshape. apply alloc_shape_node. }
    destruct (set_link_Some m1 (endof (head_ s) A') i (Some node) kv h)
      as [m2 Hm2]; [|done|].
    { by rewrite (set_link_shape _ _ _ _ _ _ Hm1). }
    exists m2. rewrite Hz. simpl. rewrite Hm1. simpl.
    split; [done|]. split; [|split].
    - intros a. rewrite (set_link_shape _ _ _ _ _ a Hm2).
      rewrite (set_link_shape _ _ _ _ _ a Hm1). apply Hshape.
    - intros a j Hj. rewrite (set_link_other _ _ _ _ _ a j Hm2) by (by right).
      apply (set_link_other _ _ _ _ _ a j Hm1). by right.
    - eapply chain_link; [| | |exact Hz|exact Hm1|exact Hm2].
      + by rewrite <- HLi'.
      + rewrite <- HLi'. apply (rep_nodup_level _ _ Hrep).
      + rewrite <- HLi'. apply node_not_elem. }
  destruct (IH m2 A' Y2) as (m' & sp & Hrun & Hsh & Hfr & Hlev & Hsubs & Htop);
    [done|lia|done| |done|].
  { intros a j Hj. rewrite Hfr2 by lia. apply Hlow. lia. }
  exists m', (λ j, if decide (j = i) then (A', Y2) else sp j).
  cbn [insert_loop]. rewrite Hadv. cbn [mbind option_bind].
  rewrite Hm2. cbn [mbind option_bind].
  split; [done|]. split; [done|]. split; [|split; [|split]].
  - intros a j Hj. rewrite Hfr by lia. apply Hfr2. lia.
  - intros j Hj. destruct (decide (j = i)) as [->|Hne]; [|apply Hlev; lia].
    simpl. split; [done|].
    eapply seg_ext; [|exact Hch2]. intros a _. apply Hfr. lia.
  - intros j Hj. rewrite (decide_False (P := j = i)) by lia.
    destruct (decide (S j = i)) as [Heq|Hne]; [|apply Hsubs; lia].
    simpl. by apply Htop.
  - intros i' [= <-]. rewrite decide_True by done. simpl. split.
    + etrans; [exact HAX|]. by apply sublist_inserts_r.
    + eapply sublist_skip_prefix; [exact HBY|done..].
Qed.
End insert.

(** ** randomLevel *)

Lemma shl1_small i : (i < 31)%nat → shl1 i = Some (2 ^ Z.of_nat i).
Proof.
  intros Hi. unfold shl1, to_int. rewrite decide_True by lia.
  rewrite Z.shiftl_1_l. f_equal.
  assert (0 < 2 ^ Z.of_nat i < 2 ^ 31).
  { split; [apply Z.pow_pos_nonneg; lia|apply Z.pow_lt_mono_r; lia]. }
  rewrite Z.mod_small; lia.
Qed.

Lemma land_pow2_zero rd i :
  0 ≤ i → (Z.land rd (2 ^ i) =? 0) = negb (Z.testbit rd i).
Proof.
  intros Hi. destruct (Z.testbit rd i) eqn:Hb; simpl.
  - apply Z.eqb_neq. intros H0.
    assert (Z.testbit (Z.land rd (2 ^ i)) i = true) as Ht.
    { by rewrite Z.land_spec, Hb, Z.pow2_bits_true. }
    rewrite H0, Z.bits_0 in Ht. done.
  - apply Z.eqb_eq. apply Z.bits_inj'. intros n Hn.
    rewrite Z.land_spec, Z.bits_0.
    destruct (decide (n = i)) as [->|Hne].
    + by rewrite Hb.
    + rewrite Z.pow2_bits_false by lia. apply andb_false_r.
Qed.

Lemma first_zero_bit_ge rd n : ∀ i j,
  first_zero_bit rd n i = Some j → (i ≤ j)%nat.
Proof.
  induction n as [|n IH]; intros i j; simpl; [done|].
  destruct (Z.testbit rd (Z.of_nat i)).
  - intros H%IH. lia.
  - intros [= <-]. lia.
Qed.

Lemma randomLevel_loop_spec rd lvl n : ∀ i,
  (i + n = lvl)%nat → (lvl ≤ 32)%nat →
  randomLevel_loop rd lvl n i
  = Some (match first_zero_bit rd (64 - i) i with
          | Some j => Nat.min (j + 1) lvl
          | None => lvl
          end).
Proof.
  induction n as [|n IH]; intros i Hi Hlvl.
  - simpl. f_equal. destruct (first_zero_bit rd (64 - i) i) as [j|] eqn:Hj; [|done].
    apply first_zero_bit_ge in Hj. lia.
  - cbn [randomLevel_loop]. destruct (decide (i < 31)%nat) as [Hlt|Hge].
    + rewrite shl1_small by done. cbn [mbind option_bind].
      rewrite land_pow2_zero by lia.
      replace (64 - i)%nat with (S (64 - S i)) by lia. cbn [first_zero_bit].
      destruct (Z.testbit rd (Z.of_nat i)); simpl.
      * apply IH; lia.
      * f_equal. lia.
    + assert (i = 31%nat) as -> by lia. assert (n = O) as -> by lia.
      assert (lvl = 32%nat) as -> by lia.
      change (shl1 31) with (Some (-2147483648)). cbn [mbind option_bind].
      assert (match first_zero_bit rd (64 - 31) 31 with
              | Some j => Nat.min (j + 1) 32
              | None => 32%nat
              end = 32%nat) as ->.
      { destruct (first_zero_bit rd (64 - 31) 31) as [j|] eqn:Hj; [|done].
        apply first_zero_bit_ge in Hj. lia. }
      by destruct (Z.land rd (-2147483648) =? 0).
Qed.

Lemma randomLevel_spec rd lvl :
  (lvl ≤ 32)%nat → randomLevel rd lvl = Some (spec_height rd lvl).
Proof.
  intros Hlvl. unfold randomLevel, spec_height.
  by rewrite (randomLevel_loop_spec rd lvl lvl 0).
Qed.

Lemma first_zero_bit_Some rd n : ∀ i j,
  first_zero_bit rd n i = Some j →
  (i ≤ j < i + n)%nat
  ∧ Z.testbit rd (Z.of_nat j) = false
  ∧ ∀ t, (i ≤ t < j)%nat → Z.testbit rd (Z.of_nat t) = true.
Proof.
  induction n as [|n IH]; intros i j; simpl; [done|].
  destruct (Z.testbit rd (Z.of_nat i)) eqn:Hb.
  - intros (? & ? & Hall)%IH. split; [lia|]. split; [done|].
    intros t Ht. destruct (decide (t = i)) as [->|]; [done|]. apply Hall. lia.
  - intros [= <-]. split; [lia|]. split; [done|]. intros t Ht. lia.
Qed.

Lemma first_zero_bit_None rd n : ∀ i,
  first_zero_bit rd n i = None →
  ∀ t, (i ≤ t < i + n)%nat → Z.testbit rd (Z.of_nat t) = true.
Proof.
  induction n as [|n IH]; intros i; simpl; [intros _ t Ht; lia|].
  destruct (Z.testbit rd (Z.of_nat i)) eqn:Hb; [|done].
  intros Hn t Ht. destruct (decide (t = i)) as [->|]; [done|].
  apply (IH (S i)); [done|lia].
Qed.

(** A height of at least [h] takes [h - 1] low bits that are all ones. *)
Lemma spec_height_ge rd lvl h :
  (1 ≤ h ≤ lvl)%nat → (lvl ≤ 64)%nat →
  (h ≤ spec_height rd lvl)%nat
  ↔ ∀ t, (t < h - 1)%nat → Z.testbit rd (Z.of_nat t) = true.
Proof.
  intros Hh Hlvl. unfold spec_height.
  destruct (first_zero_bit rd 64 0) as [j|] eqn:Hj.
  - apply first_zero_bit_Some in Hj as (Hr & Hz & Hall). split.
    + intros Hle t Ht. apply Hall. lia.
    + intros Hones. destruct (decide (h - 1 ≤ j)%nat) as [|Hgt]; [lia|].
      rewrite Hones in Hz by lia. done.
  - split; [|lia]. intros _ t Ht.
    apply (first_zero_bit_None _ _ _ Hj). lia.
Qed.

Lemma spec_height_range rd lvl :
  (1 ≤ lvl)%nat → (1 ≤ spec_height rd lvl ≤ lvl)%nat.
Proof.
  intros Hlvl. unfold spec_height.
  destruct (first_zero_bit rd 64 0); lia.
Qed.

Lemma NoDup_insert_middle (l1 l2 : list addr) x :
  NoDup (l1 ++ l2) → x ∉ l1 ++ l2 → NoDup (l1 ++ x :: l2).
Proof.
  intros (H1 & Hd & H2)%NoDup_app Hx. apply NoDup_app. split; [done|].
  split.
  - intros a Ha [->|Hin]%elem_of_cons.
    + apply Hx, elem_of_app. by left.
    + by eapply Hd.
  - apply NoDup_cons. split; [|done]. intros Hin. apply Hx, elem_of_app. by right.
Qed.

Lemma shape_key_value m a kk vv h :
  shape m a = Some (kk, vv, h) → keyof m a = kk ∧ valueof m a = vv.
Proof.
  unfold shape, keyof, valueof. destruct (m !! a); simpl; [|done].
  by intros [= <- <- _].
Qed.

(** [insert(k, v)] on a well-formed state, with the word [rd], when the
    head sentinel has a link for every level of the new node. *)
Lemma insert_spec s Ls k v rd :
  represents s Ls → in_KeyType k →
  let lvl := spec_height rd MAX_LEVEL in
  (lvl ≤ head_levels s)%nat →
  ∃ s' node sp,
    insert k v rd s = Some (0, s')
    ∧ mem s !! node = None
    ∧ represents s' (inserted Ls sp lvl node)
    ∧ (∀ j, (j < lvl)%nat →
         ins_split (pair_lt (mem s) k v) (head_ s) (Ls j) (sp j).1 (sp j).2)
    ∧ maxLevel_ s' = Nat.max (maxLevel_ s) lvl
    ∧ head_ s' = head_ s
    ∧ shape (mem s') node = Some (k, v, lvl)
    ∧ (∀ a, a ≠ node → shape (mem s') a = shape (mem s) a).
Proof.
  intros Hrep Hk lvl Hhl.
  pose proof (spec_height_range rd MAX_LEVEL ltac:(unfold MAX_LEVEL; lia))
    as Hlvl. fold lvl in Hlvl.
  unfold insert. rewrite randomLevel_spec by (unfold MAX_LEVEL; lia).
  fold lvl. cbn [mbind option_bind]. unfold createNode.
  set (node := fresh (dom (mem s))).
  assert (mem s !! node = None) as Hnode.
  { apply not_elem_of_dom. apply is_fresh. }
  set (m0 := <[node := mkNode k v (replicate lvl None)]> (mem s)).
  set (ml := if decide (maxLevel_ s < lvl)%nat then lvl else maxLevel_ s).
  assert (ml = Nat.max (maxLevel_ s) lvl) as Hml.
  { unfold ml. case_decide; lia. }
  pose proof (rep_max _ _ Hrep) as Hmax.
  destruct (insert_loop_spec s Ls Hrep k v lvl node Hnode (steps m0) ml m0 [] [])
    as (m' & sp & Hrun & Hsh & Hfr & Hlev & Hsubs & _).
  { intros j. pose proof (rep_fuel _ _ Hrep j) as Hf. unfold steps in *.
    unfold m0. rewrite map_size_insert_None by done. lia. }
  { lia. }
  { done. }
  { done. }
  { rewrite (rep_empty _ _ Hrep ml) by lia. split; [done|]. split; [by left|done]. }
  rewrite (rep_cmp _ _ Hrep). simpl in Hrun. rewrite Hrun.
  cbn [mbind option_bind].
  assert (head_ s ≠ node) as Hhd.
  { intros Heq. eapply (node_not_elem s Ls Hrep node Hnode O). rewrite Heq. left. }
  assert (∀ a, a ≠ node → shape m' a = shape (mem s) a) as Hold.
  { intros a Ha. rewrite Hsh. by apply alloc_shape. }
  assert (shape m' node = Some (k, v, lvl)) as Hnew.
  { rewrite Hsh. apply alloc_shape_node. }
  assert (∀ a j, a ∈ Ls j → a ≠ node) as Hne.
  { intros a j Ha ->. eapply (node_not_elem s Ls Hrep node Hnode j). by right. }
  destruct (Hlev O ltac:(lia)) as [Hsp0 _].
  pose proof Hsp0 as (HL0 & _).
  eexists _, node, sp. split; [done|]. split; [done|].
  split; [|split; [|simpl; by rewrite <- ?Hml]].
  2:{ intros j Hj. apply Hlev. lia. }
  assert (head_levels (mkSkipList ml (head_ s) DefaultComparator m')
          = head_levels s) as Hlevels.
  { apply head_levels_shape; [done|]. simpl. by apply Hold. }
  split; simpl; rewrite ?Hlevels.
  - done.
  - rewrite (shape_keyof (mem s) m') by (by apply Hold). apply Hrep.
  - pose proof (Hold (head_ s) Hhd) as Hshd.
    destruct (rep_head _ _ Hrep) as [hn Hhn]. unfold shape in Hshd.
    rewrite Hhn in Hshd. destruct (m' !! head_ s); [eauto|done].
  - lia.
  - intros j Hj. unfold inserted.
    destruct (decide (j < ml)%nat) as [Hlt|Hge]; [by apply Hlev|].
    rewrite decide_False by lia.
    eapply seg_ext; [|by apply (alloc_chain s Ls Hrep k v lvl node Hnode)].
    intros a _. apply Hfr. lia.
  - intros j Hj. unfold inserted. rewrite decide_False by lia.
    apply (rep_empty _ _ Hrep). lia.
  - intros j. unfold inserted. repeat case_decide; try lia.
    + destruct (Hsubs j ltac:(lia)) as [H1 H2].
      apply sublist_app; [done|]. by apply sublist_skip.
    + destruct (Hlev j ltac:(lia)) as [(HLj & _) _].
      etrans; [apply (rep_sub _ _ Hrep)|]. rewrite HLj at 1.
      apply sublist_app; [done|]. by apply sublist_cons.
    + apply (rep_sub _ _ Hrep).
  - unfold inserted. rewrite decide_True by lia.
    rewrite app_comm_cons. apply NoDup_insert_middle.
    + simpl. rewrite <- HL0. apply (rep_nodup _ _ Hrep).
    + simpl. rewrite <- HL0. apply (node_not_elem s Ls Hrep node Hnode).
  - unfold inserted. rewrite decide_True by lia.
    destruct (ins_split_bounds (mem s) k v (head_ s) (Ls O) _ _
                (rep_sorted _ _ Hrep) Hsp0) as [HbA HbB].
    destruct (shape_key_value _ _ _ _ _ Hnew) as [Hkn _].
    assert (∀ a, a ∈ Ls O → keyof m' a = keyof (mem s) a) as Hkeys.
    { intros a Ha. apply shape_keyof, Hold. by eapply Hne. }
    apply StronglySorted_insert.
    + rewrite <- HL0. eapply StronglySorted_ext; [|apply (rep_sorted _ _ Hrep)].
      simpl. intros a b Ha Hb. by rewrite !Hkeys.
    + apply Forall_forall. intros a Ha. rewrite Hkn, Hkeys.
      * by eapply Forall_forall in HbA.
      * rewrite HL0. apply elem_of_app. by left.
    + apply Forall_forall. intros a Ha. rewrite Hkn, Hkeys.
      * by eapply Forall_forall in HbB.
      * rewrite HL0. apply elem_of_app. by right.
  - unfold inserted. rewrite decide_True by lia. intros a Ha.
    destruct (decide (a = node)) as [->|Hane].
    + destruct (shape_key_value _ _ _ _ _ Hnew) as [-> _]. done.
    + rewrite (shape_keyof (mem s) m') by (by apply Hold).
      apply (rep_range _ _ Hrep). rewrite HL0.
      apply elem_of_app in Ha as [Ha|[?|Ha]%elem_of_cons]; [|done|];
        apply elem_of_app; auto.
  - unfold inserted. rewrite decide_True by lia. intros a Ha.
    rewrite app_comm_cons. apply elem_of_app.
    destruct (decide (a = node)) as [->|Hane]; [right; left|].
    apply (shape_live (mem s)) in Ha; [|by apply Hold].
    apply (rep_dom _ _ Hrep) in Ha. rewrite HL0, app_comm_cons in Ha.
    apply elem_of_app in Ha as [Ha|Ha]; [by left|right; by right].
Qed.

(** A height above the number of links of the head sentinel: [insert]
    reads beyond the head's array. *)
Lemma insert_overflow s Ls k v rd :
  represents s Ls →
  (head_levels s < spec_height rd MAX_LEVEL)%nat →
  insert k v rd s = None.
Proof.
  intros Hrep Hlt. pose proof (rep_max _ _ Hrep) as Hmax.
  destruct (rep_head_live _ _ Hrep) as (hn & Hhn & _ & Hlen).
  unfold insert. rewrite randomLevel_spec by (unfold MAX_LEVEL; lia).
  cbn [mbind option_bind]. unfold createNode.
  rewrite decide_True by lia.
  assert (mem s !! fresh (dom (mem s)) = None) as Hnode.
  { apply not_elem_of_dom. apply is_fresh. }
  destruct (spec_height rd MAX_LEVEL) as [|i] eqn:Hl; [lia|].
  unfold steps. cbn [insert_loop advance]. unfold link.
  rewrite lookup_insert_ne by congruence. rewrite Hhn. simpl.
  rewrite lookup_ge_None_2; [done|lia].
Qed.

(** ** Reachable states are well-formed *)

Lemma to_int_small z : 0 ≤ z < 2 ^ 31 → to_int z = z.
Proof. intros Hz. unfold to_int. rewrite Z.mod_small by lia. lia. Qed.

(** The conversion of a [size_t] to [int]: the low 32 bits, negative from
    2^31 on. *)
Lemma to_int_mod z :
  to_int z = if decide (z `mod` 2 ^ 32 < 2 ^ 31)
             then z `mod` 2 ^ 32 else z `mod` 2 ^ 32 - 2 ^ 32.
Proof.
  unfold to_int. rewrite <- (Z.add_mod_idemp_l z) by lia.
  pose proof (Z.mod_pos_bound z (2 ^ 32) ltac:(lia)) as Hr.
  case_decide.
  - rewrite Z.mod_small by lia. lia.
  - rewrite <- (Z_mod_plus_full _ (-1)). rewrite Z.mod_small by lia. lia.
Qed.

Lemma SkipList_new_Some n cmp s :
  SkipList_new n cmp = Some s
  ↔ 0 ≤ to_int (Z.of_nat n)
    ∧ s = mkSkipList 0 1 cmp
            (<[1%positive := mkNode KeyType_min ValueType_min
                 (replicate (Z.to_nat (to_int (Z.of_nat n))) None)]> ∅).
Proof.
  unfold SkipList_new. cbv zeta. case_decide as Hn.
  - split; [intros [= <-]; by split|intros [_ ->]; reflexivity].
  - split; [done|]. intros [? _]. lia.
Qed.

Lemma SkipList_new_None n cmp :
  SkipList_new n cmp = None ↔ to_int (Z.of_nat n) < 0.
Proof.
  unfold SkipList_new. cbv zeta. case_decide as Hn.
  - split; [done|lia].
  - split; [lia|done].
Qed.

Lemma SkipList_new_levels n cmp s :
  SkipList_new n cmp = Some s →
  Z.of_nat (head_levels s) = to_int (Z.of_nat n)
  ∧ Z.of_nat (head_levels s) < 2 ^ 31.
Proof.
  intros [Hn ->]%SkipList_new_Some. unfold head_levels. simpl.
  rewrite lookup_insert_eq. simpl. rewrite length_replicate.
  split; [lia|]. rewrite Z2Nat.id by done. rewrite to_int_mod.
  pose proof (Z.mod_pos_bound (Z.of_nat n) (2 ^ 32) ltac:(lia)).
  case_decide; lia.
Qed.

Lemma new_represents n s :
  SkipList_new n DefaultComparator = Some s → represents s (λ _, []).
Proof.
  intros [_ ->]%SkipList_new_Some.
  split; unfold head_levels, keyof; cbn [mem head_ maxLevel_ comparator_];
    rewrite ?lookup_insert_eq; cbn [from_option level key];
    rewrite ?length_replicate; try done.
  - lia.
  - intros i Hi. split; [done|]. exists None.
    split; [|done]. unfold link. rewrite lookup_insert_eq. simpl.
    by apply lookup_replicate_2.
  - apply NoDup_singleton.
  - constructor.
  - intros a Ha. by apply elem_of_nil in Ha.
  - intros a [nd Ha]. apply lookup_insert_Some in Ha as [[<- _]|[_ Ha]]; [left|].
    by rewrite lookup_empty in Ha.
Qed.

Lemma reachable_wf s : reachable s → well_formed s.
Proof.
  induction 1 as [n s Hnew|s k v rd r s' _ [Ls Hrep] Hk Hins
                 |s k v r s' _ [Ls Hrep] Hup|s k r s' _ [Ls Hrep] Hrem
                 |s s' _ [Ls Hrep] Hcl].
  - eexists. by eapply new_represents.
  - destruct (decide (spec_height rd MAX_LEVEL ≤ head_levels s)%nat) as [Hl|Hl].
    + destruct (insert_spec s Ls k v rd Hrep Hk Hl)
        as (s1 & node & sp & Heq & _ & H & _).
      rewrite Heq in Hins. injection Hins as <- <-. by eexists.
    + rewrite (insert_overflow s Ls k v rd Hrep) in Hins by lia. done.
  - eexists. by eapply update_represents.
  - pose proof (remove_spec s Ls k Hrep) as Hspec. simpl in Hspec.
    destruct (List.find _ (Ls O)) as [x|].
    + destruct Hspec as (s1 & Heq & H & _). rewrite Heq in Hrem.
      injection Hrem as <- <-. by eexists.
    + rewrite Hspec in Hrem. injection Hrem as <- <-. by eexists.
  - destruct (decide (0 < head_levels s)%nat) as [H0|H0].
    + destruct (clear_spec s Ls Hrep H0) as (s1 & Heq & H & _).
      rewrite Heq in Hcl. injection Hcl as <-. by eexists.
    + rewrite (clear_no_level s Ls Hrep) in Hcl by lia. done.
Qed.

(** ** The sample states *)

Lemma l_new_eq : SkipList_new MAX_LEVEL DefaultComparator = Some l_new.
Proof. reflexivity. Qed.

Lemma l_5_1_eq : insert 5 1 mt_word_1 l_new = Some (0, l_5_1).
Proof. vm_compute. reflexivity. Qed.

Lemma l_5_1_twice_eq : insert 5 1 mt_word_2 l_5_1 = Some (0, l_5_1_twice).
Proof. vm_compute. reflexivity. Qed.

Lemma l_5_1_5_2_eq : insert 5 2 mt_word_2 l_5_1 = Some (0, l_5_1_5_2).
Proof. vm_compute. reflexivity. Qed.

Lemma l_head_7_eq : update KeyType_min 7 l_new = Some (0, l_head_7).
Proof. vm_compute. reflexivity. Qed.

Lemma l_head_7_ins_eq :
  insert KeyType_min 1 mt_word_1 l_head_7 = Some (0, l_head_7_ins).
Proof. vm_compute. reflexivity. Qed.

Lemma l_head_7_ins_rem_eq :
  remove KeyType_min l_head_7_ins = Some (1, l_head_7_ins_rem).
Proof. vm_compute. reflexivity. Qed.

Lemma l_new_reachable : reachable l_new.
Proof. by apply (reach_new MAX_LEVEL). Qed.

Lemma in_KeyType_5 : in_KeyType 5.
Proof. unfold in_KeyType, KeyType_min, int_max. lia. Qed.

Lemma in_KeyType_min : in_KeyType KeyType_min.
Proof. unfold in_KeyType, KeyType_min, int_max. lia. Qed.

Lemma l_5_1_reachable : reachable l_5_1.
Proof.
  eapply reach_insert; [apply l_new_reachable|apply in_KeyType_5|apply l_5_1_eq].
Qed.

Lemma l_head_7_reachable : reachable l_head_7.
Proof. eapply reach_update; [apply l_new_reachable|apply l_head_7_eq]. Qed.

(** ** Stored keys *)

Lemma stored_dec_rep s Ls K :
  represents s Ls →
  (∃ a, a ∈ Ls O ∧ keyof (mem s) a = K)
  ∨ (∀ a, a ∈ Ls O → keyof (mem s) a ≠ K).
Proof.
  intros Hrep.
  destruct (decide (Exists (λ a, keyof (mem s) a = K) (Ls O))) as [H|H].
  - left. apply Exists_exists in H as (a & ? & ?). eauto.
  - right. intros a Ha Hk. apply H, Exists_exists. eauto.
Qed.

Lemma not_stored_rep s Ls K :
  represents s Ls → ¬ stored s K → ∀ a, a ∈ Ls O → keyof (mem s) a ≠ K.
Proof.
  intros Hrep Hns a Ha Hk. apply Hns. apply (stored_rep _ _ _ Hrep). eauto.
Qed.

Lemma not_stored_entries s es K :
  entries s = Some es → K ∉ es.*1 → ¬ stored s K.
Proof. intros Hes Hk (es' & Hes' & Hin). congruence. Qed.

(** The lookup of [searchNode] matches exactly the stored keys and the key
    of the head sentinel. *)
Lemma search_pos_hit s Ls K :
  represents s Ls →
  keyof (mem s) (search_pos (mem s) (head_ s) K (Ls O)) = K
  ↔ stored s K ∨ K = KeyType_min.
Proof.
  intros Hrep. split.
  - intros Hk.
    pose proof (search_pos_elem s Ls K) as [Heq|Hin]%elem_of_cons.
    + right. rewrite Heq in Hk. by rewrite (rep_head_key _ _ Hrep) in Hk.
    + left. apply (stored_rep _ _ _ Hrep). eauto.
  - intros Hor. destruct (stored_dec_rep s Ls K Hrep) as [(a & Ha & Hk)|Hno].
    + by destruct (search_pos_stored s Ls Hrep K a Ha Hk).
    + destruct Hor as [Hst | ->].
      * apply (stored_rep _ _ _ Hrep) in Hst as (a & Ha & Hk).
        by destruct (Hno a Ha).
      * rewrite (search_pos_min s Ls Hrep) by done. apply Hrep.
Qed.

Lemma search_pos_keys m m' hd K (L : list addr) :
  (∀ a, keyof m' a = keyof m a) → search_pos m' hd K L = search_pos m hd K L.
Proof.
  intros Hk. unfold search_pos. f_equal. apply list_filter_iff.
  intros a. by rewrite Hk.
Qed.

(** A successful [update]: the matched node gets the value, in place. *)
Lemma update_hit s Ls K V :
  represents s Ls →
  keyof (mem s) (search_pos (mem s) (head_ s) K (Ls O)) = K →
  ∃ p nd s',
    p = search_pos (mem s) (head_ s) K (Ls O)
    ∧ mem s !! p = Some nd ∧ key nd = K
    ∧ s' = mkSkipList (maxLevel_ s) (head_ s) (comparator_ s)
             (<[p := mkNode K V (level nd)]> (mem s))
    ∧ update K V s = Some (0, s')
    ∧ represents s' Ls
    ∧ searchNode K s' = Some (Some p)
    ∧ search K s' = Some V.
Proof.
  intros Hrep Hk. pose proof (update_spec s Ls K V Hrep) as Hspec.
  simpl in Hspec. rewrite decide_True in Hspec by done.
  destruct Hspec as (nd & Hnd & Hup).
  pose proof (keyof_lookup _ _ _ Hnd) as Hknd. rewrite Hk in Hknd. subst K.
  eexists _, nd, _. split; [done|]. split; [done|]. split; [done|].
  split; [done|]. split; [done|].
  pose proof (update_represents _ _ _ _ _ _ Hrep Hup) as Hrep'.
  assert (search_pos
            (<[search_pos (mem s) (head_ s) (key nd) (Ls O)
               := mkNode (key nd) V (level nd)]> (mem s))
            (head_ s) (key nd) (Ls O)
          = search_pos (mem s) (head_ s) (key nd) (Ls O)) as Hpos.
  { apply search_pos_keys. intros a. by apply set_value_keyof. }
  split; [done|]. split.
  - rewrite (searchNode_spec _ _ Hrep'). simpl. rewrite Hpos.
    rewrite decide_True; [done|]. by rewrite set_value_keyof.
  - rewrite (search_spec _ _ Hrep'). simpl. rewrite Hpos.
    rewrite decide_True by (by rewrite set_value_keyof).
    rewrite (set_value_valueof _ _ nd) by done. by rewrite decide_True.
Qed.

(** [search] for a key that no node carries. *)
Lemma search_not_stored s K :
  reachable s → ¬ stored s K →
  search K s = Some (if decide (K = KeyType_min)
                     then valueof (mem s) (head_ s) else ValueType_min).
Proof.
  intros [Ls Hrep]%reachable_wf Hns.
  pose proof (not_stored_rep _ _ _ Hrep Hns) as Hno.
  rewrite (search_spec _ _ Hrep). simpl.
  destruct (decide (K = KeyType_min)) as [HK|HK].
  - rewrite (search_pos_min s Ls Hrep K HK Hno).
    rewrite decide_True; [done|]. subst K. apply Hrep.
  - rewrite decide_False; [done|]. by apply search_pos_absent.
Qed.

(** ** Lemmas for the claims *)

Lemma sublist_fmap_mono {A B} (f : A → B) (l1 l2 : list A) :
  l1 `sublist_of` l2 → f <$> l1 `sublist_of` f <$> l2.
Proof.
  induction 1; csimpl; [done|by apply sublist_skip|by apply sublist_cons].
Qed.

Lemma StronglySorted_le_lt (l : list Z) :
  StronglySorted Z.le l → NoDup l → StronglySorted Z.lt l.
Proof.
  induction 1 as [|a l Hs IH Hall]; [constructor|].
  intros [Ha Hnd]%NoDup_cons. constructor.
  - by apply IH.
  - apply Forall_forall. intros b Hb.
    eapply Forall_forall in Hall; [|done].
    assert (a ≠ b) by (intros ->; done). lia.
Qed.

Lemma l_5_1_5_2_reachable : reachable l_5_1_5_2.
Proof.
  eapply reach_insert;
    [apply l_5_1_reachable|apply in_KeyType_5|apply l_5_1_5_2_eq].
Qed.

Lemma entry_shape s s' a :
  shape (mem s') a = shape (mem s) a → entry s' a = entry s a.
Proof.
  unfold shape, entry. destruct (mem s' !! a), (mem s !! a); simpl; congruence.
Qed.

Lemma entry_shape_Some s a kk vv h :
  shape (mem s) a = Some (kk, vv, h) → entry s a = Some (kk, vv).
Proof.
  unfold shape, entry. destruct (mem s !! a); simpl; [|done].
  by intros [= <- <- _].
Qed.

Lemma pair_lt_le_trans m k v a b :
  pair_le m a b → pair_lt m k v b = true → pair_lt m k v a = true.
Proof.
  unfold pair_le, pair_lt. intros Hle Hlt.
  apply orb_prop in Hlt as [H|[H1 H2]%andb_prop].
  - apply bool_decide_eq_true in H. apply orb_true_intro. left.
    apply bool_decide_eq_true. lia.
  - apply bool_decide_eq_true in H1, H2.
    destruct (decide (keyof m a < k)).
    + apply orb_true_intro. left. by apply bool_decide_eq_true.
    + apply orb_true_intro. right. apply andb_true_intro.
      split; apply bool_decide_eq_true; lia.
Qed.

Lemma pair_lt_le_false m k v a b :
  pair_le m a b → pair_lt m k v a = false → pair_lt m k v b = false.
Proof.
  intros Hle Ha. destruct (pair_lt m k v b) eqn:Hb; [|done].
  by rewrite (pair_lt_le_trans m k v a b Hle Hb) in Ha.
Qed.

(** On a chain sorted by pairs the stop of [insert] separates the pairs
    below the new one from the others. *)
Lemma ins_split_sorted m k v hd A B :
  StronglySorted (pair_le m) (A ++ B) →
  ins_split (pair_lt m k v) hd (A ++ B) A B →
  Forall (λ a, pair_lt m k v a = true) A
  ∧ Forall (λ a, ¬ pair_lt m k v a = true) B.
Proof.
  intros Hs (_ & HA & HB). split.
  - apply StronglySorted_app_1_l in Hs.
    destruct A as [|a A']; [constructor|]. destruct HA as [|HA]; [done|].
    simpl in HA. destruct (endof_snoc_inv a A') as [A0 HA0].
    rewrite HA0 in Hs |- *.
    apply Forall_app. split; [|by repeat constructor].
    apply Forall_forall. intros b Hb.
    pose proof (StronglySorted_app_1_elem_of _ _ _ b (endof a A') Hs Hb) as H.
    eapply pair_lt_le_trans; [apply H; left|done].
  - apply StronglySorted_app_1_r in Hs.
    destruct B as [|b B']; [constructor|].
    apply StronglySorted_inv in Hs as [_ Hall]. constructor.
    + by rewrite HB.
    + eapply Forall_impl; [exact Hall|]. simpl. intros x Hx.
      by rewrite (pair_lt_le_false m k v b x Hx HB).
Qed.

(** [insert] into a container without nodes: the new node alone, on the
    levels below its height. *)
Lemma insert_into_empty s k v rd :
  represents s (λ _, []) → in_KeyType k →
  (spec_height rd MAX_LEVEL ≤ head_levels s)%nat →
  ∃ s1, insert k v rd s = Some (0, s1)
    ∧ ∀ i, level_entries s1 i
           = if decide (i < head_levels s)%nat
             then Some (if decide (i < spec_height rd MAX_LEVEL)%nat
                        then [(k, v)] else [])
             else None.
Proof.
  intros Hrep Hk Hfit.
  destruct (insert_spec s _ k v rd Hrep Hk Hfit)
    as (s1 & node & sp & Hins & Hnode & Hrep1 & Hsp & _ & Hhd & Hnew & Hsame).
  exists s1. split; [done|]. intros i.
  assert (head_ s ≠ node) as Hne.
  { intros Heq. eapply (node_not_elem s _ Hrep node Hnode O). rewrite Heq. left. }
  assert (head_levels s1 = head_levels s) as Hlev.
  { apply head_levels_shape; [done|]. by apply Hsame. }
  destruct (shape_key_value _ _ _ _ _ Hnew) as [Hkn Hvn].
  case_decide as Hi.
  - rewrite (level_entries_rep _ _ _ Hrep1) by lia. f_equal.
    unfold inserted. case_decide as Hl; [|done].
    destruct (Hsp i Hl) as (Hnil & _). symmetry in Hnil.
    apply app_eq_nil in Hnil as [-> ->]. simpl. by rewrite Hkn, Hvn.
  - apply (level_entries_out _ _ _ Hrep1). lia.
Qed.

(** The memory of a container without nodes: the head sentinel alone, all
    its links null. *)
Lemma represents_empty_mem s :
  represents s (λ _, []) →
  mem s = {[head_ s := mkNode KeyType_min (valueof (mem s) (head_ s))
                         (replicate (head_levels s) None)]}.
Proof.
  intros Hrep. destruct (rep_head_live _ _ Hrep) as (hn & Hhn & Hk & Hlen).
  apply map_eq. intros a. destruct (decide (a = head_ s)) as [->|Hne].
  - rewrite lookup_singleton_eq, Hhn. f_equal.
    rewrite (valueof_lookup _ _ _ Hhn). destruct hn as [kk vv l].
    simpl in *. subst kk. f_equal. apply list_eq. intros i.
    destruct (decide (i < head_levels s)%nat) as [Hi|Hi].
    + destruct (rep_chain _ _ Hrep i Hi) as (_ & z & Hz & ->).
      unfold link in Hz. rewrite Hhn in Hz. simpl in Hz.
      rewrite Hz. symmetry. by apply lookup_replicate_2.
    + rewrite lookup_ge_None_2 by lia. symmetry.
      apply lookup_ge_None_2. rewrite length_replicate. lia.
  - rewrite lookup_singleton_ne by done.
    destruct (mem s !! a) as [nd|] eqn:Ha; [|done].
    pose proof (rep_dom _ _ Hrep a ltac:(eauto)) as Hin.
    apply list_elem_of_singleton in Hin. done.
Qed.

Lemma l_head_7_ins_reachable : reachable l_head_7_ins.
Proof.
  eapply reach_insert;
    [apply l_head_7_reachable|apply in_KeyType_min|apply l_head_7_ins_eq].
Qed.

Lemma set_value_head_levels s p nd v :
  mem s !! p = Some nd →
  head_levels (mkSkipList (maxLevel_ s) (head_ s) (comparator_ s)
                 (<[p := mkNode (key nd) v (level nd)]> (mem s)))
  = head_levels s.
Proof.
  intros Hp. unfold head_levels. simpl.
  destruct (decide (p = head_ s)) as [->|Hne].
  - by rewrite lookup_insert_eq, Hp.
  - by rewrite lookup_insert_ne.
Qed.

(** The head sentinel keeps the links the constructor gave it: fewer than
    2^31. *)
Lemma reachable_levels s : reachable s → Z.of_nat (head_levels s) < 2 ^ 31.
Proof.
  induction 1 as [n s Hnew|s k v rd r s' Hs IH Hk Hins
                 |s k v r s' Hs IH Hup|s k r s' Hs IH Hrem
                 |s s' Hs IH Hcl].
  - by destruct (SkipList_new_levels _ _ _ Hnew).
  - destruct (reachable_wf _ Hs) as [Ls Hrep].
    destruct (decide (spec_height rd MAX_LEVEL ≤ head_levels s)%nat) as [Hl|Hl].
    + destruct (insert_spec s Ls k v rd Hrep Hk Hl)
        as (s1 & node & sp & Heq & Hnode & _ & _ & _ & Hhd & _ & Hold).
      rewrite Heq in Hins. injection Hins as _ <-.
      rewrite (head_levels_shape s s1); [done..|]. apply Hold. intros Heq'.
      eapply (node_not_elem s Ls Hrep node Hnode O). rewrite <- Heq'. left.
    + rewrite (insert_overflow s Ls k v rd Hrep) in Hins by lia. done.
  - destruct (reachable_wf _ Hs) as [Ls Hrep].
    pose proof (update_spec s Ls k v Hrep) as Hspec. simpl in Hspec.
    case_decide.
    + destruct Hspec as (nd & Hnd & Hup1).
      rewrite Hup1 in Hup. injection Hup as _ <-.
      by rewrite set_value_head_levels.
    + rewrite Hspec in Hup. by injection Hup as _ <-.
  - destruct (reachable_wf _ Hs) as [Ls Hrep].
    pose proof (remove_spec s Ls k Hrep) as Hspec. simpl in Hspec.
    destruct (List.find _ (Ls O)) as [x|] eqn:Hfind.
    + destruct Hspec as (s1 & Heq & _ & _ & Hhd & _ & Hsh).
      rewrite Heq in Hrem. injection Hrem as _ <-.
      apply find_Some_elem in Hfind as [Hxin _].
      rewrite (head_levels_shape s s1); [done..|]. apply Hsh. intros Heq'.
      rewrite <- Heq' in Hxin.
      by pose proof (rep_nodup _ _ Hrep) as [? _]%NoDup_cons.
    + rewrite Hspec in Hrem. by injection Hrem as _ <-.
  - destruct (reachable_wf _ Hs) as [Ls Hrep].
    destruct (decide (0 < head_levels s)%nat) as [H0|H0].
    + destruct (clear_spec s Ls Hrep H0) as (s1 & Heq & _ & _ & Hhd & Hsh).
      rewrite Heq in Hcl. injection Hcl as <-.
      by rewrite (head_levels_shape s s1).
    + rewrite (clear_no_level s Ls Hrep) in Hcl by lia. done.
Qed.

(** ** The pairs after [insert] *)

Lemma pairs_ext m m' (l : list addr) :
  (∀ a, a ∈ l → shape m' a = shape m a) →
  (λ a, (keyof m' a, valueof m' a)) <$> l
  = (λ a, (keyof m a, valueof m a)) <$> l.
Proof.
  intros H. apply list_fmap_ext. intros j a Ha.
  apply list_elem_of_lookup_2 in Ha.
  by rewrite (shape_keyof m m'), (shape_valueof m m') by auto.
Qed.

(** The pairs of every level after [insert], from those before. *)
Lemma insert_pairs s Ls k v rd :
  represents s Ls → in_KeyType k →
  let lvl := spec_height rd MAX_LEVEL in
  let g := λ a, (keyof (mem s) a, valueof (mem s) a) in
  (lvl ≤ head_levels s)%nat →
  ∃ s' node sp,
    insert k v rd s = Some (0, s')
    ∧ represents s' (inserted Ls sp lvl node)
    ∧ (∀ j, (j < lvl)%nat →
         ins_split (pair_lt (mem s) k v) (head_ s) (Ls j) (sp j).1 (sp j).2)
    ∧ maxLevel_ s' = Nat.max (maxLevel_ s) lvl
    ∧ head_ s' = head_ s
    ∧ head_levels s' = head_levels s
    ∧ (∀ a, shape (mem s') a
            = if decide (a = node) then Some (k, v, lvl) else shape (mem s) a)
    ∧ mem s !! node = None
    ∧ ∀ j, (λ a, (keyof (mem s') a, valueof (mem s') a))
             <$> inserted Ls sp lvl node j
           = if decide (j < lvl)%nat
             then (g <$> (sp j).1) ++ (k, v) :: (g <$> (sp j).2)
             else g <$> Ls j.
Proof.
  intros Hrep Hk lvl g Hfit.
  destruct (insert_spec s Ls k v rd Hrep Hk Hfit)
    as (s' & node & sp & Hins & Hnode & Hrep' & Hsp & Hmax & Hhd & Hnew & Hold).
  fold lvl in Hrep', Hsp, Hmax, Hnew.
  exists s', node, sp.
  assert (head_ s ≠ node) as Hne.
  { intros Heq. eapply (node_not_elem s Ls Hrep node Hnode O).
    rewrite Heq. left. }
  assert (∀ j a, a ∈ Ls j → a ≠ node) as Hfresh.
  { intros j a Ha ->. eapply (node_not_elem s Ls Hrep node Hnode j).
    by right. }
  destruct (shape_key_value _ _ _ _ _ Hnew) as [Hkn Hvn].
  split; [done|]. split; [done|]. split; [done|]. split; [done|].
  split; [done|]. split; [by apply head_levels_shape; [|apply Hold]|].
  split; [|split; [done|]].
  - intros a. destruct (decide (a = node)) as [->|Ha]; [done|by apply Hold].
  - intros j. unfold inserted. destruct (decide (j < lvl)%nat) as [Hj|Hj].
    + destruct (Hsp j Hj) as (HL & _).
      rewrite fmap_app, fmap_cons, Hkn, Hvn. f_equal; [|f_equal].
      * apply pairs_ext. intros a Ha. apply Hold, (Hfresh j).
        rewrite HL. apply elem_of_app. by left.
      * apply pairs_ext. intros a Ha. apply Hold, (Hfresh j).
        rewrite HL. apply elem_of_app. by right.
    + apply pairs_ext. intros a Ha. by apply Hold, (Hfresh j).
Qed.

Lemma built_reachable s : built s → reachable s.
Proof.
  induction 1.
  - by eapply reach_new.
  - by eapply reach_insert.
  - by eapply reach_remove.
  - by eapply reach_clear.
Qed.

(** ** The first operations, with any comparator *)

Lemma head_links_length n a b : length (head_links n a b) = n.
Proof. unfold head_links. by rewrite length_fmap, length_seq. Qed.

Lemma head_links_lookup n a b i :
  (i < n)%nat →
  head_links n a b !! i
  = Some (if decide (a ≤ i < b)%nat then Some 2%positive else None).
Proof.
  intros Hi. unfold head_links. by rewrite list_lookup_fmap, lookup_seq_lt.
Qed.

Lemma head_links_insert n a b a' b' i x :
  (i < n)%nat →
  x = (if decide (a' ≤ i < b')%nat then Some 2%positive else None) →
  (∀ j, j ≠ i → (a ≤ j < b)%nat ↔ (a' ≤ j < b')%nat) →
  <[i := x]> (head_links n a b) = head_links n a' b'.
Proof.
  intros Hi -> Hiff. apply list_eq. intros j.
  destruct (decide (j < n)%nat) as [Hj|Hj].
  - rewrite (head_links_lookup n a' b') by done.
    destruct (decide (i = j)) as [->|Hne].
    + by rewrite list_lookup_insert_eq by (by rewrite head_links_length).
    + rewrite list_lookup_insert_ne, head_links_lookup by done. f_equal.
      specialize (Hiff j ltac:(done)).
      destruct (decide (a ≤ j < b)%nat), (decide (a' ≤ j < b')%nat); tauto.
  - rewrite !lookup_ge_None_2; [done|..];
      rewrite ?length_insert, head_links_length; lia.
Qed.

Lemma head_links_none n a b :
  (b ≤ a)%nat → head_links n a b = replicate n None.
Proof.
  intros Hab. apply list_eq. intros j.
  destruct (decide (j < n)%nat) as [Hj|Hj].
  - rewrite head_links_lookup, lookup_replicate_2 by done.
    by rewrite decide_False by lia.
  - rewrite !lookup_ge_None_2; [done|..];
      rewrite ?length_replicate, ?head_links_length; lia.
Qed.

Section one_pair.
Context (cmp : comparator) (n lvl : nat) (k v : Z).
Context (Hlvl : (lvl ≤ n)%nat).

Lemma one_pair_head a b :
  one_pair_mem n lvl a b k v !! 1%positive
  = Some (mkNode KeyType_min ValueType_min (head_links n a b)).
Proof. unfold one_pair_mem. by rewrite lookup_insert_eq. Qed.

Lemma one_pair_node a b :
  one_pair_mem n lvl a b k v !! 2%positive
  = Some (mkNode k v (replicate lvl None)).
Proof.
  unfold one_pair_mem. rewrite lookup_insert_ne by done.
  by rewrite lookup_singleton_eq.
Qed.

Lemma one_pair_size a b : size (one_pair_mem n lvl a b k v) = 2%nat.
Proof.
  unfold one_pair_mem. rewrite map_size_insert_None.
  - by rewrite map_size_singleton.
  - by rewrite lookup_singleton_ne.
Qed.

Lemma one_pair_link_head a b i :
  (i < n)%nat →
  link (one_pair_mem n lvl a b k v) 1 i
  = Some (if decide (a ≤ i < b)%nat then Some 2%positive else None).
Proof.
  intros Hi. unfold link. rewrite one_pair_head. simpl.
  by apply head_links_lookup.
Qed.

Lemma one_pair_link_node a b i :
  (i < lvl)%nat → link (one_pair_mem n lvl a b k v) 2 i = Some None.
Proof.
  intros Hi. unfold link. rewrite one_pair_node. simpl.
  by apply lookup_replicate_2.
Qed.

Lemma one_pair_set_head a b a' b' i x :
  (i < n)%nat →
  x = (if decide (a' ≤ i < b')%nat then Some 2%positive else None) →
  (∀ j, j ≠ i → (a ≤ j < b)%nat ↔ (a' ≤ j < b')%nat) →
  set_link (one_pair_mem n lvl a b k v) 1 i x
  = Some (one_pair_mem n lvl a' b' k v).
Proof.
  intros Hi Hx Hiff. unfold set_link. rewrite one_pair_head. simpl.
  rewrite decide_True by (by rewrite head_links_length). f_equal.
  unfold one_pair_mem. rewrite insert_insert_eq.
  by rewrite (head_links_insert n a b a' b').
Qed.

Lemma one_pair_set_node a b i :
  (i < lvl)%nat →
  set_link (one_pair_mem n lvl a b k v) 2 i None
  = Some (one_pair_mem n lvl a b k v).
Proof.
  intros Hi. unfold set_link. rewrite one_pair_node. simpl.
  rewrite decide_True by (by rewrite length_replicate). f_equal.
  rewrite insert_replicate. apply insert_id, one_pair_node.
Qed.

(** The loop of [insert] on the new container: no comparison is made. *)
Lemma one_pair_insert_loop fuel j :
  (j ≤ lvl)%nat →
  insert_loop (S fuel) cmp k v lvl 2 (one_pair_mem n lvl j lvl k v) j 1
  = Some (one_pair_mem n lvl 0 lvl k v).
Proof.
  induction j as [|i IH]; intros Hj; [done|].
  cbn [insert_loop advance].
  rewrite one_pair_link_head by lia. rewrite decide_False by lia.
  cbn [mbind option_bind]. rewrite decide_True by lia.
  rewrite one_pair_link_head by lia. rewrite decide_False by lia.
  cbn [mbind option_bind]. rewrite one_pair_set_node by lia.
  cbn [mbind option_bind].
  rewrite (one_pair_set_head _ _ i lvl);
    [|lia|by rewrite decide_True by lia|intros; lia].
  cbn [mbind option_bind]. apply IH. lia.
Qed.

(** The loop of [searchNode] for a key [k'] the comparator holds equal to
    [k]: it ends on the node. *)
Lemma one_pair_search_node fuel k' j :
  (j ≤ lvl)%nat →
  searchNode_loop (S fuel) cmp k' (one_pair_mem n lvl 0 lvl k v) j 2 = Some 2%positive.
Proof.
  induction j as [|i IH]; intros Hj; [done|].
  cbn [searchNode_loop advance]. rewrite one_pair_link_node by lia.
  cbn [mbind option_bind]. apply IH. lia.
Qed.

Lemma one_pair_search_head fuel k' j :
  cmp k k' = 0 → (1 ≤ j ≤ lvl)%nat →
  searchNode_loop (S (S fuel)) cmp k' (one_pair_mem n lvl 0 lvl k v) j 1
  = Some 2%positive.
Proof.
  intros Hcmp Hj. destruct j as [|i]; [lia|].
  cbn [searchNode_loop advance]. rewrite one_pair_link_head by lia.
  rewrite decide_True by lia. cbn [mbind option_bind].
  rewrite one_pair_node. cbn [mbind option_bind].
  unfold search_cond at 1. cbn [key]. rewrite Hcmp. cbn [Z.leb Z.compare].
  rewrite one_pair_link_node by lia. cbn [mbind option_bind].
  apply one_pair_search_node. lia.
Qed.

(** The loop of [remove] for such a key: it unlinks the node on every
    level. *)
Lemma one_pair_remove_loop fuel k' j del val :
  cmp k k' = 0 → (1 ≤ j ≤ lvl)%nat →
  remove_loop (S fuel) cmp k' (one_pair_mem n lvl 0 j k v) j 1 del val
  = Some (one_pair_mem n lvl 0 0 k v, Some 2%positive, v).
Proof.
  intros Hcmp. revert del val. induction j as [|i IH]; intros del val Hj; [lia|].
  cbn [remove_loop advance]. rewrite one_pair_link_head by lia.
  rewrite decide_True by lia. cbn [mbind option_bind].
  rewrite one_pair_node. cbn [mbind option_bind].
  unfold remove_cond at 1. cbn [key]. rewrite Hcmp. cbn [Z.ltb Z.compare].
  cbn [mbind option_bind]. rewrite one_pair_link_head by lia.
  rewrite decide_True by lia. cbn [mbind option_bind].
  rewrite one_pair_node. cbn [mbind option_bind key]. rewrite Hcmp.
  cbn [Z.eqb level value]. rewrite lookup_replicate_2 by lia.
  cbn [mbind option_bind].
  rewrite (one_pair_set_head _ _ 0 i);
    [|lia|by rewrite decide_False by lia|intros; lia].
  cbn [mbind option_bind]. destruct i as [|i']; [done|]. apply IH. lia.
Qed.

End one_pair.

Lemma fresh_after_head (nd : Node) :
  fresh (dom ({[1%positive := nd]} : heap)) = 2%positive.
Proof. rewrite dom_singleton_L. reflexivity. Qed.

(** The first [insert] into a container with any comparator. *)
Lemma insert_first cmp n k v rd :
  (spec_height rd MAX_LEVEL ≤ n)%nat →
  insert k v rd
    (mkSkipList 0 1 cmp
       {[1%positive := mkNode KeyType_min ValueType_min (replicate n None)]})
  = Some (0, mkSkipList (spec_height rd MAX_LEVEL) 1 cmp
               (one_pair_mem n (spec_height rd MAX_LEVEL) 0
                  (spec_height rd MAX_LEVEL) k v)).
Proof.
  intros Hfit.
  pose proof (spec_height_range rd MAX_LEVEL ltac:(unfold MAX_LEVEL; lia))
    as Hlvl.
  unfold insert. rewrite randomLevel_spec by (unfold MAX_LEVEL; lia).
  cbn [mbind option_bind maxLevel_ mem head_ comparator_].
  rewrite decide_True by lia. unfold createNode. rewrite fresh_after_head.
  set (lvl := spec_height rd MAX_LEVEL) in *.
  assert (<[2%positive := mkNode k v (replicate lvl None)]>
            ({[1%positive := mkNode KeyType_min ValueType_min
                               (replicate n None)]} : heap)
          = one_pair_mem n lvl lvl lvl k v) as ->.
  { unfold one_pair_mem. rewrite head_links_none by lia.
    rewrite <- !insert_empty. by apply insert_insert_ne. }
  unfold steps. rewrite (one_pair_insert_loop cmp n lvl k v Hfit) by lia.
  done.
Qed.

Lemma link_out (m : heap) p i nd :
  m !! p = Some nd → (length (level nd) ≤ i)%nat → link m p i = None.
Proof.
  intros Hp Hi. unfold link. rewrite Hp. simpl. by apply lookup_ge_None_2.
Qed.

(** [insert] into the new container when the height drawn is above the
    links of the head sentinel: the first link read is out of bounds. *)
Lemma insert_first_overflow cmp n k v rd :
  (n < spec_height rd MAX_LEVEL)%nat →
  insert k v rd
    (mkSkipList 0 1 cmp
       {[1%positive := mkNode KeyType_min ValueType_min (replicate n None)]})
  = None.
Proof.
  intros Hlt. unfold insert.
  rewrite randomLevel_spec by (unfold MAX_LEVEL; lia).
  cbn [mbind option_bind maxLevel_ mem head_ comparator_].
  rewrite decide_True by lia. unfold createNode. rewrite fresh_after_head.
  destruct (spec_height rd MAX_LEVEL) as [|i] eqn:Hh; [lia|].
  unfold steps. cbn [insert_loop advance].
  erewrite link_out; [done| |].
  - rewrite lookup_insert_ne by done. apply lookup_singleton_eq.
  - simpl. rewrite length_replicate. lia.
Qed.

(** [clear] on the new container: it reads the link of level 0. *)
Lemma clear_new cmp n :
  clear (mkSkipList 0 1 cmp
           {[1%positive := mkNode KeyType_min ValueType_min
                             (replicate n None)]})
  = if decide (0 < n)%nat
    then Some (mkSkipList 0 1 cmp
                 {[1%positive := mkNode KeyType_min ValueType_min
                                   (replicate n None)]})
    else None.
Proof.
  unfold clear, steps. cbn [clear_loop mem head_ maxLevel_ comparator_].
  unfold link. rewrite lookup_singleton_eq. cbn [mbind option_bind level].
  case_decide as Hn.
  - by rewrite lookup_replicate_2 by lia.
  - rewrite lookup_ge_None_2; [done|]. rewrite length_replicate. lia.
Qed.

(** Without [update] the head sentinel keeps the value the constructor gave
    it. *)
Lemma built_head_value s :
  built s → valueof (mem s) (head_ s) = ValueType_min.
Proof.
  induction 1 as [n s Hnew|s k v rd r s' Hs IH Hk Hins
                 |s k r s' Hs IH Hrem|s s' Hs IH Hcl].
  - apply SkipList_new_Some in Hnew as [_ ->].
    unfold valueof. simpl. by rewrite lookup_insert_eq.
  - destruct (reachable_wf _ (built_reachable _ Hs)) as [Ls Hrep].
    destruct (decide (spec_height rd MAX_LEVEL ≤ head_levels s)%nat) as [Hl|Hl].
    + destruct (insert_pairs s Ls k v rd Hrep Hk Hl)
        as (s1 & node & sp & Heq & _ & _ & _ & Hhd & _ & Hsh & Hnode & _).
      rewrite Heq in Hins. injection Hins as _ <-.
      rewrite Hhd, (shape_valueof (mem s) (mem s1)); [done|].
      rewrite Hsh. rewrite decide_False; [done|]. intros Heq'.
      eapply (node_not_elem s Ls Hrep node Hnode O). rewrite <- Heq'. left.
    + rewrite (insert_overflow s Ls k v rd Hrep) in Hins by lia. done.
  - destruct (reachable_wf _ (built_reachable _ Hs)) as [Ls Hrep].
    pose proof (remove_spec s Ls k Hrep) as Hspec. simpl in Hspec.
    destruct (List.find _ (Ls O)) as [x|] eqn:Hfind.
    + destruct Hspec as (s1 & Heq & _ & _ & Hhd & _ & Hsh).
      rewrite Heq in Hrem. injection Hrem as _ <-.
      apply find_Some_elem in Hfind as [Hxin _].
      rewrite Hhd, (shape_valueof (mem s) (mem s1)); [done|].
      apply Hsh. intros Heq'. rewrite <- Heq' in Hxin.
      by pose proof (rep_nodup _ _ Hrep) as [? _]%NoDup_cons.
    + rewrite Hspec in Hrem. by injection Hrem as _ <-.
  - destruct (reachable_wf _ (built_reachable _ Hs)) as [Ls Hrep].
    destruct (decide (0 < head_levels s)%nat) as [H0|H0].
    + destruct (clear_spec s Ls Hrep H0) as (s1 & Heq & _ & _ & Hhd & Hsh).
      rewrite Heq in Hcl. injection Hcl as <-.
      by rewrite Hhd, (shape_valueof (mem s) (mem s1)).
    + rewrite (clear_no_level s Ls Hrep) in Hcl by lia. done.
Qed.

(** A run of inserts stays within the reachable states. *)
Lemma insert_all_reachable kws : ∀ s s',
  reachable s → Forall (λ kw, in_KeyType kw.1) kws →
  insert_all kws s = Some s' → reachable s'.
Proof.
  induction kws as [|[k rd] kws IH]; intros s s' Hs Hall Hrun; simpl in Hrun.
  - by injection Hrun as <-.
  - apply Forall_cons in Hall as [Hk Hall].
    destruct (insert k k rd s) as [[r s1]|] eqn:Hins; [|done].
    simpl in Hrun. eapply IH; [|done..]. by eapply reach_insert.
Qed.

Lemma l_one_level_reachable : reachable l_one_level.
Proof. by apply (reach_new 1). Qed.

Lemma l_one_level_6_reachable : reachable l_one_level_6.
Proof.
  apply (insert_all_reachable
           [(1, mt_word_1); (2, mt_word_2); (3, mt_word_3);
            (4, mt_word_4); (5, mt_word_5); (6, mt_word_6)] l_one_level).
  - apply l_one_level_reachable.
  - repeat constructor; unfold in_KeyType, KeyType_min, int_max; simpl; lia.
  - vm_compute. reflexivity.
Qed.

(** * The claims *)

(** ** C1: where [insert] puts a pair *)

(** C1, as stated, fails: the container holds the node 2 with the pair
    (5, 1); [insert(5, 1)] creates the node 3 and puts it before the node 2,
    whose key is equal and whose value 1 is less than or equal to the new
    value 1. *)
Lemma insert_equal_pair_counterexample :
  reachable l_5_1
  ∧ level_nodes l_5_1 0 = Some [2%positive]
  ∧ entry l_5_1 2 = Some (5, 1)
  ∧ insert 5 1 mt_word_2 l_5_1 = Some (0, l_5_1_twice)
  ∧ level_nodes l_5_1_twice 0 = Some [3%positive; 2%positive]
  ∧ entry l_5_1_twice 3 = Some (5, 1)
  ∧ entry l_5_1_twice 2 = Some (5, 1).
Proof.
  split; [apply l_5_1_reachable|]. split; [reflexivity|]. split; [reflexivity|].
  split; [apply l_5_1_twice_eq|]. by repeat split.
Qed.

(** C1, amended. For every container state whose stored pairs are in the
    order of (key, value), inserting a pair, with a height drawn within the
    container's maximum level, places the new node after all existing
    entries whose pair is strictly less, so after the equal-key entries
    whose value is less than the new value, and before all others, so
    before the equal-key entries whose value is equal or greater; no entry
    is dropped or changed. *)
Theorem insert_position s k v rd old :
  reachable s → in_KeyType k →
  (spec_height rd MAX_LEVEL ≤ head_levels s)%nat →
  level_nodes s 0 = Some old →
  StronglySorted (pair_le (mem s)) old →
  ∃ s' node,
    insert k v rd s = Some (0, s')
    ∧ (node ∉ old)
    ∧ entry s' node = Some (k, v)
    ∧ (∀ a, a ∈ old → entry s' a = entry s a)
    ∧ level_nodes s' 0
      = Some (filter (λ a, pair_lt (mem s) k v a = true) old
              ++ node :: filter (λ a, ¬ pair_lt (mem s) k v a = true) old).
Proof.
  intros [Ls Hrep]%reachable_wf Hk Hfit Hold Hsort.
  pose proof (spec_height_range rd MAX_LEVEL ltac:(unfold MAX_LEVEL; lia))
    as Hlvl.
  rewrite (level_nodes_rep _ _ _ Hrep) in Hold by lia.
  injection Hold as <-.
  destruct (insert_spec s Ls k v rd Hrep Hk Hfit)
    as (s' & node & sp & Hins & Hnode & Hrep' & Hsp & _ & Hhd & Hnew & Hsame).
  assert (head_levels s' = head_levels s) as Hlev.
  { apply head_levels_shape; [done|]. apply Hsame. intros Heq.
    eapply (node_not_elem s Ls Hrep node Hnode O). rewrite <- Heq. left. }
  pose proof (Hsp O ltac:(lia)) as Hsp0. pose proof Hsp0 as (HL0 & _).
  assert (∀ a, a ∈ Ls O → a ≠ node) as Hne.
  { intros a Ha ->. eapply (node_not_elem s Ls Hrep node Hnode O). by right. }
  exists s', node. split; [done|]. split; [|split; [|split]].
  - intros Hin. by eapply Hne.
  - by eapply entry_shape_Some.
  - intros a Ha. apply entry_shape, Hsame. by apply Hne.
  - rewrite (level_nodes_rep _ _ _ Hrep') by lia.
    unfold inserted. rewrite decide_True by lia. f_equal.
    rewrite HL0 in Hsort, Hsp0.
    destruct (ins_split_sorted _ _ _ _ _ _ Hsort Hsp0) as [HA HB].
    rewrite HL0, !filter_app.
    rewrite (filter_all _ (sp O).1) by done.
    rewrite (filter_none _ (sp O).2) by done.
    rewrite (filter_all _ (sp O).2) by done.
    rewrite (filter_none (λ a, ¬ pair_lt (mem s) k v a = true) (sp O).1).
    + by rewrite app_nil_r.
    + eapply Forall_impl; [exact HA|]. simpl. tauto.
Qed.

Lemma insert_position_witness :
  ∃ s' node,
    insert 5 2 mt_word_2 l_5_1 = Some (0, s')
    ∧ (node ∉ [2%positive])
    ∧ entry s' node = Some (5, 2)
    ∧ (∀ a, a ∈ [2%positive] → entry s' a = entry l_5_1 a)
    ∧ level_nodes s' 0
      = Some (filter (λ a, pair_lt (mem l_5_1) 5 2 a = true) [2%positive]
              ++ node
                 :: filter (λ a, ¬ pair_lt (mem l_5_1) 5 2 a = true)
                      [2%positive]).
Proof.
  apply (insert_position l_5_1 5 2 mt_word_2 [2%positive]).
  - apply l_5_1_reachable.
  - apply in_KeyType_5.
  - vm_compute. lia.
  - reflexivity.
  - repeat constructor.
Defined.

(** ** C2: [insert], [remove], [search] *)

(** C2, as stated, fails: after [update(INT_MIN, 7)] on the new container
    the key [INT_MIN] is not stored; [insert(INT_MIN, 1)] and then
    [remove(INT_MIN)] returns 1, and the [search(INT_MIN)] that follows
    returns 7, not the absent sentinel. *)
Lemma insert_remove_search_counterexample :
  reachable l_head_7
  ∧ ¬ stored l_head_7 KeyType_min
  ∧ insert KeyType_min 1 mt_word_1 l_head_7 = Some (0, l_head_7_ins)
  ∧ remove KeyType_min l_head_7_ins = Some (1, l_head_7_ins_rem)
  ∧ search KeyType_min l_head_7_ins_rem = Some 7
  ∧ 7 ≠ ValueType_min.
Proof.
  split; [apply l_head_7_reachable|]. split.
  { apply (not_stored_entries _ []); [reflexivity|]. simpl. apply not_elem_of_nil. }
  split; [apply l_head_7_ins_eq|]. split; [apply l_head_7_ins_rem_eq|].
  split; [reflexivity|done].
Qed.

(** C2, amended. For every key [K] and every value [V], if [K] is not
    stored in the container and the height drawn for the new node is within
    the container's maximum level, then after [insert(K, V)], [remove(K)]
    returns [V], and a subsequent [search(K)] reports absent, except that
    for the key type's minimum it returns the value of the head sentinel:
    that is the absent value too, unless an [update] has overwritten it,
    so in every container on which [update] was never called. *)
Theorem insert_remove_search s K V rd :
  reachable s → in_KeyType K → ¬ stored s K →
  (spec_height rd MAX_LEVEL ≤ head_levels s)%nat →
  ∃ s1 s2,
    insert K V rd s = Some (0, s1)
    ∧ remove K s1 = Some (V, s2)
    ∧ search K s2
      = Some (if decide (K = KeyType_min)
              then valueof (mem s) (head_ s) else ValueType_min)
    ∧ (built s → search K s2 = Some ValueType_min).
Proof.
  intros [Ls Hrep]%reachable_wf HK Hns Hfit.
  pose proof (not_stored_rep _ _ _ Hrep Hns) as Hno.
  destruct (insert_spec s Ls K V rd Hrep HK Hfit)
    as (s1 & node & sp & Hins & Hnode & Hrep1 & Hsp & _ & Hhd1 & Hnew & Hold).
  pose proof (spec_height_range rd MAX_LEVEL ltac:(unfold MAX_LEVEL; lia))
    as Hlvl.
  destruct (Hsp O ltac:(lia)) as (HL0 & _).
  destruct (shape_key_value _ _ _ _ _ Hnew) as [Hkn Hvn].
  assert (∀ a, a ∈ Ls O → a ≠ node) as Hne.
  { intros a Ha ->. eapply (node_not_elem s Ls Hrep node Hnode O). by right. }
  assert (head_ s ≠ node) as Hnh.
  { intros Heq. eapply (node_not_elem s Ls Hrep node Hnode O).
    rewrite <- Heq. left. }
  assert (∀ a, a ∈ Ls O → keyof (mem s1) a ≠ K) as Hno1.
  { intros a Ha. rewrite (shape_keyof (mem s) (mem s1)) by (apply Hold; auto).
    by apply Hno. }
  set (c := λ a, bool_decide (keyof (mem s1) a = K)).
  assert (inserted Ls sp (spec_height rd MAX_LEVEL) node O
          = (sp O).1 ++ node :: (sp O).2) as HL1.
  { unfold inserted. by rewrite decide_True by lia. }
  assert (Forall (λ a, c a = false) (Ls O)) as Hc.
  { apply Forall_forall. intros a Ha. apply bool_decide_eq_false. by apply Hno1. }
  rewrite HL0 in Hc. apply Forall_app in Hc as [HcA HcB].
  assert (c node = true) as Hcn by (by apply bool_decide_eq_true).
  pose proof (remove_spec s1 _ K Hrep1) as Hrem. simpl in Hrem. fold c in Hrem.
  rewrite HL1, find_app_none in Hrem by done. simpl in Hrem.
  rewrite Hcn in Hrem.
  destruct Hrem as (s2 & Hrem & Hrep2 & _ & Hhd2 & _ & Hold2).
  assert (∀ a, a ∈ del_first c (inserted Ls sp (spec_height rd MAX_LEVEL) node O)
               → keyof (mem s2) a ≠ K) as Hno2.
  { simpl. rewrite HL1, del_first_app by done. rewrite <- HL0. intros a Ha.
    rewrite (shape_keyof (mem s1) (mem s2)) by (apply Hold2; auto).
    by apply Hno1. }
  assert (valueof (mem s2) (head_ s2) = valueof (mem s) (head_ s)) as Hhv.
  { rewrite Hhd2, Hhd1.
    rewrite (shape_valueof (mem s1) (mem s2)) by (by apply Hold2).
    by rewrite (shape_valueof (mem s) (mem s1)) by (by apply Hold). }
  assert (search K s2
          = Some (if decide (K = KeyType_min)
                  then valueof (mem s) (head_ s) else ValueType_min)) as Hsearch.
  { rewrite (search_spec _ _ Hrep2). cbv zeta.
    destruct (decide (K = KeyType_min)) as [Hmin|Hmin].
    - rewrite (search_pos_min s2 _ Hrep2 K Hmin Hno2).
      rewrite decide_True; [by rewrite Hhv|]. rewrite Hmin. apply Hrep2.
    - rewrite decide_False; [done|]. by apply (search_pos_absent _ _ Hrep2). }
  exists s1, s2. split; [done|]. split; [by rewrite Hrem, Hvn|].
  split; [done|]. intros Hb. rewrite Hsearch.
  rewrite (built_head_value _ Hb). by case_decide.
Qed.

Lemma insert_remove_search_witness :
  ∃ s1 s2,
    insert KeyType_min 1 mt_word_1 l_head_7 = Some (0, s1)
    ∧ remove KeyType_min s1 = Some (1, s2)
    ∧ search KeyType_min s2
      = Some (if decide (KeyType_min = KeyType_min)
              then valueof (mem l_head_7) (head_ l_head_7) else ValueType_min)
    ∧ (built l_head_7 → search KeyType_min s2 = Some ValueType_min).
Proof.
  apply (insert_remove_search l_head_7 KeyType_min 1 mt_word_1).
  - apply l_head_7_reachable.
  - apply in_KeyType_min.
  - apply (not_stored_entries _ []); [reflexivity|]. simpl. apply not_elem_of_nil.
  - vm_compute. lia.
Defined.

(** ** C3: the status of [update] *)

(** C3, as stated, fails: on the new container, where no node with any key
    is stored, [update(INT_MIN, 7)] reports success. *)
Lemma update_min_key_counterexample :
  reachable l_new
  ∧ entries l_new = Some []
  ∧ update KeyType_min 7 l_new = Some (0, l_head_7)
  ∧ search KeyType_min l_head_7 = Some 7.
Proof.
  split; [apply l_new_reachable|]. split; [reflexivity|].
  split; [apply l_head_7_eq|reflexivity].
Qed.

(** C3, amended. For every key [K], [update(K, V)] reports success (0) if
    and only if a node with key [K] is stored or [K] is the key type's
    minimum, the key of the head sentinel; it then overwrites the value of
    the matched node in place and [search(K)] afterwards returns [V].
    Otherwise it returns the status code 1 and changes nothing. *)
Theorem update_status s K V :
  reachable s →
  ∃ r s',
    update K V s = Some (r, s')
    ∧ (r = 0 ↔ stored s K ∨ K = KeyType_min)
    ∧ (r = 0 →
       ∃ p nd,
         mem s !! p = Some nd ∧ key nd = K
         ∧ s' = mkSkipList (maxLevel_ s) (head_ s) (comparator_ s)
                  (<[p := mkNode K V (level nd)]> (mem s))
         ∧ search K s' = Some V)
    ∧ (r ≠ 0 → r = 1 ∧ s' = s).
Proof.
  intros [Ls Hrep]%reachable_wf.
  pose proof (search_pos_hit s Ls K Hrep) as Hhit.
  destruct (decide (keyof (mem s) (search_pos (mem s) (head_ s) K (Ls O)) = K))
    as [Hk|Hk].
  - destruct (update_hit s Ls K V Hrep Hk)
      as (p & nd & s' & _ & Hnd & Hknd & Hs' & Hup & _ & _ & Hsearch).
    exists 0, s'. split; [done|]. split; [tauto|]. split; [eauto 10|done].
  - pose proof (update_spec s Ls K V Hrep) as Hspec. simpl in Hspec.
    rewrite decide_False in Hspec by done.
    exists 1, s. split; [done|]. split; [|split; [done|done]].
    split; [done|]. intros H. by apply Hhit in H.
Qed.

Lemma update_status_witness :
  ∃ r s',
    update 5 9 l_5_1 = Some (r, s')
    ∧ (r = 0 ↔ stored l_5_1 5 ∨ 5 = KeyType_min)
    ∧ (r = 0 →
       ∃ p nd,
         mem l_5_1 !! p = Some nd ∧ key nd = 5
         ∧ s' = mkSkipList (maxLevel_ l_5_1) (head_ l_5_1) (comparator_ l_5_1)
                  (<[p := mkNode 5 9 (level nd)]> (mem l_5_1))
         ∧ search 5 s' = Some 9)
    ∧ (r ≠ 0 → r = 1 ∧ s' = l_5_1).
Proof. apply (update_status l_5_1 5 9). apply l_5_1_reachable. Defined.

(** ** C4: [search] for a key that is not stored *)

(** C4, as stated, fails: after [update(INT_MIN, 7)] on the new container no
    key is stored, and [search(INT_MIN)] returns 7, not the absent
    sentinel. *)
Lemma search_absent_min_key_counterexample :
  reachable l_head_7
  ∧ entries l_head_7 = Some []
  ∧ ¬ stored l_head_7 KeyType_min
  ∧ search KeyType_min l_head_7 = Some 7
  ∧ 7 ≠ ValueType_min.
Proof.
  split; [apply l_head_7_reachable|]. split; [reflexivity|].
  split; [|split; [reflexivity|done]].
  apply (not_stored_entries _ []); [reflexivity|]. simpl. apply not_elem_of_nil.
Qed.

(** C4, amended. For every key [K] not stored in the container, [search(K)]
    returns the absent sentinel, the value type's minimum, when [K] is not
    the key type's minimum; for the key type's minimum it returns the value
    held by the head sentinel.  On the container as constructed every
    search, so [search(99)], returns the absent sentinel. *)
Theorem search_absent_key s K :
  reachable s → ¬ stored s K →
  search K s = Some (if decide (K = KeyType_min)
                     then valueof (mem s) (head_ s) else ValueType_min)
  ∧ (∀ n, SkipList_new n DefaultComparator = Some s →
       search K s = Some ValueType_min ∧ search 99 s = Some ValueType_min).
Proof.
  intros Hreach Hns.
  pose proof (search_not_stored s K Hreach Hns) as HK.
  split; [done|]. intros n Hnew.
  assert (valueof (mem s) (head_ s) = ValueType_min) as Hv.
  { apply SkipList_new_Some in Hnew as [_ ->].
    unfold valueof. simpl. by rewrite lookup_insert_eq. }
  split.
  - rewrite HK, Hv. by case_decide.
  - by apply SkipList_new_Some in Hnew as [_ ->].
Qed.

Lemma search_absent_key_witness :
  search 99 l_new
  = Some (if decide (99 = KeyType_min)
          then valueof (mem l_new) (head_ l_new) else ValueType_min)
  ∧ (∀ n, SkipList_new n DefaultComparator = Some l_new →
       search 99 l_new = Some ValueType_min
       ∧ search 99 l_new = Some ValueType_min).
Proof.
  apply (search_absent_key l_new 99).
  - apply l_new_reachable.
  - apply (not_stored_entries _ []); [reflexivity|]. simpl. apply not_elem_of_nil.
Defined.

(** ** C5: [clear] *)

(** C5, as stated, fails: after [update(INT_MIN, 7)] and
    [insert(INT_MIN, 1)], [clear()] empties the container, and the
    [search(INT_MIN)] that follows returns 7, not the absent sentinel. *)
Lemma clear_search_counterexample :
  reachable l_head_7_ins
  ∧ clear l_head_7_ins = Some l_head_7_cleared
  ∧ entries l_head_7_cleared = Some []
  ∧ search KeyType_min l_head_7_cleared = Some 7
  ∧ 7 ≠ ValueType_min.
Proof.
  split; [apply l_head_7_ins_reachable|]. split; [by vm_compute|].
  by repeat split.
Qed.

(** C5, amended. For every state of a container with a positive maximum
    level, after [clear()] returns, every forward link of the head sentinel,
    on every level up to the configured maximum, is null, and the head
    sentinel is the only node left; every subsequent search for a key other
    than the key type's minimum reports absent, and a search for the key
    type's minimum returns the value the head sentinel held before; a second
    [clear()] changes nothing; and an insert, with a height drawn within the
    maximum level, gives, level by level, the entries it gives on a freshly
    constructed container. *)
Theorem clear_resets s :
  reachable s → (0 < head_levels s)%nat →
  ∃ s', clear s = Some s'
    ∧ head_levels s' = head_levels s
    ∧ mem s' = {[head_ s' := mkNode KeyType_min (valueof (mem s) (head_ s))
                              (replicate (head_levels s) None)]}
    ∧ (∀ i, (i < head_levels s')%nat →
         link (mem s') (head_ s') i = Some None)
    ∧ (∀ K, search K s'
            = Some (if decide (K = KeyType_min)
                    then valueof (mem s) (head_ s) else ValueType_min))
    ∧ clear s' = Some s'
    ∧ (∀ k v rd s0,
         in_KeyType k →
         (spec_height rd MAX_LEVEL ≤ head_levels s)%nat →
         SkipList_new (head_levels s) DefaultComparator = Some s0 →
         ∃ s1 s1',
           insert k v rd s' = Some (0, s1)
           ∧ insert k v rd s0 = Some (0, s1')
           ∧ ∀ i, level_entries s1 i = level_entries s1' i).
Proof.
  intros Hreach H0. pose proof (reachable_levels _ Hreach) as Hint.
  destruct (reachable_wf _ Hreach) as [Ls Hrep].
  destruct (clear_spec s Ls Hrep H0) as (s' & Hcl & Hrep' & _ & Hhd & Hsh).
  assert (head_levels s' = head_levels s) as Hlev.
  { by apply head_levels_shape. }
  exists s'. split; [done|]. split; [done|]. split; [|split; [|split; [|split]]].
  - rewrite (represents_empty_mem s' Hrep') at 1. rewrite Hlev, Hhd.
    by rewrite (shape_valueof (mem s) (mem s')).
  - intros i Hi. by destruct (rep_chain _ _ Hrep' i Hi) as (_ & z & -> & ->).
  - intros K. rewrite (search_spec _ _ Hrep'). unfold search_pos. simpl.
    rewrite (rep_head_key _ _ Hrep'). rewrite Hhd.
    rewrite (shape_valueof (mem s) (mem s')) by done.
    destruct (decide (K = KeyType_min)) as [->|HK].
    + by rewrite decide_True.
    + by rewrite decide_False.
  - apply clear_empty; [done|lia].
  - intros k v rd s0 Hk Hfit Hnew.
    pose proof (new_represents _ _ Hnew) as Hrep0.
    assert (head_levels s0 = head_levels s) as Hlev0.
    { destruct (SkipList_new_levels _ _ _ Hnew) as [Hl0 _].
      rewrite to_int_small in Hl0 by lia. lia. }
    destruct (insert_into_empty s' k v rd Hrep' Hk) as (s1 & Hins1 & Hent1);
      [lia|].
    destruct (insert_into_empty s0 k v rd Hrep0 Hk) as (s1' & Hins0 & Hent0);
      [lia|].
    exists s1, s1'. split; [done|]. split; [done|]. intros i.
    by rewrite Hent1, Hent0, Hlev, Hlev0.
Qed.

Lemma clear_resets_witness :
  ∃ s', clear l_5_1 = Some s'
    ∧ head_levels s' = head_levels l_5_1
    ∧ mem s' = {[head_ s' := mkNode KeyType_min
                              (valueof (mem l_5_1) (head_ l_5_1))
                              (replicate (head_levels l_5_1) None)]}
    ∧ (∀ i, (i < head_levels s')%nat →
         link (mem s') (head_ s') i = Some None)
    ∧ (∀ K, search K s'
            = Some (if decide (K = KeyType_min)
                    then valueof (mem l_5_1) (head_ l_5_1)
                    else ValueType_min))
    ∧ clear s' = Some s'
    ∧ (∀ k v rd s0,
         in_KeyType k →
         (spec_height rd MAX_LEVEL ≤ head_levels l_5_1)%nat →
         SkipList_new (head_levels l_5_1) DefaultComparator = Some s0 →
         ∃ s1 s1',
           insert k v rd s' = Some (0, s1)
           ∧ insert k v rd s0 = Some (0, s1')
           ∧ ∀ i, level_entries s1 i = level_entries s1' i).
Proof.
  apply (clear_resets l_5_1).
  - apply l_5_1_reachable.
  - vm_compute. lia.
Defined.

(** ** C6: the order of the chains *)

(** C6, as stated, fails: after [insert(5, 1)] and [insert(5, 2)] the chain
    of level 0 carries the keys 5, 5, which do not increase strictly. *)
Lemma levels_strictly_sorted_counterexample :
  reachable l_5_1_5_2
  ∧ level_entries l_5_1_5_2 0 = Some [(5, 1); (5, 2)]
  ∧ ¬ StronglySorted Z.lt [(5, 1); (5, 2)].*1.
Proof.
  split; [apply l_5_1_5_2_reachable|]. split; [reflexivity|].
  simpl. intros H. apply StronglySorted_inv in H as [_ H].
  apply Forall_cons in H as [H _]. lia.
Qed.

(** C6, amended. In every state reachable from the freshly constructed
    container by insert, update, remove and clear, the keys along the chain
    of every level never decrease; they increase strictly when no key is
    stored twice. *)
Theorem levels_sorted s i :
  reachable s → (i < head_levels s)%nat →
  ∃ es, level_entries s i = Some es
    ∧ StronglySorted Z.le es.*1
    ∧ (∀ es0, entries s = Some es0 → NoDup es0.*1 → StronglySorted Z.lt es.*1).
Proof.
  intros [Ls Hrep]%reachable_wf Hi. eexists.
  split; [by apply (level_entries_rep _ _ _ Hrep)|].
  rewrite <- list_fmap_compose.
  assert (StronglySorted Z.le (keyof (mem s) <$> Ls i)) as Hs.
  { eapply StronglySorted_fmap; [|apply (rep_sorted_level _ _ Hrep)]. done. }
  split; [done|]. intros es0 Hes0 Hnd. apply StronglySorted_le_lt; [done|].
  rewrite (entries_rep _ _ Hrep) in Hes0 by lia. injection Hes0 as <-.
  rewrite <- list_fmap_compose in Hnd.
  eapply sublist_NoDup; [exact Hnd|].
  apply sublist_fmap_mono, (rep_sub0 _ _ Hrep).
Qed.

Lemma levels_sorted_witness :
  ∃ es, level_entries l_5_1_5_2 0 = Some es
    ∧ StronglySorted Z.le es.*1
    ∧ (∀ es0, entries l_5_1_5_2 = Some es0 → NoDup es0.*1 →
         StronglySorted Z.lt es.*1).
Proof.
  apply (levels_sorted l_5_1_5_2 0).
  - apply l_5_1_5_2_reachable.
  - vm_compute. lia.
Defined.

(** ** C7: the level selector *)

(** C7, on the code.  [insert] calls [randomLevel()] without an argument,
    so the selector caps the height at the constant [MAX_LEVEL], 32, and not
    at the maximum level of the container.  In a program that starts with
    [SkipList<int, int, 1> l;] and inserts seven pairs, the first six words
    of the generator give the height 1; the seventh,
    4635995468481642529, has bit 0 set and bit 1 clear: the selector returns
    2, above the maximum level 1, and [insert] reads the link of level 1 of
    a head sentinel that has one link. *)
Theorem level_selector_exceeds_maximum_level :
  SkipList_new 1 DefaultComparator = Some l_one_level
  ∧ head_levels l_one_level = 1%nat
  ∧ insert_all [(1, mt_word_1); (2, mt_word_2); (3, mt_word_3);
                (4, mt_word_4); (5, mt_word_5); (6, mt_word_6)] l_one_level
    = Some l_one_level_6
  ∧ reachable l_one_level_6
  ∧ entries l_one_level_6
    = Some [(1, 1); (2, 2); (3, 3); (4, 4); (5, 5); (6, 6)]
  ∧ head_levels l_one_level_6 = 1%nat
  ∧ randomLevel mt_word_7 MAX_LEVEL = Some 2%nat
  ∧ insert 7 7 mt_word_7 l_one_level_6 = None.
Proof.
  split; [reflexivity|]. split; [reflexivity|].
  split; [vm_compute; reflexivity|].
  split; [apply l_one_level_6_reachable|].
  split; [vm_compute; reflexivity|]. split; [vm_compute; reflexivity|].
  split; [vm_compute; reflexivity|]. vm_compute. reflexivity.
Qed.

(** ** C8: construction *)

(** C8, as stated, fails: construction with a maximum level of 0 and with a
    comparator that is no order succeeds. *)
Lemma construction_unchecked_counterexample :
  bad_comparator 0 0 ≠ 0
  ∧ SkipList_new 0 bad_comparator
    = Some (mkSkipList 0 1 bad_comparator
              {[1%positive := mkNode KeyType_min ValueType_min []]}).
Proof. split; [done|reflexivity]. Qed.

(** C8, amended. Construction validates nothing.  The count of levels, a
    [size_t], is converted to [int].  When the converted count is not
    negative, so for every count below 2^31, zero included, construction
    succeeds for every comparator, a total order or not, and yields a
    container with tracked level 0 whose only node is the head sentinel,
    with that many null links and the minima as key and value.  A
    container without levels is accepted like any other and fails later:
    the first [insert] has a result exactly when the height drawn is within
    the links of the head sentinel, and [clear] exactly when there is a
    link.  When the converted count is negative, the allocation of the
    links throws inside the [noexcept] [createNode]: the program is
    terminated, whatever the comparator. *)
Theorem construction_validates_nothing n cmp :
  Z.of_nat n < 2 ^ 64 →
  let links := Z.of_nat n `mod` 2 ^ 32 in
  (links < 2 ^ 31 →
   ∃ s, SkipList_new n cmp = Some s
     ∧ maxLevel_ s = 0%nat
     ∧ comparator_ s = cmp
     ∧ mem s = {[head_ s := mkNode KeyType_min ValueType_min
                              (replicate (Z.to_nat links) None)]}
     ∧ (∀ k v rd, is_Some (insert k v rd s)
                  ↔ (spec_height rd MAX_LEVEL ≤ Z.to_nat links)%nat)
     ∧ (is_Some (clear s) ↔ 0 < links))
  ∧ (2 ^ 31 ≤ links → SkipList_new n cmp = None).
Proof.
  intros _ links. pose proof (to_int_mod (Z.of_nat n)) as Hconv.
  fold links in Hconv.
  pose proof (Z.mod_pos_bound (Z.of_nat n) (2 ^ 32) ltac:(lia)) as Hr.
  fold links in Hr. split.
  - intros Hlt. rewrite decide_True in Hconv by done.
    eexists. split.
    { apply SkipList_new_Some. split; [lia|reflexivity]. }
    rewrite Hconv, insert_empty. cbn [maxLevel_ comparator_ mem head_].
    split; [done|]. split; [done|]. split; [done|]. split.
    + intros k v rd. split.
      * intros [x Hx].
        destruct (decide (spec_height rd MAX_LEVEL ≤ Z.to_nat links)%nat)
          as [Hfit|Hfit]; [done|].
        rewrite insert_first_overflow in Hx by lia. done.
      * intros Hfit. rewrite insert_first by done. eauto.
    + rewrite clear_new. case_decide as Hn.
      * split; [lia|eauto].
      * split; [by intros [? ?]|lia].
  - intros Hge. apply SkipList_new_None.
    rewrite decide_False in Hconv by lia. lia.
Qed.

Lemma construction_validates_nothing_witness :
  (0 `mod` 2 ^ 32 < 2 ^ 31 →
   ∃ s, SkipList_new 0 bad_comparator = Some s
     ∧ maxLevel_ s = 0%nat
     ∧ comparator_ s = bad_comparator
     ∧ mem s = {[head_ s := mkNode KeyType_min ValueType_min
                              (replicate (Z.to_nat (0 `mod` 2 ^ 32)) None)]}
     ∧ (∀ k v rd, is_Some (insert k v rd s)
                  ↔ (spec_height rd MAX_LEVEL
                     ≤ Z.to_nat (0 `mod` 2 ^ 32))%nat)
     ∧ (is_Some (clear s) ↔ 0 < 0 `mod` 2 ^ 32))
  ∧ (2 ^ 31 ≤ 0 `mod` 2 ^ 32 → SkipList_new 0 bad_comparator = None).
Proof. apply (construction_validates_nothing 0 bad_comparator). lia. Defined.

(** ** C9: the head sentinel answers for the minimum key *)

(** C9. Whenever no node stores the key [numeric_limits<KeyType>::min()],
    as on an empty container, [searchNode] for that key matches the head
    sentinel: [search] returns the value the head holds, which is
    [numeric_limits<ValueType>::min()] on the container as constructed, and
    [update] for that key reports success and overwrites the head's value. *)
Theorem head_matches_min_key s V :
  reachable s → ¬ stored s KeyType_min →
  searchNode KeyType_min s = Some (Some (head_ s))
  ∧ search KeyType_min s = Some (valueof (mem s) (head_ s))
  ∧ (∃ hn s',
       mem s !! head_ s = Some hn
       ∧ update KeyType_min V s = Some (0, s')
       ∧ s' = mkSkipList (maxLevel_ s) (head_ s) (comparator_ s)
                (<[head_ s := mkNode KeyType_min V (level hn)]> (mem s))
       ∧ search KeyType_min s' = Some V)
  ∧ (∀ n, SkipList_new n DefaultComparator = Some s →
       valueof (mem s) (head_ s) = ValueType_min).
Proof.
  intros [Ls Hrep]%reachable_wf Hns.
  pose proof (not_stored_rep _ _ _ Hrep Hns) as Hno.
  pose proof (search_pos_min s Ls Hrep KeyType_min eq_refl Hno) as Hpos.
  pose proof (rep_head_key _ _ Hrep) as Hkey.
  split; [|split; [|split]].
  - rewrite (searchNode_spec _ _ Hrep). simpl. rewrite Hpos.
    by rewrite decide_True.
  - rewrite (search_spec _ _ Hrep). simpl. rewrite Hpos.
    by rewrite decide_True.
  - destruct (update_hit s Ls KeyType_min V Hrep)
      as (p & nd & s' & Hp & Hnd & Hk & Hs' & Hup & _ & _ & Hsearch).
    { by rewrite Hpos. }
    rewrite Hpos in Hp. subst p. eauto 10.
  - intros n [_ ->]%SkipList_new_Some.
    unfold valueof. simpl. by rewrite lookup_insert_eq.
Qed.

Lemma head_matches_min_key_witness :
  searchNode KeyType_min l_new = Some (Some (head_ l_new))
  ∧ search KeyType_min l_new = Some (valueof (mem l_new) (head_ l_new))
  ∧ (∃ hn s',
       mem l_new !! head_ l_new = Some hn
       ∧ update KeyType_min 7 l_new = Some (0, s')
       ∧ s' = mkSkipList (maxLevel_ l_new) (head_ l_new) (comparator_ l_new)
                (<[head_ l_new := mkNode KeyType_min 7 (level hn)]> (mem l_new))
       ∧ search KeyType_min s' = Some 7)
  ∧ (∀ n, SkipList_new n DefaultComparator = Some l_new →
       valueof (mem l_new) (head_ l_new) = ValueType_min).
Proof.
  apply (head_matches_min_key l_new 7).
  - apply l_new_reachable.
  - apply (not_stored_entries _ []); [reflexivity|]. simpl. apply not_elem_of_nil.
Defined.

(** ** C10: [remove] of a key that is not stored *)

(** C10. For every key [K] with no stored node whose key equals [K],
    [remove(K)] returns [ValueType(-1)], which is not the value-type minimum
    that [search] returns for an absent key, and leaves the container, every
    node and every forward link of it, as it was. *)
Theorem remove_absent_key s K :
  reachable s → ¬ stored s K →
  remove K s = Some (-1, s)
  ∧ -1 ≠ ValueType_min
  ∧ (K ≠ KeyType_min → search K s = Some ValueType_min).
Proof.
  intros [Ls Hrep]%reachable_wf Hns.
  pose proof (not_stored_rep _ _ _ Hrep Hns) as Hno.
  split; [|split; [done|]].
  - pose proof (remove_spec s Ls K Hrep) as Hspec. simpl in Hspec.
    rewrite find_none in Hspec; [done|].
    apply Forall_forall. intros a Ha. apply bool_decide_eq_false. by apply Hno.
  - intros HK. rewrite (search_spec _ _ Hrep). simpl.
    rewrite decide_False; [done|]. by apply search_pos_absent.
Qed.

Lemma remove_absent_key_witness :
  remove 3 l_5_1 = Some (-1, l_5_1)
  ∧ -1 ≠ ValueType_min
  ∧ (3 ≠ KeyType_min → search 3 l_5_1 = Some ValueType_min).
Proof.
  apply (remove_absent_key l_5_1 3).
  - apply l_5_1_reachable.
  - apply (not_stored_entries _ [(5, 1)]); [reflexivity|].
    simpl. intros H%list_elem_of_singleton. lia.
Defined.


(** * Further properties of the operations *)

(** ** Lists of pairs and lists of nodes *)

Lemma filter_fmap_comm {A B} (f : A → B) (P : B → Prop)
    `{!∀ x, Decision (P x)} (l : list A) :
  filter P (f <$> l) = f <$> filter (λ a, P (f a)) l.
Proof.
  induction l as [|a l IH]; [done|]. rewrite fmap_cons.
  destruct (decide (P (f a))) as [Ha|Ha].
  - rewrite !filter_cons_True by done. rewrite fmap_cons. by f_equal.
  - by rewrite !filter_cons_False by done.
Qed.

Lemma entries_Some_levels s Ls es :
  represents s Ls → entries s = Some es →
  (0 < head_levels s)%nat
  ∧ es = (λ a, (keyof (mem s) a, valueof (mem s) a)) <$> Ls O.
Proof.
  intros Hrep Hes.
  destruct (decide (0 < head_levels s)%nat) as [Hpos|Hpos].
  - split; [done|]. rewrite (entries_rep _ _ Hrep Hpos) in Hes. congruence.
  - unfold entries in Hes.
    rewrite (level_entries_out _ _ _ Hrep) in Hes by lia. done.
Qed.

(** On a chain sorted by key, the descent of [searchNode] for [K] ends at
    the last node with key [K], when there is one. *)
Lemma last_filter_key (f : addr → Z) (K : Z) (hd : addr) (L : list addr) :
  StronglySorted (λ a b, f a ≤ f b) L →
  hd ∉ L →
  endof hd (filter (λ a, f a ≤ K) L) ∈ L →
  f (endof hd (filter (λ a, f a ≤ K) L)) = K →
  ∃ F G, L = F ++ endof hd (filter (λ a, f a ≤ K) L) :: G
    ∧ Forall (λ a, f a ≤ K) F ∧ Forall (λ a, K < f a) G.
Proof.
  intros Hsort Hhd Hin Hk.
  pose proof (sorted_partition (λ a b, f a ≤ f b) (λ a, f a ≤ K) L
                ltac:(simpl; intros; lia) Hsort) as Hpart.
  set (e := endof hd (filter (λ a, f a ≤ K) L)) in *.
  destruct (endof_snoc_inv hd (filter (λ a, f a ≤ K) L)) as [l0 Hl0].
  fold e in Hl0. destruct l0 as [|h F].
  - simpl in Hl0. injection Hl0 as He _. rewrite <- He in Hin. done.
  - simpl in Hl0. injection Hl0 as _ HF.
    exists F, (filter (λ a, ¬ f a ≤ K) L). split; [|split].
    + rewrite Hpart at 1. rewrite HF. by rewrite <- app_assoc.
    + assert (Forall (λ a, f a ≤ K) (filter (λ a, f a ≤ K) L)) as Hall.
      { apply Forall_forall. by intros a [? _]%list_elem_of_filter. }
      rewrite HF in Hall. by apply Forall_app in Hall as [? _].
    + apply Forall_forall. intros a [? _]%list_elem_of_filter. lia.
Qed.

(** [search] reads the last node of level 0 that carries the key; without
    one, the head sentinel answers for its own key. *)
Lemma search_last s Ls K :
  represents s Ls →
  search K s
  = Some (match last (filter (λ a, keyof (mem s) a = K) (Ls O)) with
          | Some a => valueof (mem s) a
          | None => if decide (K = KeyType_min)
                    then valueof (mem s) (head_ s) else ValueType_min
          end).
Proof.
  intros Hrep. rewrite (search_spec _ _ Hrep). simpl. f_equal.
  destruct (stored_dec_rep s Ls K Hrep) as [(a & Ha & Hka)|Hno].
  - destruct (search_pos_stored s Ls Hrep K a Ha Hka) as [Hin Hk].
    rewrite decide_True by done.
    pose proof (rep_nodup _ _ Hrep) as [Hhd _]%NoDup_cons.
    destruct (last_filter_key (keyof (mem s)) K (head_ s) (Ls O)
                (rep_sorted _ _ Hrep) Hhd Hin Hk) as (F & G & HL & _ & HG).
    fold (search_pos (mem s) (head_ s) K (Ls O)) in HL.
    rewrite HL at 2. rewrite filter_app, filter_cons_True by done.
    rewrite (filter_none _ G).
    + by rewrite last_app_cons.
    + eapply Forall_impl; [exact HG|]. simpl. lia.
  - rewrite (filter_none _ (Ls O)).
    2: { apply Forall_forall. intros a Ha. by apply Hno. }
    simpl. destruct (decide (K = KeyType_min)) as [HK|HK].
    + rewrite (search_pos_min s Ls Hrep K HK Hno).
      rewrite decide_True; [done|]. subst K. apply Hrep.
    + rewrite decide_False; [done|]. by apply search_pos_absent.
Qed.

Lemma last_value_nodes m K (L : list addr) :
  last_value K ((λ a, (keyof m a, valueof m a)) <$> L)
  = valueof m <$> last (filter (λ a, keyof m a = K) L).
Proof.
  unfold last_value.
  rewrite (filter_fmap_comm (λ a, (keyof m a, valueof m a)) (λ e, e.1 = K)).
  rewrite fmap_last. by destruct (last _).
Qed.

(** ** [search] on a stored key *)

(** X1. [search(K)] returns the value of the last pair with key [K] in the
    order of level 0; when no pair has the key it returns the value-type
    minimum, or, for the key-type minimum, the value of the head sentinel. *)
Theorem search_last_value s K es :
  reachable s → entries s = Some es →
  search K s
  = Some (match last_value K es with
          | Some v => v
          | None => if decide (K = KeyType_min)
                    then valueof (mem s) (head_ s) else ValueType_min
          end).
Proof.
  intros [Ls Hrep]%reachable_wf Hes.
  destruct (entries_Some_levels _ _ _ Hrep Hes) as [_ ->].
  rewrite (search_last _ _ _ Hrep), last_value_nodes.
  by destruct (last _).
Qed.

Lemma search_last_value_witness :
  search 5 l_5_1_5_2
  = Some (match last_value 5 [(5, 1); (5, 2)] with
          | Some v => v
          | None => if decide (5 = KeyType_min)
                    then valueof (mem l_5_1_5_2) (head_ l_5_1_5_2)
                    else ValueType_min
          end).
Proof.
  apply (search_last_value l_5_1_5_2 5 [(5, 1); (5, 2)]).
  - apply l_5_1_5_2_reachable.
  - reflexivity.
Defined.

(** ** [remove] on any key *)

Lemma del_first_find_none c (l : list addr) :
  List.find c l = None → del_first c l = l.
Proof.
  induction l as [|a l IH]; [done|]. simpl. destruct (c a); [done|].
  intros H. f_equal. by apply IH.
Qed.

Lemma remove_first_nodes m K (L : list addr) :
  remove_first K ((λ a, (keyof m a, valueof m a)) <$> L)
  = (λ a, (keyof m a, valueof m a))
      <$> del_first (λ a, bool_decide (keyof m a = K)) L.
Proof.
  induction L as [|a L IH]; [done|]. rewrite fmap_cons. simpl.
  destruct (decide (keyof m a = K)) as [Ha|Ha].
  - by rewrite bool_decide_eq_true_2.
  - rewrite bool_decide_eq_false_2 by done. rewrite fmap_cons. by f_equal.
Qed.

Lemma first_value_nodes m K (L : list addr) :
  first_value K ((λ a, (keyof m a, valueof m a)) <$> L)
  = valueof m <$> List.find (λ a, bool_decide (keyof m a = K)) L.
Proof.
  unfold first_value. induction L as [|a L IH]; [done|]. rewrite fmap_cons.
  simpl. destruct (decide (keyof m a = K)) as [Ha|Ha].
  - rewrite filter_cons_True by done. by rewrite bool_decide_eq_true_2.
  - rewrite filter_cons_False by done. by rewrite bool_decide_eq_false_2.
Qed.

Lemma level_entries_Some s Ls i es :
  represents s Ls → level_entries s i = Some es →
  (i < head_levels s)%nat
  ∧ es = (λ a, (keyof (mem s) a, valueof (mem s) a)) <$> Ls i.
Proof.
  intros Hrep Hes.
  destruct (decide (i < head_levels s)%nat) as [Hi|Hi].
  - split; [done|]. rewrite (level_entries_rep _ _ _ Hrep Hi) in Hes.
    congruence.
  - rewrite (level_entries_out _ _ _ Hrep) in Hes by lia. done.
Qed.

(** X2. [remove(K)] returns the value of the first pair with key [K] in the
    order of level 0, and -1 when there is none; on every level it unlinks
    the first node of that level with key [K], and nothing else. *)
Theorem remove_first_pair s K es :
  reachable s → entries s = Some es →
  ∃ s',
    remove K s = Some (default (-1) (first_value K es), s')
    ∧ maxLevel_ s' = maxLevel_ s
    ∧ head_levels s' = head_levels s
    ∧ ∀ i es_i, level_entries s i = Some es_i →
        level_entries s' i = Some (remove_first K es_i).
Proof.
  intros [Ls Hrep]%reachable_wf Hes.
  destruct (entries_Some_levels _ _ _ Hrep Hes) as [Hpos ->].
  pose proof (remove_spec s Ls K Hrep) as Hspec. simpl in Hspec.
  rewrite first_value_nodes.
  destruct (List.find _ (Ls O)) as [x|] eqn:Hfind.
  - destruct Hspec as (s' & Hrem & Hrep' & Hmax & Hhd & Hx & Hsh).
    exists s'. split; [done|]. split; [done|].
    apply find_Some_elem in Hfind as [Hxin _].
    assert (head_ s ≠ x) as Hne.
    { intros Heq. rewrite <- Heq in Hxin.
      by pose proof (rep_nodup _ _ Hrep) as [? _]%NoDup_cons. }
    assert (head_levels s' = head_levels s) as Hlev.
    { apply head_levels_shape; [done|]. by apply Hsh. }
    split; [done|]. intros i es_i Hi.
    destruct (level_entries_Some _ _ _ _ Hrep Hi) as [Hlt ->].
    rewrite (level_entries_rep _ _ _ Hrep') by lia. f_equal.
    rewrite remove_first_nodes. apply pairs_ext. intros a Ha.
    apply Hsh. intros ->.
    destruct (rep_live _ _ Hrep' _ _ Ha) as [nd Hnd]. congruence.
  - exists s. split; [done|]. split; [done|]. split; [done|].
    intros i es_i Hi.
    destruct (level_entries_Some _ _ _ _ Hrep Hi) as [Hlt ->].
    rewrite Hi. f_equal. rewrite remove_first_nodes.
    rewrite del_first_find_none; [done|].
    eapply find_sublist_none; [|exact Hfind]. apply (rep_sub0 _ _ Hrep).
Qed.

Lemma remove_first_pair_witness :
  ∃ s',
    remove 5 l_5_1_5_2
    = Some (default (-1) (first_value 5 [(5, 1); (5, 2)]), s')
    ∧ maxLevel_ s' = maxLevel_ l_5_1_5_2
    ∧ head_levels s' = head_levels l_5_1_5_2
    ∧ ∀ i es_i, level_entries l_5_1_5_2 i = Some es_i →
        level_entries s' i = Some (remove_first 5 es_i).
Proof.
  apply (remove_first_pair l_5_1_5_2 5 [(5, 1); (5, 2)]).
  - apply l_5_1_5_2_reachable.
  - reflexivity.
Defined.

(** ** [update] on a stored key *)

Lemma level_nodes_out s Ls i :
  represents s Ls → (head_levels s ≤ i)%nat → level_nodes s i = None.
Proof.
  intros Hrep Hi. destruct (rep_head_live _ _ Hrep) as (hn & Hhn & _ & Hlen).
  unfold level_nodes, link. rewrite Hhn. simpl.
  rewrite lookup_ge_None_2; [done|lia].
Qed.

Lemma level_nodes_same s s' Ls :
  represents s Ls → represents s' Ls → head_levels s' = head_levels s →
  ∀ i, level_nodes s' i = level_nodes s i.
Proof.
  intros Hrep Hrep' Hlev i.
  destruct (decide (i < head_levels s)%nat) as [Hi|Hi].
  - rewrite (level_nodes_rep _ _ _ Hrep), (level_nodes_rep _ _ _ Hrep');
      [done|lia|lia].
  - rewrite (level_nodes_out _ _ _ Hrep), (level_nodes_out _ _ _ Hrep');
      [done|lia|lia].
Qed.

Lemma stored_key_node s Ls K es :
  represents s Ls → entries s = Some es → K ∈ es.*1 →
  ∃ a, a ∈ Ls O ∧ keyof (mem s) a = K.
Proof.
  intros Hrep Hes HK. apply (stored_rep _ _ _ Hrep). by exists es.
Qed.

(** A successful [update] on a stored key, on the pairs of level 0. *)
Lemma update_pairs s Ls K V es :
  represents s Ls → entries s = Some es → K ∈ es.*1 →
  ∃ A v B s',
    es = A ++ (K, v) :: B ∧ (K ∉ B.*1)
    ∧ update K V s = Some (0, s')
    ∧ entries s' = Some (A ++ (K, V) :: B)
    ∧ maxLevel_ s' = maxLevel_ s
    ∧ represents s' Ls
    ∧ head_levels s' = head_levels s.
Proof.
  intros Hrep Hes HK.
  destruct (stored_key_node _ _ _ _ Hrep Hes HK) as (a & Ha & Hka).
  destruct (entries_Some_levels _ _ _ Hrep Hes) as [Hpos ->].
  destruct (search_pos_stored s Ls Hrep K a Ha Hka) as [Hin Hk].
  pose proof (rep_nodup _ _ Hrep) as [Hhd Hnd]%NoDup_cons.
  destruct (last_filter_key (keyof (mem s)) K (head_ s) (Ls O)
              (rep_sorted _ _ Hrep) Hhd Hin Hk) as (F & G & HL & _ & HG).
  fold (search_pos (mem s) (head_ s) K (Ls O)) in HL.
  destruct (update_hit s Ls K V Hrep Hk)
    as (p & nd & s' & Hp & Hnd' & Hknd & Hs' & Hup & Hrep' & _ & _).
  rewrite <- Hp in HL. clear Hp Hin Hk a Ha Hka. subst K.
  set (g := λ a, (keyof (mem s) a, valueof (mem s) a)).
  exists (g <$> F), (valueof (mem s) p), (g <$> G), s'.
  assert (head_levels s' = head_levels s) as Hlev.
  { apply head_levels_shape; [by rewrite Hs'|]. rewrite Hs'. simpl.
    unfold shape. rewrite lookup_insert_ne; [done|].
    intros ->. apply Hhd. rewrite HL. apply elem_of_app. right. left. }
  rewrite HL in Hnd. apply NoDup_app in Hnd as (_ & HpF & [HpG _]%NoDup_cons).
  assert (keyof (mem s) p = key nd) as HkpK.
  { by rewrite (keyof_lookup _ _ _ Hnd'). }
  split; [|split; [|split; [done|split; [|split; [|done]]]]].
  - rewrite HL, fmap_app, fmap_cons. unfold g at 2. by rewrite HkpK.
  - rewrite <- list_fmap_compose. intros (b & Hb & Hbin)%list_elem_of_fmap.
    rewrite Forall_forall in HG. specialize (HG b Hbin). simpl in Hb. lia.
  - rewrite (entries_rep _ _ Hrep') by lia. f_equal.
    rewrite HL, !fmap_app, !fmap_cons. rewrite Hs'. simpl.
    rewrite (set_value_keyof _ _ nd) by done.
    rewrite (set_value_valueof _ _ nd) by done.
    rewrite decide_True by done. rewrite HkpK. f_equal; [|f_equal].
    + apply list_fmap_ext. intros j b Hb. apply list_elem_of_lookup_2 in Hb.
      rewrite (set_value_keyof _ _ nd), (set_value_valueof _ _ nd) by done.
      rewrite decide_False; [done|]. intros ->. apply (HpF p); [done|left].
    + apply list_fmap_ext. intros j b Hb. apply list_elem_of_lookup_2 in Hb.
      rewrite (set_value_keyof _ _ nd), (set_value_valueof _ _ nd) by done.
      rewrite decide_False; [done|]. by intros ->.
  - by rewrite Hs'.
Qed.

(** X3. For a key [K] that some pair carries, [update(K, V)] returns 0 and
    overwrites the value of the last pair with key [K] in the order of
    level 0; every other pair, and the chain of nodes of every level, stay
    as they are. *)
Theorem update_last_pair s K V es :
  reachable s → entries s = Some es → K ∈ es.*1 →
  ∃ A v B s',
    es = A ++ (K, v) :: B ∧ (K ∉ B.*1)
    ∧ update K V s = Some (0, s')
    ∧ entries s' = Some (A ++ (K, V) :: B)
    ∧ maxLevel_ s' = maxLevel_ s
    ∧ ∀ i, level_nodes s' i = level_nodes s i.
Proof.
  intros [Ls Hrep]%reachable_wf Hes HK.
  destruct (update_pairs s Ls K V es Hrep Hes HK)
    as (A & v & B & s' & HA & HB & Hup & Hes' & Hmax & Hrep' & Hlev).
  exists A, v, B, s'. split; [done|]. split; [done|]. split; [done|].
  split; [done|]. split; [done|]. by apply (level_nodes_same s s' Ls).
Qed.

Lemma update_last_pair_witness :
  ∃ A v B s',
    [(5, 1); (5, 2)] = A ++ (5, v) :: B ∧ (5 ∉ B.*1)
    ∧ update 5 9 l_5_1_5_2 = Some (0, s')
    ∧ entries s' = Some (A ++ (5, 9) :: B)
    ∧ maxLevel_ s' = maxLevel_ l_5_1_5_2
    ∧ ∀ i, level_nodes s' i = level_nodes l_5_1_5_2 i.
Proof.
  apply (update_last_pair l_5_1_5_2 5 9 [(5, 1); (5, 2)]).
  - apply l_5_1_5_2_reachable.
  - reflexivity.
  - simpl. left.
Defined.

(** ** [insert] in any state *)

Lemma last_endof (hd : addr) (A : list addr) :
  A ≠ [] → last A = Some (endof hd A).
Proof.
  revert hd. induction A as [|a A IH]; [done|]. intros hd _.
  destruct A as [|b A]; [done|]. simpl in *. by apply (IH a).
Qed.

Lemma pair_lt_before m k v a :
  pair_lt m k v a = true ↔ pair_before k v (keyof m a, valueof m a).
Proof.
  unfold pair_lt, pair_before. simpl.
  rewrite orb_true_iff, andb_true_iff, !bool_decide_eq_true. tauto.
Qed.

(** X4. In every state, also one in which [update] has left the values of
    equal keys out of order, [insert(k, v)] returns 0 and adds the pair to
    the pairs of level 0, which it keeps in their order: the pairs before
    the new one have keys at most [k] and the last of them comes before
    [(k, v)] in the order of (key, value); the pairs after it have keys at
    least [k] and the first of them does not come before [(k, v)]. *)
Theorem insert_adds_pair s k v rd es :
  reachable s → in_KeyType k → entries s = Some es →
  (spec_height rd MAX_LEVEL ≤ head_levels s)%nat →
  ∃ A B s',
    es = A ++ B
    ∧ insert k v rd s = Some (0, s')
    ∧ entries s' = Some (A ++ (k, v) :: B)
    ∧ Forall (λ e, e.1 ≤ k) A
    ∧ Forall (λ e, k ≤ e.1) B
    ∧ match last A with Some e => pair_before k v e | None => True end
    ∧ match B with e :: _ => ¬ pair_before k v e | [] => True end.
Proof.
  intros [Ls Hrep]%reachable_wf Hk Hes Hfit.
  destruct (entries_Some_levels _ _ _ Hrep Hes) as [Hpos ->].
  destruct (insert_pairs s Ls k v rd Hrep Hk Hfit)
    as (s' & node & sp & Hins & Hrep' & Hsp & _ & _ & Hlev & _ & _ & Hpairs).
  pose proof (spec_height_range rd MAX_LEVEL ltac:(unfold MAX_LEVEL; lia))
    as Hlvl.
  specialize (Hsp O ltac:(lia)). specialize (Hpairs O).
  rewrite decide_True in Hpairs by lia.
  destruct (ins_split_bounds _ _ _ _ _ _ _ (rep_sorted _ _ Hrep) Hsp)
    as [HA HB].
  destruct Hsp as (HL & Hlast & Hfirst).
  set (g := λ a, (keyof (mem s) a, valueof (mem s) a)) in *.
  exists (g <$> (sp O).1), (g <$> (sp O).2), s'.
  split; [by rewrite HL at 1; rewrite fmap_app|]. split; [done|].
  split; [by rewrite (entries_rep _ _ Hrep') by lia; rewrite Hpairs|].
  split; [by apply Forall_fmap|]. split; [by apply Forall_fmap|]. split.
  - rewrite fmap_last. destruct Hlast as [->|Hlast]; [done|].
    destruct (decide ((sp O).1 = [])) as [->|Hne]; [done|].
    rewrite (last_endof (head_ s)) by done. simpl.
    by apply pair_lt_before.
  - destruct (sp O).2 as [|b B]; [done|]. rewrite fmap_cons.
    intros Hb%pair_lt_before. congruence.
Qed.

Lemma insert_adds_pair_witness :
  ∃ A B s',
    [(5, 1)] = A ++ B
    ∧ insert 5 2 mt_word_2 l_5_1 = Some (0, s')
    ∧ entries s' = Some (A ++ (5, 2) :: B)
    ∧ Forall (λ e, e.1 ≤ 5) A
    ∧ Forall (λ e, 5 ≤ e.1) B
    ∧ match last A with Some e => pair_before 5 2 e | None => True end
    ∧ match B with e :: _ => ¬ pair_before 5 2 e | [] => True end.
Proof.
  apply (insert_adds_pair l_5_1 5 2 mt_word_2 [(5, 1)]).
  - apply l_5_1_reachable.
  - apply in_KeyType_5.
  - reflexivity.
  - vm_compute. lia.
Defined.

(** X5. The node [insert] creates is linked into the levels below its
    height, one plus the index of the first zero bit of the random word, and
    into no other: those levels get the pair, the levels above keep their
    pairs, and the tracked level becomes the larger of itself and the
    height. *)
Theorem insert_levels s k v rd :
  reachable s → in_KeyType k →
  (spec_height rd MAX_LEVEL ≤ head_levels s)%nat →
  ∃ s',
    insert k v rd s = Some (0, s')
    ∧ maxLevel_ s' = Nat.max (maxLevel_ s) (spec_height rd MAX_LEVEL)
    ∧ head_levels s' = head_levels s
    ∧ ∀ i es_i, level_entries s i = Some es_i →
        if decide (i < spec_height rd MAX_LEVEL)%nat
        then ∃ A B,
               es_i = A ++ B ∧ level_entries s' i = Some (A ++ (k, v) :: B)
        else level_entries s' i = Some es_i.
Proof.
  intros [Ls Hrep]%reachable_wf Hk Hfit.
  destruct (insert_pairs s Ls k v rd Hrep Hk Hfit)
    as (s' & node & sp & Hins & Hrep' & Hsp & Hmax & _ & Hlev & _ & _ & Hpairs).
  exists s'. split; [done|]. split; [done|]. split; [done|].
  intros i es_i Hi.
  destruct (level_entries_Some _ _ _ _ Hrep Hi) as [Hlt ->].
  specialize (Hpairs i).
  rewrite (level_entries_rep _ _ _ Hrep') by lia. rewrite Hpairs.
  destruct (decide (i < spec_height rd MAX_LEVEL)%nat) as [Hj|Hj]; [|done].
  destruct (Hsp i Hj) as (HL & _).
  eexists _, _. split; [|done]. rewrite HL at 1. by rewrite fmap_app.
Qed.

Lemma insert_levels_witness :
  ∃ s',
    insert 5 2 3 l_5_1 = Some (0, s')
    ∧ maxLevel_ s' = Nat.max (maxLevel_ l_5_1) (spec_height 3 MAX_LEVEL)
    ∧ head_levels s' = head_levels l_5_1
    ∧ ∀ i es_i, level_entries l_5_1 i = Some es_i →
        if decide (i < spec_height 3 MAX_LEVEL)%nat
        then ∃ A B,
               es_i = A ++ B
               ∧ level_entries s' i = Some (A ++ (5, 2) :: B)
        else level_entries s' i = Some es_i.
Proof.
  apply (insert_levels l_5_1 5 2 3).
  - apply l_5_1_reachable.
  - apply in_KeyType_5.
  - vm_compute. lia.
Defined.

(** ** [search] after the other operations *)

Lemma search_pairs s Ls K :
  represents s Ls →
  search K s
  = Some (match last_value K
                  ((λ a, (keyof (mem s) a, valueof (mem s) a)) <$> Ls O) with
          | Some v => v
          | None => if decide (K = KeyType_min)
                    then valueof (mem s) (head_ s) else ValueType_min
          end).
Proof.
  intros Hrep. rewrite (search_last _ _ _ Hrep), last_value_nodes.
  by destruct (last _).
Qed.

Lemma last_value_hit K V (A B : list (Z * Z)) :
  K ∉ B.*1 → last_value K (A ++ (K, V) :: B) = Some V.
Proof.
  intros HB. unfold last_value.
  rewrite filter_app, filter_cons_True by done.
  rewrite (filter_none _ B); [by rewrite last_snoc|].
  apply Forall_forall. intros e He Hk. apply HB.
  apply list_elem_of_fmap. by exists e.
Qed.

Lemma last_value_other K K' V (A B : list (Z * Z)) :
  K' ≠ K → last_value K' (A ++ (K, V) :: B) = last_value K' (A ++ B).
Proof.
  intros Hne. unfold last_value.
  rewrite !filter_app, filter_cons_False; [done|]. simpl. congruence.
Qed.

Lemma last_value_remove_first K K' (es : list (Z * Z)) :
  K' ≠ K → last_value K' (remove_first K es) = last_value K' es.
Proof.
  intros Hne. unfold last_value. induction es as [|e es IH]; [done|]. simpl.
  destruct (decide (e.1 = K)) as [He|He].
  - rewrite filter_cons_False; [done|]. congruence.
  - destruct (decide (e.1 = K')) as [He'|He'].
    + rewrite !filter_cons_True by done.
      assert (∀ l : list (Z * Z),
                snd <$> last (e :: l)
                = match snd <$> last l with
                  | Some y => Some y
                  | None => Some e.2
                  end) as Hc.
      { intros l. change (e :: l) with ([e] ++ l). rewrite last_app.
        by destruct (last l). }
      by rewrite !Hc, IH.
    + by rewrite !filter_cons_False by done.
Qed.

Lemma insert_Some_fits s Ls k v rd r s' :
  represents s Ls → insert k v rd s = Some (r, s') →
  (spec_height rd MAX_LEVEL ≤ head_levels s)%nat.
Proof.
  intros Hrep Hins.
  destruct (decide (spec_height rd MAX_LEVEL ≤ head_levels s)%nat) as [H|H];
    [done|].
  rewrite (insert_overflow s Ls k v rd Hrep) in Hins by lia. done.
Qed.

Lemma not_stored_pairs s Ls K (l : list addr) :
  represents s Ls → ¬ stored s K → (∀ a, a ∈ l → a ∈ Ls O) →
  K ∉ ((λ a, (keyof (mem s) a, valueof (mem s) a)) <$> l).*1.
Proof.
  intros Hrep Hns Hl. rewrite <- list_fmap_compose.
  intros (a & Ha & Hin)%list_elem_of_fmap. simpl in Ha.
  by eapply (not_stored_rep _ _ _ Hrep Hns a); [apply Hl|].
Qed.

(** X6. After [insert(K, V)] of a key that no pair carried, the key-type
    minimum included, [search(K)] returns [V]. *)
Theorem insert_then_search s K V rd :
  reachable s → in_KeyType K → ¬ stored s K →
  (spec_height rd MAX_LEVEL ≤ head_levels s)%nat →
  ∃ s', insert K V rd s = Some (0, s')
    ∧ search K s' = Some V
    ∧ stored s' K.
Proof.
  intros [Ls Hrep]%reachable_wf HK Hns Hfit.
  destruct (insert_pairs s Ls K V rd Hrep HK Hfit)
    as (s' & node & sp & Hins & Hrep' & Hsp & _ & _ & Hlev & _ & _ & Hpairs).
  pose proof (spec_height_range rd MAX_LEVEL ltac:(unfold MAX_LEVEL; lia))
    as Hlvl.
  destruct (Hsp O ltac:(lia)) as (HL & _). specialize (Hpairs O).
  rewrite decide_True in Hpairs by lia.
  exists s'. split; [done|]. split.
  - rewrite (search_pairs _ _ _ Hrep'), Hpairs.
    rewrite last_value_hit; [done|].
    apply (not_stored_pairs s Ls); [done..|].
    intros a Ha. rewrite HL. apply elem_of_app. by right.
  - eexists. split; [rewrite (entries_rep _ _ Hrep') by lia; by rewrite Hpairs|].
    rewrite fmap_app, fmap_cons. apply elem_of_app. right. left.
Qed.

Lemma insert_then_search_witness :
  ∃ s', insert KeyType_min 4 mt_word_2 l_5_1 = Some (0, s')
    ∧ search KeyType_min s' = Some 4
    ∧ stored s' KeyType_min.
Proof.
  apply (insert_then_search l_5_1 KeyType_min 4 mt_word_2).
  - apply l_5_1_reachable.
  - apply in_KeyType_min.
  - apply (not_stored_entries _ [(5, 1)]); [reflexivity|].
    simpl. intros H%list_elem_of_singleton. done.
  - vm_compute. lia.
Defined.

(** X7. An [insert], an [update] or a [remove] on the key [K] leaves the
    result of [search] for every other key as it was. *)
Theorem search_other_key s s' K K' :
  reachable s →
  (∃ v rd r, in_KeyType K ∧ insert K v rd s = Some (r, s'))
  ∨ (∃ v r, update K v s = Some (r, s'))
  ∨ (∃ r, remove K s = Some (r, s')) →
  K' ≠ K →
  search K' s' = search K' s.
Proof.
  intros [Ls Hrep]%reachable_wf Hop Hne.
  destruct Hop as [(v & rd & r & HK & Hins)|[(v & r & Hup)|(r & Hrem)]].
  - pose proof (insert_Some_fits _ _ _ _ _ _ _ Hrep Hins) as Hfit.
    destruct (insert_pairs s Ls K v rd Hrep HK Hfit)
      as (s1 & node & sp & Hins1 & Hrep1 & Hsp & _ & Hhd & _ & Hsh & Hnode
          & Hpairs).
    rewrite Hins1 in Hins. injection Hins as _ <-.
    rewrite (search_pairs _ _ _ Hrep1), (search_pairs _ _ _ Hrep).
    assert (head_ s ≠ node) as Hnh.
    { intros Heq. eapply (node_not_elem s Ls Hrep node Hnode O).
      rewrite Heq. left. }
    rewrite Hhd, (shape_valueof (mem s) (mem s1)).
    2: { rewrite Hsh. by rewrite decide_False. }
    specialize (Hpairs O). rewrite Hpairs.
    destruct (decide (0 < spec_height rd MAX_LEVEL)%nat) as [Hj|Hj]; [|done].
    destruct (Hsp O Hj) as (HL & _).
    rewrite last_value_other by done. by rewrite <- fmap_app, <- HL.
  - pose proof (update_spec s Ls K v Hrep) as Hspec. simpl in Hspec.
    pose proof (update_represents _ _ _ _ _ _ Hrep Hup) as Hrep1.
    destruct (decide (keyof (mem s) (search_pos (mem s) (head_ s) K (Ls O))
                      = K)) as [Hk|Hk].
    + destruct Hspec as (nd & Hnd & Hup1).
      rewrite Hup1 in Hup. injection Hup as _ <-.
      rewrite (search_last _ _ _ Hrep1), (search_last _ _ _ Hrep). simpl.
      set (p := search_pos (mem s) (head_ s) K (Ls O)) in *.
      assert (∀ a, keyof (mem s) a ≠ K →
                valueof (<[p := mkNode (key nd) v (level nd)]> (mem s)) a
                = valueof (mem s) a) as Hval.
      { intros a Ha. rewrite (set_value_valueof _ _ nd) by done.
        rewrite decide_False; [done|]. intros ->. done. }
      rewrite (list_filter_iff _ (λ a, keyof (mem s) a = K')).
      2: { intros a. by rewrite (set_value_keyof _ _ nd). }
      destruct (last _) as [a|] eqn:Hlast.
      * f_equal. apply Hval.
        apply last_Some in Hlast as [l' Hl'].
        assert (a ∈ filter (λ a, keyof (mem s) a = K') (Ls O)) as Hin.
        { rewrite Hl'. apply elem_of_app. right. left. }
        apply list_elem_of_filter in Hin as [Hka _]. congruence.
      * destruct (decide (K' = KeyType_min)) as [HK'|HK']; [|done].
        f_equal. apply Hval. rewrite (rep_head_key _ _ Hrep). congruence.
    + rewrite Hspec in Hup. by injection Hup as _ <-.
  - pose proof (remove_spec s Ls K Hrep) as Hspec. simpl in Hspec.
    destruct (List.find _ (Ls O)) as [x|] eqn:Hfind.
    + destruct Hspec as (s1 & Hrem1 & Hrep1 & _ & Hhd & Hx & Hsh).
      rewrite Hrem1 in Hrem. injection Hrem as _ <-.
      apply find_Some_elem in Hfind as [Hxin _].
      assert (head_ s ≠ x) as Hnh.
      { intros Heq. rewrite <- Heq in Hxin.
        by pose proof (rep_nodup _ _ Hrep) as [? _]%NoDup_cons. }
      rewrite (search_pairs _ _ _ Hrep1), (search_pairs _ _ _ Hrep).
      rewrite Hhd, (shape_valueof (mem s) (mem s1)) by (by apply Hsh).
      rewrite (pairs_ext (mem s) (mem s1)).
      2: { intros a Ha. apply Hsh. intros ->.
           destruct (rep_live _ _ Hrep1 _ _ Ha) as [nd Hnd]. congruence. }
      by rewrite <- remove_first_nodes, last_value_remove_first.
    + rewrite Hspec in Hrem. by injection Hrem as _ <-.
Qed.

Lemma search_other_key_witness :
  search 3 l_5_1_5_2 = search 3 l_5_1.
Proof.
  apply (search_other_key l_5_1 l_5_1_5_2 5 3).
  - apply l_5_1_reachable.
  - left. exists 2, mt_word_2, 0. split; [apply in_KeyType_5|].
    apply l_5_1_5_2_eq.
  - lia.
Defined.

(** ** [insert], then [remove] *)

(** X8. [insert(K, V)] of a key that no pair carried, followed by
    [remove(K)], returns [V] and restores the container: every level has
    the pairs it had, in their order, every node its key, value and number
    of links, and the new node is freed.  Only the tracked level stays at
    the larger of its old value and the height of the node. *)
Theorem insert_remove_restores s K V rd :
  reachable s → in_KeyType K → ¬ stored s K →
  (spec_height rd MAX_LEVEL ≤ head_levels s)%nat →
  ∃ s1 s2,
    insert K V rd s = Some (0, s1)
    ∧ remove K s1 = Some (V, s2)
    ∧ (∀ i, level_entries s2 i = level_entries s i)
    ∧ (∀ a, shape (mem s2) a = shape (mem s) a)
    ∧ head_ s2 = head_ s
    ∧ maxLevel_ s2 = Nat.max (maxLevel_ s) (spec_height rd MAX_LEVEL).
Proof.
  intros [Ls Hrep]%reachable_wf HK Hns Hfit.
  pose proof (not_stored_rep _ _ _ Hrep Hns) as Hno.
  destruct (insert_pairs s Ls K V rd Hrep HK Hfit)
    as (s1 & node & sp & Hins & Hrep1 & Hsp & Hmax & Hhd & Hlev & Hsh & Hnode
        & _).
  pose proof (spec_height_range rd MAX_LEVEL ltac:(unfold MAX_LEVEL; lia))
    as Hlvl.
  set (lvl := spec_height rd MAX_LEVEL) in *.
  set (c := λ a, bool_decide (keyof (mem s1) a = K)).
  assert (∀ j a, a ∈ Ls j → a ≠ node) as Hfresh.
  { intros j a Ha ->. eapply (node_not_elem s Ls Hrep node Hnode j).
    by right. }
  assert (shape (mem s1) node = Some (K, V, lvl)) as Hnew.
  { rewrite Hsh. by rewrite decide_True. }
  destruct (shape_key_value _ _ _ _ _ Hnew) as [Hkn Hvn].
  assert (c node = true) as Hcn by (by apply bool_decide_eq_true).
  assert (∀ j, Forall (λ a, c a = false) (Ls j)) as Hc.
  { intros j. apply Forall_forall. intros a Ha. apply bool_decide_eq_false.
    rewrite (shape_keyof (mem s) (mem s1)).
    - apply Hno. eapply sublist_subseteq; [apply (rep_sub0 _ _ Hrep)|done].
    - rewrite Hsh. rewrite decide_False; [done|]. by apply (Hfresh j). }
  assert (∀ j, del_first c (inserted Ls sp lvl node j) = Ls j) as Hdel.
  { intros j. unfold inserted. destruct (decide (j < lvl)%nat) as [Hj|Hj].
    - destruct (Hsp j Hj) as (HL & _). specialize (Hc j). rewrite HL in Hc.
      apply Forall_app in Hc as [HcA HcB].
      rewrite del_first_app by done. by rewrite <- HL.
    - by apply del_first_none. }
  pose proof (remove_spec s1 _ K Hrep1) as Hrem. simpl in Hrem. fold c in Hrem.
  assert (List.find c (inserted Ls sp lvl node O) = Some node) as Hfind.
  { unfold inserted. rewrite decide_True by lia.
    destruct (Hsp O ltac:(lia)) as (HL & _). specialize (Hc O).
    rewrite HL in Hc. apply Forall_app in Hc as [HcA HcB].
    rewrite find_app_none by done. simpl. by rewrite Hcn. }
  rewrite Hfind in Hrem.
  destruct Hrem as (s2 & Hrem & Hrep2 & Hmax2 & Hhd2 & Hx & Hsh2).
  exists s1, s2. split; [done|]. split.
  { by rewrite Hrem, Hvn. }
  assert (∀ a, shape (mem s2) a = shape (mem s) a) as Hshape.
  { intros a. destruct (decide (a = node)) as [->|Ha].
    - unfold shape. by rewrite Hx, Hnode.
    - rewrite Hsh2 by done. rewrite Hsh. by rewrite decide_False. }
  assert (head_levels s2 = head_levels s) as Hlev2.
  { apply head_levels_shape; [congruence|]. apply Hshape. }
  split; [|split; [done|split; [congruence|congruence]]].
  intros i. destruct (decide (i < head_levels s)%nat) as [Hi|Hi].
  - rewrite (level_entries_rep _ _ _ Hrep2) by lia.
    rewrite (level_entries_rep _ _ _ Hrep) by lia. f_equal.
    rewrite Hdel. apply pairs_ext. intros a _. apply Hshape.
  - rewrite (level_entries_out _ _ _ Hrep2) by lia.
    by rewrite (level_entries_out _ _ _ Hrep) by lia.
Qed.

Lemma insert_remove_restores_witness :
  ∃ s1 s2,
    insert 3 9 3 l_5_1 = Some (0, s1)
    ∧ remove 3 s1 = Some (9, s2)
    ∧ (∀ i, level_entries s2 i = level_entries l_5_1 i)
    ∧ (∀ a, shape (mem s2) a = shape (mem l_5_1) a)
    ∧ head_ s2 = head_ l_5_1
    ∧ maxLevel_ s2 = Nat.max (maxLevel_ l_5_1) (spec_height 3 MAX_LEVEL).
Proof.
  apply (insert_remove_restores l_5_1 3 9 3).
  - apply l_5_1_reachable.
  - unfold in_KeyType, KeyType_min, int_max. lia.
  - apply (not_stored_entries _ [(5, 1)]); [reflexivity|].
    simpl. intros H%list_elem_of_singleton. lia.
  - vm_compute. lia.
Defined.

(** ** Memory *)

(** X9. On a container with at least one level the destructor frees every
    node, the head sentinel last: no memory is left. *)
Theorem destructor_frees_all s :
  reachable s → (0 < head_levels s)%nat → SkipList_delete s = Some ∅.
Proof.
  intros [Ls Hrep]%reachable_wf Hpos.
  destruct (clear_spec s Ls Hrep Hpos) as (s' & Hcl & Hrep' & _).
  unfold SkipList_delete. rewrite Hcl. simpl.
  pose proof (represents_empty_mem _ Hrep') as Hmem.
  unfold free. rewrite Hmem, lookup_singleton_eq. f_equal.
  apply delete_singleton_eq.
Qed.

Lemma destructor_frees_all_witness : SkipList_delete l_5_1_5_2 = Some ∅.
Proof.
  apply (destructor_frees_all l_5_1_5_2).
  - apply l_5_1_5_2_reachable.
  - vm_compute. lia.
Defined.

(** X10. The nodes in memory are the head sentinel and the nodes linked on
    level 0, each once: no node is lost, none is linked twice, and the
    number of nodes is one more than the number of pairs. *)
Theorem nodes_accounted s ns :
  reachable s → level_nodes s 0 = Some ns →
  NoDup (head_ s :: ns)
  ∧ dom (mem s) = list_to_set (head_ s :: ns)
  ∧ size (mem s) = S (length ns)
  ∧ ∃ es, entries s = Some es ∧ length es = length ns.
Proof.
  intros [Ls Hrep]%reachable_wf Hns.
  assert (0 < head_levels s)%nat as Hpos.
  { destruct (decide (0 < head_levels s)%nat) as [H|H]; [done|].
    rewrite (level_nodes_out _ _ _ Hrep) in Hns by lia. done. }
  rewrite (level_nodes_rep _ _ _ Hrep Hpos) in Hns. injection Hns as <-.
  pose proof (rep_nodup _ _ Hrep) as Hnd.
  assert (dom (mem s) = list_to_set (head_ s :: Ls O)) as Hdom.
  { apply set_eq. intros a. rewrite elem_of_dom, elem_of_list_to_set. split.
    - apply (rep_dom _ _ Hrep).
    - intros [->|Ha]%elem_of_cons; [apply Hrep|].
      by apply (rep_live _ _ Hrep O). }
  split; [done|]. split; [done|]. split.
  - rewrite <- size_dom, Hdom. by rewrite size_list_to_set.
  - eexists. split; [by apply entries_rep|]. by rewrite length_fmap.
Qed.

Lemma nodes_accounted_witness :
  NoDup (head_ l_5_1_5_2 :: [2%positive; 3%positive])
  ∧ dom (mem l_5_1_5_2)
    = list_to_set (head_ l_5_1_5_2 :: [2%positive; 3%positive])
  ∧ size (mem l_5_1_5_2) = S (length [2%positive; 3%positive])
  ∧ ∃ es, entries l_5_1_5_2 = Some es
      ∧ length es = length [2%positive; 3%positive].
Proof.
  apply (nodes_accounted l_5_1_5_2 [2%positive; 3%positive]).
  - apply l_5_1_5_2_reachable.
  - reflexivity.
Defined.

(** ** The levels *)

Lemma seg_link_elem m i x l y a :
  seg m i x l y → a ∈ l → ∃ z, link m a i = Some z.
Proof.
  revert x. induction l as [|b l IH]; intros x; simpl.
  - intros _ Ha. by apply elem_of_nil in Ha.
  - intros (-> & z & Hz & Hs) [->|Ha]%elem_of_cons; [eauto|by eapply IH].
Qed.

(** X11. The nodes linked on a level are linked on the level below, in the
    same order; the levels from the tracked level on are empty; a node
    linked on a level has a link for it; and the tracked level never
    exceeds the number of links of the head sentinel. *)
Theorem levels_nested s i upper :
  reachable s → level_nodes s (S i) = Some upper →
  ∃ lower,
    level_nodes s i = Some lower
    ∧ upper `sublist_of` lower
    ∧ ((maxLevel_ s ≤ S i)%nat → upper = [])
    ∧ (∀ a, a ∈ upper →
         ∃ nd, mem s !! a = Some nd ∧ (S i < length (level nd))%nat)
    ∧ (maxLevel_ s ≤ head_levels s)%nat.
Proof.
  intros [Ls Hrep]%reachable_wf Hup.
  assert (S i < head_levels s)%nat as Hi.
  { destruct (decide (S i < head_levels s)%nat) as [H|H]; [done|].
    rewrite (level_nodes_out _ _ _ Hrep) in Hup by lia. done. }
  rewrite (level_nodes_rep _ _ _ Hrep Hi) in Hup. injection Hup as <-.
  exists (Ls i). split; [apply (level_nodes_rep _ _ _ Hrep); lia|].
  split; [apply (rep_sub _ _ Hrep)|]. split; [apply (rep_empty _ _ Hrep)|].
  split; [|apply (rep_max _ _ Hrep)].
  intros a Ha. pose proof (rep_chain _ _ Hrep (S i) Hi) as Hch.
  destruct (seg_link_elem _ _ _ _ _ a Hch ltac:(by right)) as [z Hz].
  apply link_Some in Hz as (nd & Hnd & Hl). exists nd. split; [done|].
  by apply lookup_lt_Some in Hl.
Qed.

Lemma l_5_1_7_2_reachable : reachable l_5_1_7_2.
Proof.
  apply (reach_insert l_5_1 7 2 3 0); [apply l_5_1_reachable| |].
  - unfold in_KeyType, KeyType_min, int_max. lia.
  - vm_compute. reflexivity.
Qed.

Lemma levels_nested_witness :
  ∃ lower,
    level_nodes l_5_1_7_2 1 = Some lower
    ∧ [3%positive] `sublist_of` lower
    ∧ ((maxLevel_ l_5_1_7_2 ≤ 2)%nat → [3%positive] = [])
    ∧ (∀ a, a ∈ [3%positive] →
         ∃ nd, mem l_5_1_7_2 !! a = Some nd ∧ (2 < length (level nd))%nat)
    ∧ (maxLevel_ l_5_1_7_2 ≤ head_levels l_5_1_7_2)%nat.
Proof.
  apply (levels_nested l_5_1_7_2 1 [3%positive]).
  - apply l_5_1_7_2_reachable.
  - reflexivity.
Defined.

(** ** Defined behaviour *)

(** X12. In every state, [search], [update] and [remove] have a result for
    every key: they read no link out of bounds, follow no null or freed
    pointer, and their loops end.  [clear] and the destructor have a result
    exactly when the head sentinel has a link of level 0, and [insert]
    exactly when the height drawn is within the links of the head
    sentinel. *)
Theorem operations_defined s :
  reachable s →
  (∀ K, is_Some (search K s))
  ∧ (∀ K V, is_Some (update K V s))
  ∧ (∀ K, is_Some (remove K s))
  ∧ (is_Some (clear s) ↔ (0 < head_levels s)%nat)
  ∧ (is_Some (SkipList_delete s) ↔ (0 < head_levels s)%nat)
  ∧ (∀ k v rd, in_KeyType k →
       is_Some (insert k v rd s)
       ↔ (spec_height rd MAX_LEVEL ≤ head_levels s)%nat).
Proof.
  intros Hreach. destruct (reachable_wf _ Hreach) as [Ls Hrep].
  split; [|split; [|split; [|split; [|split]]]].
  - intros K. rewrite (search_spec _ _ Hrep). eauto.
  - intros K V. pose proof (update_spec s Ls K V Hrep) as Hspec.
    simpl in Hspec. case_decide.
    + destruct Hspec as (nd & _ & ->). eauto.
    + rewrite Hspec. eauto.
  - intros K. pose proof (remove_spec s Ls K Hrep) as Hspec. simpl in Hspec.
    destruct (List.find _ (Ls O)).
    + destruct Hspec as (s' & -> & _). eauto.
    + rewrite Hspec. eauto.
  - split.
    + intros [s' Hcl]. destruct (decide (0 < head_levels s)%nat); [done|].
      rewrite (clear_no_level s Ls Hrep) in Hcl by lia. done.
    + intros Hpos. destruct (clear_spec s Ls Hrep Hpos) as (s' & -> & _). eauto.
  - split.
    + intros [m Hm]. destruct (decide (0 < head_levels s)%nat); [done|].
      unfold SkipList_delete in Hm.
      rewrite (clear_no_level s Ls Hrep) in Hm by lia. done.
    + intros Hpos.
      destruct (clear_spec s Ls Hrep Hpos) as (s' & Hcl & Hrep' & _).
      unfold SkipList_delete, free. rewrite Hcl. simpl.
      destruct (rep_head _ _ Hrep') as [hn ->]. eauto.
  - intros k v rd Hk. split.
    + intros [[r s'] Hins]. by eapply insert_Some_fits.
    + intros Hfit.
      destruct (insert_spec s Ls k v rd Hrep Hk Hfit) as (s' & ? & ? & -> & _).
      eauto.
Qed.

Lemma l_no_level_reachable : reachable l_no_level.
Proof. by apply (reach_new 0). Qed.

Lemma operations_defined_witness :
  (∀ K, is_Some (search K l_no_level))
  ∧ (∀ K V, is_Some (update K V l_no_level))
  ∧ (∀ K, is_Some (remove K l_no_level))
  ∧ (is_Some (clear l_no_level) ↔ (0 < head_levels l_no_level)%nat)
  ∧ (is_Some (SkipList_delete l_no_level) ↔ (0 < head_levels l_no_level)%nat)
  ∧ (∀ k v rd, in_KeyType k →
       is_Some (insert k v rd l_no_level)
       ↔ (spec_height rd MAX_LEVEL ≤ head_levels l_no_level)%nat).
Proof. apply (operations_defined l_no_level). apply l_no_level_reachable. Defined.

(** X13. On a container with fewer than 32 levels, [insert] reads a link of
    the head sentinel out of bounds exactly when the low bits of the random
    word, as many as the container has levels, are all ones: the height is
    drawn for 32 levels, whatever the maximum level of the container. *)
Theorem insert_out_of_bounds s k v rd :
  reachable s → in_KeyType k → (head_levels s < MAX_LEVEL)%nat →
  insert k v rd s = None
  ↔ ∀ t, (t < head_levels s)%nat → Z.testbit rd (Z.of_nat t) = true.
Proof.
  intros [Ls Hrep]%reachable_wf Hk Hlt.
  pose proof (spec_height_ge rd MAX_LEVEL (S (head_levels s))
                ltac:(lia) ltac:(unfold MAX_LEVEL; lia)) as Hge.
  replace (S (head_levels s) - 1)%nat with (head_levels s) in Hge by lia.
  rewrite <- Hge. split.
  - intros Hins.
    destruct (decide (spec_height rd MAX_LEVEL ≤ head_levels s)%nat)
      as [Hfit|Hfit]; [|lia].
    destruct (insert_spec s Ls k v rd Hrep Hk Hfit) as (s' & ? & ? & Heq & _).
    congruence.
  - intros Hh. apply (insert_overflow s Ls k v rd Hrep). lia.
Qed.

Lemma insert_out_of_bounds_witness :
  insert 5 1 1 l_one_level = None
  ↔ ∀ t, (t < head_levels l_one_level)%nat → Z.testbit 1 (Z.of_nat t) = true.
Proof.
  apply (insert_out_of_bounds l_one_level 5 1 1).
  - apply l_one_level_reachable.
  - apply in_KeyType_5.
  - vm_compute. lia.
Defined.

(** ** The default comparator *)

(** X14. [DefaultComparator] is a three-way comparison of a total order:
    its result is -1, 0 or 1, 0 exactly on equal arguments and negative
    exactly when the first is less; swapping the arguments negates the
    result, and the order it gives is transitive. *)
Theorem DefaultComparator_total_order a b c :
  DefaultComparator a b = Z.sgn (a - b)
  ∧ (DefaultComparator a b = 0 ↔ a = b)
  ∧ (DefaultComparator a b < 0 ↔ a < b)
  ∧ DefaultComparator b a = - DefaultComparator a b
  ∧ (DefaultComparator a b ≤ 0 → DefaultComparator b c ≤ 0 →
     DefaultComparator a c ≤ 0).
Proof.
  unfold DefaultComparator.
  destruct (Z.eqb_spec a b), (Z.eqb_spec b a), (Z.eqb_spec b c),
    (Z.eqb_spec a c), (Z.ltb_spec a b), (Z.ltb_spec b a), (Z.ltb_spec b c),
    (Z.ltb_spec a c); lia.
Qed.

(** ** The order of the pairs without [update] *)

Lemma pair_le_shape m m' a b :
  shape m' a = shape m a → shape m' b = shape m b →
  pair_le m a b → pair_le m' a b.
Proof.
  intros Ha Hb. unfold pair_le.
  by rewrite !(shape_keyof m m'), !(shape_valueof m m') by done.
Qed.

(** [insert], [remove] and [clear] keep the nodes of level 0 in the order of
    their pairs. *)
Lemma built_sorted s :
  built s →
  ∃ Ls, represents s Ls ∧ StronglySorted (pair_le (mem s)) (Ls O).
Proof.
  induction 1 as [n s Hnew|s k v rd r s' _ (Ls & Hrep & Hsort) Hk Hins
                 |s k r s' _ (Ls & Hrep & Hsort) Hrem
                 |s s' _ (Ls & Hrep & Hsort) Hcl].
  - exists (λ _, []). split; [by eapply new_represents|constructor].
  - pose proof (insert_Some_fits _ _ _ _ _ _ _ Hrep Hins) as Hfit.
    destruct (insert_spec s Ls k v rd Hrep Hk Hfit)
      as (s1 & node & sp & Heq & Hnode & Hrep1 & Hsp & _ & _ & Hnew & Hold).
    rewrite Heq in Hins. injection Hins as _ <-.
    eexists. split; [done|].
    pose proof (spec_height_range rd MAX_LEVEL ltac:(unfold MAX_LEVEL; lia))
      as Hlvl.
    unfold inserted. rewrite decide_True by lia.
    pose proof (Hsp O ltac:(lia)) as Hsp0.
    destruct Hsp0 as (HL & _). pose proof (Hsp O ltac:(lia)) as Hsp0.
    rewrite HL in Hsort, Hsp0.
    destruct (ins_split_sorted _ _ _ _ _ _ Hsort Hsp0) as [HA HB].
    destruct (shape_key_value _ _ _ _ _ Hnew) as [Hkn Hvn].
    assert (∀ a, a ∈ Ls O → shape (mem s1) a = shape (mem s) a) as Hsame.
    { intros a Ha. apply Hold. intros ->.
      eapply (node_not_elem s Ls Hrep node Hnode O). by right. }
    rewrite HL in Hsame.
    apply StronglySorted_insert.
    + eapply StronglySorted_ext; [|exact Hsort]. intros a b Ha Hb.
      apply pair_le_shape; by apply Hsame.
    + apply Forall_forall. intros a Ha. rewrite Forall_forall in HA.
      specialize (HA a Ha). apply pair_lt_before in HA.
      unfold pair_before in HA. simpl in HA. unfold pair_le.
      rewrite Hkn, Hvn.
      rewrite (shape_keyof (mem s) (mem s1)), (shape_valueof (mem s) (mem s1))
        by (apply Hsame, elem_of_app; by left).
      lia.
    + apply Forall_forall. intros b Hb. rewrite Forall_forall in HB.
      specialize (HB b Hb). rewrite pair_lt_before in HB.
      unfold pair_before in HB. simpl in HB. unfold pair_le.
      rewrite Hkn, Hvn.
      rewrite (shape_keyof (mem s) (mem s1)), (shape_valueof (mem s) (mem s1))
        by (apply Hsame, elem_of_app; by right).
      lia.
  - pose proof (remove_spec s Ls k Hrep) as Hspec. simpl in Hspec.
    destruct (List.find _ (Ls O)) as [x|] eqn:Hfind.
    + destruct Hspec as (s1 & Heq & Hrep1 & _ & _ & Hx & Hsh).
      rewrite Heq in Hrem. injection Hrem as _ <-.
      eexists. split; [done|]. simpl.
      eapply StronglySorted_ext;
        [|eapply StronglySorted_sublist; [apply del_first_sublist|done]].
      intros a b Ha Hb. apply pair_le_shape; apply Hsh; intros ->.
      * destruct (rep_live _ _ Hrep1 O _ Ha) as [nd Hnd]. congruence.
      * destruct (rep_live _ _ Hrep1 O _ Hb) as [nd Hnd]. congruence.
    + rewrite Hspec in Hrem. injection Hrem as _ <-. by exists Ls.
  - destruct (decide (0 < head_levels s)%nat) as [H0|H0].
    + destruct (clear_spec s Ls Hrep H0) as (s1 & Heq & Hrep1 & _).
      rewrite Heq in Hcl. injection Hcl as <-.
      exists (λ _, []). split; [done|constructor].
    + rewrite (clear_no_level s Ls Hrep) in Hcl by lia. done.
Qed.

Lemma sorted_pairs m (L : list addr) :
  StronglySorted (pair_le m) L →
  StronglySorted pair_order ((λ a, (keyof m a, valueof m a)) <$> L).
Proof.
  induction 1 as [|a L Hs IH Hall]; [constructor|]. rewrite fmap_cons.
  constructor; [done|]. apply Forall_fmap.
  eapply Forall_impl; [exact Hall|]. done.
Qed.

Lemma sorted_head {A} (R : relation A) (l : list A) x :
  StronglySorted R l → x ∈ l → ∃ h, head l = Some h ∧ (h = x ∨ R h x).
Proof.
  intros Hs Hx. destruct Hs as [|a l Hs Hall]; [by apply elem_of_nil in Hx|].
  exists a. split; [done|]. apply elem_of_cons in Hx as [->|Hx]; [by left|].
  right. by eapply Forall_forall in Hall.
Qed.

Lemma sorted_last {A} (R : relation A) (l : list A) x :
  StronglySorted R l → x ∈ l → ∃ h, last l = Some h ∧ (h = x ∨ R x h).
Proof.
  induction 1 as [|a l Hs IH Hall]; intros Hx; [by apply elem_of_nil in Hx|].
  destruct l as [|b l].
  - apply list_elem_of_singleton in Hx as ->. exists a. split; [done|by left].
  - apply elem_of_cons in Hx as [->|Hx].
    + destruct (last (b :: l)) as [h|] eqn:Hh.
      * exists h. split; [done|]. right. rewrite Forall_forall in Hall.
        apply Hall. apply last_Some in Hh as [l' Hl']. rewrite Hl'.
        apply elem_of_app. right. left.
      * by apply last_None in Hh.
    + destruct (IH Hx) as (h & Hh & Hor). by exists h.
Qed.

Lemma sorted_key_values K v (es : list (Z * Z)) :
  StronglySorted pair_order es → (K, v) ∈ es →
  ∃ lo hi, first_value K es = Some lo ∧ last_value K es = Some hi
    ∧ (K, lo) ∈ es ∧ (K, hi) ∈ es ∧ lo ≤ v ≤ hi.
Proof.
  intros Hs Hin.
  assert (StronglySorted pair_order (filter (λ e, e.1 = K) es)) as HsF.
  { eapply StronglySorted_sublist; [apply sublist_filter|done]. }
  assert ((K, v) ∈ filter (λ e, e.1 = K) es) as HinF.
  { by apply list_elem_of_filter. }
  destruct (sorted_head _ _ _ HsF HinF) as (h & Hh & Hho).
  destruct (sorted_last _ _ _ HsF HinF) as (t & Ht & Hto).
  assert (h.1 = K ∧ h ∈ es) as [Hhk Hhin].
  { apply head_Some_elem_of in Hh. by apply list_elem_of_filter in Hh. }
  assert (t.1 = K ∧ t ∈ es) as [Htk Htin].
  { apply last_Some_elem_of in Ht. by apply list_elem_of_filter in Ht. }
  exists h.2, t.2. unfold first_value, last_value. rewrite Hh, Ht.
  split; [done|]. split; [done|].
  split; [by rewrite <- Hhk, <- surjective_pairing|].
  split; [by rewrite <- Htk, <- surjective_pairing|].
  unfold pair_order in *. simpl in *. split.
  - destruct Hho as [->|Hho]; simpl; lia.
  - destruct Hto as [->|Hto]; simpl; lia.
Qed.

Lemma remove_value s Ls K :
  represents s Ls →
  ∃ s', remove K s
        = Some (default (-1)
                  (first_value K
                     ((λ a, (keyof (mem s) a, valueof (mem s) a)) <$> Ls O)),
                s').
Proof.
  intros Hrep. pose proof (remove_spec s Ls K Hrep) as Hspec.
  simpl in Hspec. rewrite first_value_nodes.
  destruct (List.find _ (Ls O)) as [x|].
  - destruct Hspec as (s' & Hrem & _). by exists s'.
  - by exists s.
Qed.

(** X15. As long as [update] is not called, the pairs of level 0 are in the
    order of (key, value), and for every stored pair [(K, v)], [remove(K)]
    returns the least value stored under [K] and [search(K)] the greatest:
    the two enclose [v]. *)
Theorem pairs_ordered_without_update s es :
  built s → entries s = Some es →
  StronglySorted pair_order es
  ∧ ∀ K v, (K, v) ∈ es →
      ∃ lo hi s',
        remove K s = Some (lo, s') ∧ search K s = Some hi
        ∧ (K, lo) ∈ es ∧ (K, hi) ∈ es ∧ lo ≤ v ≤ hi.
Proof.
  intros (Ls & Hrep & Hsort)%built_sorted Hes.
  destruct (entries_Some_levels _ _ _ Hrep Hes) as [_ ->].
  pose proof (sorted_pairs _ _ Hsort) as Hs. split; [done|].
  intros K v Hin.
  destruct (sorted_key_values K v _ Hs Hin)
    as (lo & hi & Hlo & Hhi & Hlin & Hhin & Hle).
  destruct (remove_value s Ls K Hrep) as (s' & Hrem).
  exists lo, hi, s'. rewrite Hrem, (search_pairs _ _ _ Hrep), Hlo, Hhi.
  done.
Qed.

Lemma pairs_ordered_without_update_witness :
  StronglySorted pair_order [(5, 1); (5, 2)]
  ∧ ∀ K v, (K, v) ∈ [(5, 1); (5, 2)] →
      ∃ lo hi s',
        remove K l_5_1_5_2 = Some (lo, s')
        ∧ search K l_5_1_5_2 = Some hi
        ∧ (K, lo) ∈ [(5, 1); (5, 2)] ∧ (K, hi) ∈ [(5, 1); (5, 2)]
        ∧ lo ≤ v ≤ hi.
Proof.
  apply (pairs_ordered_without_update l_5_1_5_2 [(5, 1); (5, 2)]).
  - eapply built_insert;
      [eapply built_insert; [by apply (built_new MAX_LEVEL)| |apply l_5_1_eq]
      | |apply l_5_1_5_2_eq]; apply in_KeyType_5.
  - reflexivity.
Defined.

(** ** [update] and the order of the pairs *)

Lemma sorted_before {A} (R : relation A) (l1 l2 : list A) x a :
  StronglySorted R (l1 ++ x :: l2) → a ∈ l1 → R a x.
Proof.
  induction l1 as [|b l1 IH]; simpl; [by intros _ ?%elem_of_nil|].
  intros [Hs Hall]%StronglySorted_inv [->|Ha]%elem_of_cons; [|by apply IH].
  rewrite Forall_forall in Hall. apply Hall, elem_of_app. right. left.
Qed.

Lemma first_value_app K (A B : list (Z * Z)) :
  filter (λ e, e.1 = K) A ≠ [] → first_value K (A ++ B) = first_value K A.
Proof.
  intros Hne. unfold first_value. rewrite filter_app.
  by destruct (filter (λ e, e.1 = K) A).
Qed.

Lemma first_value_elem K lo (A : list (Z * Z)) :
  first_value K A = Some lo → (K, lo) ∈ A.
Proof.
  unfold first_value. destruct (head _) as [e|] eqn:He; [|done].
  intros [= <-]. apply head_Some_elem_of in He.
  apply list_elem_of_filter in He as [<- He]. by rewrite <- surjective_pairing.
Qed.

(** X16. [update] does not keep the pairs in the order of (key, value):
    when at least two pairs carry the key [K] and [V] is less than the value
    of the first of them, [update(K, V)] overwrites the last of them and
    leaves the pairs of level 0 out of order; afterwards [search(K)] returns
    [V], and [remove(K)] returns the greater value of the first pair. *)
Theorem update_breaks_pair_order s K V es lo :
  reachable s → entries s = Some es →
  first_value K es = Some lo →
  (2 ≤ length (filter (λ e, e.1 = K) es))%nat →
  V < lo →
  ∃ s' es' s'',
    update K V s = Some (0, s')
    ∧ entries s' = Some es'
    ∧ ¬ StronglySorted pair_order es'
    ∧ search K s' = Some V
    ∧ remove K s' = Some (lo, s'').
Proof.
  intros [Ls Hrep]%reachable_wf Hes Hlo Hlen HV.
  assert (K ∈ es.*1) as HK.
  { apply first_value_elem in Hlo. apply list_elem_of_fmap. by exists (K, lo). }
  destruct (update_pairs s Ls K V es Hrep Hes HK)
    as (A & v & B & s' & HA & HB & Hup & Hes' & Hmax & Hrep' & Hlev).
  assert (filter (λ e, e.1 = K) A ≠ []) as HneA.
  { intros Hnil. rewrite HA, filter_app, Hnil, filter_cons_True in Hlen by done.
    rewrite (filter_none _ B) in Hlen; [simpl in Hlen; lia|].
    apply Forall_forall. intros e He Hk. apply HB.
    apply list_elem_of_fmap. by exists e. }
  rewrite HA, first_value_app in Hlo by done.
  destruct (entries_Some_levels _ _ _ Hrep' Hes') as [_ Hpairs].
  destruct (remove_value s' Ls K Hrep') as (s'' & Hrem).
  exists s', (A ++ (K, V) :: B), s''.
  split; [done|]. split; [done|]. split; [|split].
  - intros Hs. apply first_value_elem in Hlo.
    pose proof (sorted_before _ _ _ _ _ Hs Hlo) as Hord.
    unfold pair_order in Hord. simpl in Hord. lia.
  - rewrite (search_pairs _ _ _ Hrep'), <- Hpairs.
    by rewrite last_value_hit.
  - rewrite Hrem, <- Hpairs. by rewrite first_value_app, Hlo.
Qed.

Lemma update_breaks_pair_order_witness :
  ∃ s' es' s'',
    update 5 0 l_5_1_5_2 = Some (0, s')
    ∧ entries s' = Some es'
    ∧ ¬ StronglySorted pair_order es'
    ∧ search 5 s' = Some 0
    ∧ remove 5 s' = Some (1, s'').
Proof.
  apply (update_breaks_pair_order l_5_1_5_2 5 0 [(5, 1); (5, 2)] 1).
  - apply l_5_1_5_2_reachable.
  - reflexivity.
  - reflexivity.
  - vm_compute. lia.
  - lia.
Defined.

(** ** How often a height is drawn *)

Lemma low_bits_ones rd (n : nat) :
  (∀ t, (t < n)%nat → Z.testbit rd (Z.of_nat t) = true)
  ↔ rd `mod` 2 ^ Z.of_nat n = 2 ^ Z.of_nat n - 1.
Proof.
  replace (2 ^ Z.of_nat n - 1) with (Z.ones (Z.of_nat n))
    by (rewrite Z.ones_equiv; lia).
  split.
  - intros Hbits. apply Z.bits_inj'. intros i Hi.
    destruct (decide (i < Z.of_nat n)) as [Hlt|Hge].
    + rewrite Z.mod_pow2_bits_low, Z.ones_spec_low by lia.
      replace i with (Z.of_nat (Z.to_nat i)) by lia. apply Hbits. lia.
    + by rewrite Z.mod_pow2_bits_high, Z.ones_spec_high by lia.
  - intros Hmod t Ht.
    rewrite <- (Z.mod_pow2_bits_low rd (Z.of_nat n)) by lia.
    rewrite Hmod. apply Z.ones_spec_low. lia.
Qed.

(** Among [m] integers in a row from a multiple of [m], one is [m - 1]
    modulo [m]. *)
Lemma count_residue_block (m b : Z) :
  0 < m →
  length (filter (λ x, x `mod` m = m - 1) (seqZ (m * b) m)) = 1%nat.
Proof.
  intros Hm.
  assert (seqZ (m * b) m
          = seqZ (m * b) (m - 1) ++ seqZ (m * b + (m - 1)) 1) as ->.
  { rewrite <- seqZ_app by lia. f_equal. lia. }
  rewrite filter_app, length_app.
  rewrite (filter_none _ (seqZ (m * b) (m - 1))).
  - rewrite seqZ_cons, seqZ_nil by lia.
    rewrite filter_cons_True; [done|].
    replace (m * b + (m - 1)) with ((m - 1) + b * m) by lia.
    rewrite Z_mod_plus_full. apply Z.mod_small. lia.
  - apply Forall_seqZ. intros x Hx.
    replace x with ((x - m * b) + b * m) by lia.
    rewrite Z_mod_plus_full, Z.mod_small by lia. lia.
Qed.

Lemma count_residue (m a : Z) (q : nat) :
  0 < m →
  length (filter (λ x, x `mod` m = m - 1) (seqZ (m * a) (m * Z.of_nat q))) = q.
Proof.
  intros Hm. induction q as [|q IH].
  - by rewrite seqZ_nil by lia.
  - replace (m * Z.of_nat (S q)) with (m * Z.of_nat q + m) by lia.
    rewrite seqZ_app, filter_app, length_app, IH by lia.
    replace (m * a + m * Z.of_nat q) with (m * (a + Z.of_nat q)) by lia.
    rewrite count_residue_block by done. lia.
Qed.

Lemma words_blocks (j : Z) :
  0 ≤ j ≤ 63 →
  words = seqZ (2 ^ j * - 2 ^ (63 - j))
            (2 ^ j * Z.of_nat (Z.to_nat (2 ^ (64 - j)))).
Proof.
  intros Hj. unfold words. f_equal.
  - rewrite Z.mul_opp_r, <- Z.pow_add_r by lia. do 2 f_equal. lia.
  - rewrite Z2Nat.id by (apply Z.pow_nonneg; lia).
    rewrite <- Z.pow_add_r by lia. f_equal. lia.
Qed.

(** X17. Of the 2^64 words the generator can draw, [randomLevel] gives a
    height of at least [h] to one in 2^(h-1), for every [h] from 1 to 32:
    each further level halves the number of words. *)
Theorem randomLevel_frequency (h : nat) :
  (1 ≤ h ≤ MAX_LEVEL)%nat →
  Z.of_nat (length (filter (λ rd, (h ≤ default O (randomLevel rd MAX_LEVEL))%nat)
                      words))
  * 2 ^ (Z.of_nat h - 1)
  = 2 ^ 64.
Proof.
  intros Hh. unfold MAX_LEVEL in Hh.
  rewrite (list_filter_iff _
             (λ rd, rd `mod` 2 ^ (Z.of_nat h - 1) = 2 ^ (Z.of_nat h - 1) - 1)).
  - rewrite (words_blocks (Z.of_nat h - 1)) by lia.
    rewrite count_residue by (apply Z.pow_pos_nonneg; lia).
    rewrite Z2Nat.id by (apply Z.pow_nonneg; lia).
    rewrite <- Z.pow_add_r by lia. f_equal. lia.
  - intros rd. rewrite randomLevel_spec by (unfold MAX_LEVEL; lia). simpl.
    rewrite (spec_height_ge rd MAX_LEVEL h) by (unfold MAX_LEVEL; lia).
    rewrite low_bits_ones. by replace (Z.of_nat (h - 1)) with (Z.of_nat h - 1) by lia.
Qed.

Lemma randomLevel_frequency_witness :
  Z.of_nat (length (filter (λ rd, (3 ≤ default O (randomLevel rd MAX_LEVEL))%nat)
                      words))
  * 2 ^ (Z.of_nat 3 - 1)
  = 2 ^ 64.
Proof. apply (randomLevel_frequency 3). unfold MAX_LEVEL. lia. Defined.

(** ** A comparator of one's own *)

(** X18. [searchNode] tests the key it ends on with [==], not with the
    comparator.  With any comparator, after the first [insert(k, v)], with a
    height within the links of the head sentinel, a key [k'] that the
    comparator holds equal to [k] and that is not [k] is not found by
    [search] and [update], while [remove(k')] unlinks and frees the node of
    [k] and returns [v]. *)
Theorem equivalent_key_lookup cmp n s k v rd k' w :
  SkipList_new n cmp = Some s →
  (spec_height rd MAX_LEVEL ≤ head_levels s)%nat →
  cmp k k' = 0 → k ≠ k' →
  ∃ s1 s2,
    insert k v rd s = Some (0, s1)
    ∧ search k' s1 = Some ValueType_min
    ∧ update k' w s1 = Some (1, s1)
    ∧ remove k' s1 = Some (v, s2)
    ∧ mem s2 = mem s.
Proof.
  intros [_ ->]%SkipList_new_Some Hfit Hcmp Hne.
  pose proof (spec_height_range rd MAX_LEVEL ltac:(unfold MAX_LEVEL; lia))
    as Hlvl.
  revert Hfit. generalize (Z.to_nat (to_int (Z.of_nat n))). clear n.
  intros n. unfold head_levels. cbn [mem head_].
  rewrite lookup_insert_eq. cbn [from_option level].
  rewrite length_replicate, insert_empty. intros Hfit.
  rewrite (insert_first cmp n k v rd Hfit).
  set (lvl := spec_height rd MAX_LEVEL) in *.
  assert (searchNode k' (mkSkipList lvl 1 cmp (one_pair_mem n lvl 0 lvl k v))
          = Some None) as Hsn.
  { unfold searchNode, steps. cbn [maxLevel_ mem head_ comparator_].
    rewrite one_pair_size.
    rewrite (one_pair_search_head cmp n lvl k v Hfit 1 k' lvl Hcmp) by lia.
    cbn [mbind option_bind]. rewrite one_pair_node. cbn [mbind option_bind key].
    by rewrite (proj2 (Z.eqb_neq k k')). }
  eexists _, _. split; [done|]. split; [|split; [|split]].
  - unfold search. by rewrite Hsn.
  - unfold update. by rewrite Hsn.
  - unfold remove, steps. cbn [maxLevel_ mem head_ comparator_].
    rewrite (one_pair_remove_loop cmp n lvl k v Hfit _ k' lvl) by (done || lia).
    cbn [mbind option_bind]. unfold free. rewrite one_pair_node.
    cbn [mbind option_bind]. done.
  - cbn [mem]. unfold one_pair_mem. rewrite head_links_none by lia.
    rewrite delete_insert_ne by done. rewrite delete_singleton_eq.
    by rewrite insert_empty.
Qed.

Lemma equivalent_key_lookup_witness :
  ∃ s1 s2,
    insert 15 1 mt_word_1 (the (SkipList_new MAX_LEVEL tens_comparator))
    = Some (0, s1)
    ∧ search 12 s1 = Some ValueType_min
    ∧ update 12 9 s1 = Some (1, s1)
    ∧ remove 12 s1 = Some (1, s2)
    ∧ mem s2 = mem (the (SkipList_new MAX_LEVEL tens_comparator)).
Proof.
  apply (equivalent_key_lookup tens_comparator MAX_LEVEL _ 15 1 mt_word_1 12 9).
  - reflexivity.
  - vm_compute. lia.
  - reflexivity.
  - lia.
Defined.

(** ** The head sentinel and the tracked level *)

(** X19. No operation replaces the head sentinel, changes its key or the
    number of its links, or changes the comparator; and no operation, not
    even [remove] or [clear], lowers the tracked level. *)
Theorem operations_keep_head s s' :
  reachable s →
  (∃ k v rd r, in_KeyType k ∧ insert k v rd s = Some (r, s'))
  ∨ (∃ k v r, update k v s = Some (r, s'))
  ∨ (∃ k r, remove k s = Some (r, s'))
  ∨ clear s = Some s' →
  head_ s' = head_ s
  ∧ head_levels s' = head_levels s
  ∧ keyof (mem s') (head_ s') = KeyType_min
  ∧ comparator_ s' = comparator_ s
  ∧ (maxLevel_ s ≤ maxLevel_ s')%nat.
Proof.
  intros [Ls Hrep]%reachable_wf Hop.
  destruct Hop as [(k & v & rd & r & Hk & Hins)|[(k & v & r & Hup)
                  |[(k & r & Hrem)|Hcl]]].
  - pose proof (insert_Some_fits _ _ _ _ _ _ _ Hrep Hins) as Hfit.
    destruct (insert_pairs s Ls k v rd Hrep Hk Hfit)
      as (s1 & node & sp & Hins1 & Hrep1 & _ & Hmax & Hhd & Hlev & _).
    rewrite Hins1 in Hins. injection Hins as _ <-.
    split; [done|]. split; [done|]. split; [apply Hrep1|]. split; [|lia].
    by rewrite (rep_cmp _ _ Hrep1), (rep_cmp _ _ Hrep).
  - pose proof (update_represents _ _ _ _ _ _ Hrep Hup) as Hrep1.
    pose proof (update_spec s Ls k v Hrep) as Hspec. simpl in Hspec.
    case_decide.
    + destruct Hspec as (nd & Hnd & Hup1).
      rewrite Hup1 in Hup. injection Hup as _ <-.
      split; [done|]. split; [by apply set_value_head_levels|].
      split; [apply Hrep1|]. split; [done|]. simpl. lia.
    + rewrite Hspec in Hup. injection Hup as _ <-.
      split; [done|]. split; [done|]. split; [apply Hrep|]. split; [done|lia].
  - pose proof (remove_spec s Ls k Hrep) as Hspec. simpl in Hspec.
    destruct (List.find _ (Ls O)) as [x|] eqn:Hfind.
    + destruct Hspec as (s1 & Hrem1 & Hrep1 & Hmax & Hhd & _ & Hsh).
      rewrite Hrem1 in Hrem. injection Hrem as _ <-.
      apply find_Some_elem in Hfind as [Hxin _].
      assert (head_ s ≠ x) as Hnh.
      { intros Heq. rewrite <- Heq in Hxin.
        by pose proof (rep_nodup _ _ Hrep) as [? _]%NoDup_cons. }
      split; [done|]. split; [by apply head_levels_shape; [|apply Hsh]|].
      split; [apply Hrep1|]. split; [|lia].
      by rewrite (rep_cmp _ _ Hrep1), (rep_cmp _ _ Hrep).
    + rewrite Hspec in Hrem. injection Hrem as _ <-.
      split; [done|]. split; [done|]. split; [apply Hrep|]. split; [done|lia].
  - destruct (decide (0 < head_levels s)%nat) as [H0|H0].
    + destruct (clear_spec s Ls Hrep H0) as (s1 & Heq & Hrep1 & Hmax & Hhd & Hsh).
      rewrite Heq in Hcl. injection Hcl as <-.
      split; [done|]. split; [by apply head_levels_shape|].
      split; [apply Hrep1|]. split; [|lia].
      by rewrite (rep_cmp _ _ Hrep1), (rep_cmp _ _ Hrep).
    + rewrite (clear_no_level s Ls Hrep) in Hcl by lia. done.
Qed.

Lemma operations_keep_head_witness :
  head_ l_head_7_cleared = head_ l_head_7_ins
  ∧ head_levels l_head_7_cleared = head_levels l_head_7_ins
  ∧ keyof (mem l_head_7_cleared) (head_ l_head_7_cleared) = KeyType_min
  ∧ comparator_ l_head_7_cleared = comparator_ l_head_7_ins
  ∧ (maxLevel_ l_head_7_ins ≤ maxLevel_ l_head_7_cleared)%nat.
Proof.
  apply (operations_keep_head l_head_7_ins l_head_7_cleared).
  - apply l_head_7_ins_reachable.
  - do 3 right. reflexivity.
Defined.

(** ** The level selector on its own argument *)

(** X20. For every random word and every argument [level] from 1 to 32,
    [randomLevel(level)] returns a height between 1 and [level], equal to
    one plus the index of the first zero bit of the word, capped at
    [level]; each further level takes one more bit of the word to be one:
    the height is at least [h'] exactly when the [h' - 1] low bits are all
    ones. *)
Theorem randomLevel_height rd lvl :
  (1 ≤ lvl ≤ 32)%nat →
  ∃ h, randomLevel rd lvl = Some h
    ∧ (1 ≤ h ≤ lvl)%nat
    ∧ h = spec_height rd lvl
    ∧ ∀ h', (1 ≤ h' ≤ lvl)%nat →
        (h' ≤ h)%nat
        ↔ ∀ t, (t < h' - 1)%nat → Z.testbit rd (Z.of_nat t) = true.
Proof.
  intros [H1 H32]. exists (spec_height rd lvl).
  split; [by apply randomLevel_spec|]. split; [by apply spec_height_range|].
  split; [done|]. intros h' Hh'. apply spec_height_ge; lia.
Qed.

Lemma randomLevel_height_witness :
  ∃ h, randomLevel mt_word_1 MAX_LEVEL = Some h
    ∧ (1 ≤ h ≤ MAX_LEVEL)%nat
    ∧ h = spec_height mt_word_1 MAX_LEVEL
    ∧ ∀ h', (1 ≤ h' ≤ MAX_LEVEL)%nat →
        (h' ≤ h)%nat
        ↔ ∀ t, (t < h' - 1)%nat → Z.testbit mt_word_1 (Z.of_nat t) = true.
Proof.
  apply (randomLevel_height mt_word_1 MAX_LEVEL). unfold MAX_LEVEL. lia.
Defined.

End skiplist.
